(** * ConsistencyChecker: outcomes of a litmus program under IBM370 and x86-TSO

    A shallow embedding of [consistency-checker.cpp].  The global arrays of
    the C++ file become the fields of a [State] record that is threaded
    through every function; the two recursive searches take a fuel argument
    that bounds the recursion depth, and a failed [assert] becomes the result
    [AssertFail].  The functions take the parsed program, and [main] returns
    the final state with the two solution sets; the reading loop of [main]
    is [read_program], over the words extracted from each line.  Printing
    the program and the listings is left out, apart from the lines of the
    second listing ([report_tso]). *)

From stdpp Require Import base tactics option list gmap strings pretty.

#[local] Set Warnings "-clear-no-such-hyp".

Open Scope string_scope.
Open Scope nat_scope.
Open Scope list_scope.

(** ** Results of fallible code *)

Inductive result (A : Type) : Type :=
  | Ok (a : A)
  | AssertFail
  | OutOfFuel.
Arguments Ok {A} a.
Arguments AssertFail {A}.
Arguments OutOfFuel {A}.

#[export] Instance result_ret : MRet result := @Ok.
#[export] Instance result_bind : MBind result := λ A B f m,
  match m with
  | Ok a => f a
  | AssertFail => AssertFail
  | OutOfFuel => OutOfFuel
  end.

(** ** Fixed-size arrays

    [bool x[MAX_THREADS][MAX_INSTRUCTIONS]] is a list of rows; a read outside
    the list yields the default, a write outside the list changes nothing
    (the C++ program never indexes outside its arrays on a bounded program). *)

Definition MAX_THREADS : nat := 6.
Definition MAX_INSTRUCTIONS : nat := 10.

Definition get2 {A} (dflt : A) (a : list (list A)) (t i : nat) : A :=
  match a !! t with
  | Some row => default dflt (row !! i)
  | None => dflt
  end.

Definition set2 {A} (a : list (list A)) (t i : nat) (v : A) : list (list A) :=
  alter (λ row, <[i := v]> row) t a.

Definition get3 {A} (dflt : A) (a : list (list (list A))) (t d i : nat) : A :=
  match a !! t with
  | Some plane => get2 dflt plane d i
  | None => dflt
  end.

Definition set3 {A} (a : list (list (list A))) (t d i : nat) (v : A)
  : list (list (list A)) :=
  alter (λ plane, set2 plane d i v) t a.

(** [a] has [n] rows of [m] cells. *)
Definition rect {A} (n m : nat) (a : list (list A)) : Prop :=
  length a = n ∧ ∀ t row, a !! t = Some row → length row = m.

Definition dims2 {A} (a : list (list A)) : Prop :=
  rect MAX_THREADS MAX_INSTRUCTIONS a.

Definition dims3 {A} (a : list (list (list A))) : Prop :=
  length a = MAX_THREADS ∧
  ∀ t plane, a !! t = Some plane → rect MAX_INSTRUCTIONS MAX_INSTRUCTIONS plane.

(** ** Loops *)

(** [for (k = lo; k < lo + n; k++) body(k)] over a state. *)
Fixpoint for_pure {St} (n lo : nat) (body : nat → St → St) (s : St) : St :=
  match n with
  | O => s
  | S n' => for_pure n' (S lo) body (body lo s)
  end.

(** The same loop for a body that may fail. *)
Fixpoint for_loop {St} (n lo : nat) (body : nat → St → result St) (s : St)
  : result St :=
  match n with
  | O => Ok s
  | S n' => s' ← body lo s; for_loop n' (S lo) body s'
  end.

(** ** Program representation *)

Record Instr := mkInstr {
  store : bool;
  mem : string;
  value : Z;
}.

Definition st (x : string) (v : Z) : Instr := mkInstr true x v.
Definition ld (x : string) : Instr := mkInstr false x 0.

(** ** Execution state: the global variables of the checker *)

Record State := mkState {
  po : list (list (list bool));      (* po[t][d][i]: d waits for i *)
  executed : list (list bool);
  memory : list (string * Z);        (* memvars[pos], memvalues[pos] *)
  loadvalues : list (list Z);
  solutions_ibm : gset string;
  solutions_tso : gset string;
}.

Definition with_po (s : State) (p : list (list (list bool))) : State :=
  mkState p (executed s) (memory s) (loadvalues s) (solutions_ibm s) (solutions_tso s).
Definition with_executed (s : State) (e : list (list bool)) : State :=
  mkState (po s) e (memory s) (loadvalues s) (solutions_ibm s) (solutions_tso s).
Definition with_memory (s : State) (m : list (string * Z)) : State :=
  mkState (po s) (executed s) m (loadvalues s) (solutions_ibm s) (solutions_tso s).
Definition with_loadvalues (s : State) (l : list (list Z)) : State :=
  mkState (po s) (executed s) (memory s) l (solutions_ibm s) (solutions_tso s).
Definition with_solutions_ibm (s : State) (x : gset string) : State :=
  mkState (po s) (executed s) (memory s) (loadvalues s) x (solutions_tso s).
Definition with_solutions_tso (s : State) (x : gset string) : State :=
  mkState (po s) (executed s) (memory s) (loadvalues s) (solutions_ibm s) x.

Definition get_po (s : State) (t d i : nat) : bool := get3 false (po s) t d i.
Definition set_po (s : State) (t d i : nat) (b : bool) : State :=
  with_po s (set3 (po s) t d i b).
Definition get_executed (s : State) (t i : nat) : bool := get2 false (executed s) t i.
Definition set_executed (s : State) (t i : nat) (b : bool) : State :=
  with_executed s (set2 (executed s) t i b).
Definition get_load (s : State) (t i : nat) : Z := get2 0%Z (loadvalues s) t i.

(** ** Memory variables *)

(** [insert_memvar]: append the variable with value 0 unless it is known. *)
Fixpoint insert_memvar_list (m : list (string * Z)) (var : string) : list (string * Z) :=
  match m with
  | [] => [(var, 0%Z)]
  | (x, v) :: m' =>
      if String.eqb x var then m else (x, v) :: insert_memvar_list m' var
  end.

Definition insert_memvar (s : State) (var : string) : State :=
  with_memory s (insert_memvar_list (memory s) var).

(** [get_memvar]: value at the first position holding [var]. *)
Fixpoint get_memvar_list (m : list (string * Z)) (var : string) : result Z :=
  match m with
  | [] => AssertFail
  | (x, v) :: m' => if String.eqb x var then Ok v else get_memvar_list m' var
  end.

Definition get_memvar (s : State) (var : string) : result Z :=
  get_memvar_list (memory s) var.

(** [update_memvar]: overwrite the first position holding [var] and return
    the value that was there. *)
Fixpoint update_memvar_list (m : list (string * Z)) (var : string) (val : Z)
  : result (Z * list (string * Z)) :=
  match m with
  | [] => AssertFail
  | (x, v) :: m' =>
      if String.eqb x var then Ok (v, (x, val) :: m')
      else '(old, m'') ← update_memvar_list m' var val; Ok (old, (x, v) :: m'')
  end.

Definition update_memvar (s : State) (var : string) (val : Z) : result (Z * State) :=
  '(old, m) ← update_memvar_list (memory s) var val; Ok (old, with_memory s m).

Definition update_load (s : State) (thread instr : nat) (val : Z) : Z * State :=
  (get_load s thread instr,
   with_loadvalues s (set2 (loadvalues s) thread instr val)).

(** ** Programs used as examples *)

(** The store-buffering test: thread 1 = [st x 1, ld y],
    thread 2 = [st y 1, ld x]. *)
Definition sb_program : list (list Instr) :=
  [[st "x" 1; ld "y"]; [st "y" 1; ld "x"]].

(** A load behind one store to its location. *)
Definition forward_program : list (list Instr) := [[st "x" 1; ld "x"]].

(** A load behind two stores to its location. *)
Definition two_stores_program : list (list Instr) :=
  [[st "x" 1; st "x" 2; ld "x"]].

(** One thread without instructions. *)
Definition empty_thread_program : list (list Instr) := [[]].

(** The outcome of [sb_program] in which both loads observe 0, as
    [print_mem] and [print_loads] render it. *)
Definition both_loads_zero : string := "[x]==1; [y]==1; y==0; x==0; ".

Section Checker.

(** The parsed program: [program[t][i]], with [num_threads] and
    [num_instrs[t]] the lengths of the lists. *)
Variable program : list (list Instr).

Definition num_threads : nat := length program.
Definition num_instrs (t : nat) : nat := length (default [] (program !! t)).
Definition instr_at (t i : nat) : Instr :=
  default (ld "") (default [] (program !! t) !! i).

(** The array bounds under which the program fits the global arrays. *)
Definition bounded_program : Prop :=
  num_threads ≤ MAX_THREADS ∧
  Forall (λ th, length th ≤ MAX_INSTRUCTIONS) program.

(** ** Program order *)

Definition add_po_ibm (s : State) (t i : nat) : State :=
  let s := for_pure (i + 1) 0 (λ d s, set_po s t d i false) s in
  for_pure (num_instrs t - (i + 1)) (i + 1) (λ d s,
    let s := set_po s t d i false in
    if store (instr_at t i) then
      if store (instr_at t d) then set_po s t d i true
      else if String.eqb (mem (instr_at t i)) (mem (instr_at t d)) then set_po s t d i true
      else s
    else set_po s t d i true) s.

Definition add_po_tso (s : State) (t i : nat) : State :=
  let s := for_pure (i + 1) 0 (λ d s, set_po s t d i false) s in
  for_pure (num_instrs t - (i + 1)) (i + 1) (λ d s,
    let s := set_po s t d i false in
    if store (instr_at t i) then
      if store (instr_at t d) then set_po s t d i true else s
    else set_po s t d i true) s.

Definition remove_po (s : State) (t i : nat) : State :=
  for_pure (num_instrs t - (i + 1)) (i + 1) (λ d s, set_po s t d i false) s.

Definition build_po_graph_ibm (s : State) : State :=
  for_pure num_threads 0 (λ t s,
    for_pure (num_instrs t) 0 (λ i s, add_po_ibm s t i) s) s.

Definition build_po_graph_tso (s : State) : State :=
  for_pure num_threads 0 (λ t s,
    for_pure (num_instrs t) 0 (λ i s, add_po_tso s t i) s) s.

(** The loop returns at the first dependency it meets. *)
Definition has_po_dependencies (s : State) (thread instr : nat) : bool :=
  existsb (λ d, get_po s thread instr d) (seq 0 (num_instrs thread)).

(** ** Executed markers *)

Definition reset_executed (s : State) : State :=
  for_pure num_threads 0 (λ t s,
    for_pure (num_instrs t) 0 (λ i s, set_executed s t i false) s) s.

Definition all_executed (s : State) : bool :=
  forallb (λ t, forallb (λ i, get_executed s t i) (seq 0 (num_instrs t)))
          (seq 0 num_threads).

(** ** Printing an outcome *)

Definition print_mem (s : State) : string :=
  foldr (λ '(x, v) out, "[" +:+ x +:+ "]==" +:+ pretty v +:+ "; " +:+ out) "" (memory s).

Definition print_loads (s : State) : string :=
  foldr (λ t out,
    foldr (λ i out,
      if store (instr_at t i) then out
      else mem (instr_at t i) +:+ "==" +:+ pretty (get_load s t i) +:+ "; " +:+ out)
      out (seq 0 (num_instrs t)))
    "" (seq 0 num_threads).

Definition outcome (s : State) : string := print_mem s +:+ print_loads s.

Definition add_possible_execution_ibm (s : State) : State :=
  with_solutions_ibm s ({[ outcome s ]} ∪ solutions_ibm s).

Definition add_possible_execution_tso (s : State) : State :=
  with_solutions_tso s ({[ outcome s ]} ∪ solutions_tso s).

(** ** The store-atomic search *)

(** Lines "execute instruction" and "remove dependencies". *)
Definition ibm_execute (s : State) (t i : nat) : result (Z * State) :=
  let s := set_executed s t i true in
  '(old_val, s) ←
    (if store (instr_at t i) then
       update_memvar s (mem (instr_at t i)) (value (instr_at t i))
     else
       v ← get_memvar s (mem (instr_at t i));
       Ok (update_load s t i v));
  Ok (old_val, remove_po s t i).

(** Lines "Check end or recursive". *)
Definition ibm_explore (rec : State → result State) (s : State) : result State :=
  if all_executed s then Ok (add_possible_execution_ibm s) else rec s.

(** Lines "reverse". *)
Definition ibm_reverse (s : State) (t i : nat) (old_val : Z) : result State :=
  let s := add_po_ibm s t i in
  s ← (if store (instr_at t i) then
         '(_, s) ← update_memvar s (mem (instr_at t i)) old_val; Ok s
       else Ok (snd (update_load s t i 0%Z)));
  Ok (set_executed s t i false).

(** The body of the two nested loops for the candidate [(t, i)]. *)
Definition ibm_step (rec : State → result State) (t i : nat) (s : State)
  : result State :=
  if negb (get_executed s t i) && negb (has_po_dependencies s t i) then
    '(old_val, s) ← ibm_execute s t i;
    s ← ibm_explore rec s;
    ibm_reverse s t i old_val
  else Ok s.

(** One activation of [get_possible_executions_ibm]; [rec] stands for the
    recursive call. *)
Definition ibm_body (rec : State → result State) (s : State) : result State :=
  for_loop num_threads 0 (λ t s,
    for_loop (num_instrs t) 0 (λ i s, ibm_step rec t i s) s) s.

(** [fuel] is the number of nested recursive calls still allowed. *)
Fixpoint get_possible_executions_ibm (fuel : nat) (s : State) : result State :=
  match fuel with
  | O => ibm_body (λ _, OutOfFuel) s
  | S fuel' => ibm_body (get_possible_executions_ibm fuel') s
  end.

(** ** Store forwarding *)

(** The three scans run [i = instr - 1] down to [0]; [k] is [i + 1]. *)
Fixpoint is_prevstore_scan (thread instr k : nat) : bool :=
  match k with
  | O => false
  | S i =>
      if store (instr_at thread i)
         && String.eqb (mem (instr_at thread i)) (mem (instr_at thread instr))
      then true
      else is_prevstore_scan thread instr i
  end.

Definition is_prevstore (thread instr : nat) : result bool :=
  if store (instr_at thread instr) then AssertFail
  else Ok (is_prevstore_scan thread instr instr).

Fixpoint is_prevstore_executed_scan (s : State) (thread instr k : nat) : bool :=
  match k with
  | O => false
  | S i =>
      if store (instr_at thread i)
         && String.eqb (mem (instr_at thread i)) (mem (instr_at thread instr))
      then
        if get_executed s thread i then true
        else is_prevstore_executed_scan s thread instr i
      else is_prevstore_executed_scan s thread instr i
  end.

Definition is_prevstore_executed (s : State) (thread instr : nat) : result bool :=
  if store (instr_at thread instr) then AssertFail
  else Ok (is_prevstore_executed_scan s thread instr instr).

Fixpoint get_prevstore_scan (thread instr k : nat) : result Z :=
  match k with
  | O => AssertFail
  | S i =>
      if store (instr_at thread i)
         && String.eqb (mem (instr_at thread i)) (mem (instr_at thread instr))
      then Ok (value (instr_at thread i))
      else get_prevstore_scan thread instr i
  end.

Definition get_prevstore (thread instr : nat) : result Z :=
  if store (instr_at thread instr) then AssertFail
  else get_prevstore_scan thread instr instr.

(** [is_prevstore(t, i) && !is_prevstore_executed(t, i)], evaluated left to
    right. *)
Definition forwarding (s : State) (t i : nat) : result bool :=
  b ← is_prevstore t i;
  if b : bool then e ← is_prevstore_executed s t i; Ok (negb e) else Ok false.

(** ** The relaxed search *)

(** Lines 288-302: mark, remove dependencies, apply the effect. *)
Definition tso_execute (s : State) (t i : nat) : result (Z * State) :=
  let s := set_executed s t i true in
  let s := remove_po s t i in
  old_val ← get_memvar s (mem (instr_at t i));
  s ← (if store (instr_at t i) then
         '(_, s) ← update_memvar s (mem (instr_at t i)) (value (instr_at t i)); Ok s
       else
         f ← forwarding s t i;
         if f : bool then
           v ← get_prevstore t i; Ok (snd (update_load s t i v))
         else
           v ← get_memvar s (mem (instr_at t i)); Ok (snd (update_load s t i v)));
  Ok (old_val, s).

Definition tso_explore (rec : State → result State) (s : State) : result State :=
  if all_executed s then Ok (add_possible_execution_tso s) else rec s.

(** Line 312: the value recorded for the load before the second recursion. *)
Definition tso_second_load (s : State) (t i : nat) : result State :=
  v ← get_prevstore t i; Ok (snd (update_load s t i v)).

(** Lines 311-319. *)
Definition tso_second (rec : State → result State) (s : State) (t i : nat)
  : result State :=
  f ← (if negb (store (instr_at t i)) then forwarding s t i else Ok false);
  if f : bool then
    s ← tso_second_load s t i;
    tso_explore rec s
  else Ok s.

(** Lines 321-328. *)
Definition tso_reverse (s : State) (t i : nat) (old_val : Z) : result State :=
  s ← (if store (instr_at t i) then
         '(_, s) ← update_memvar s (mem (instr_at t i)) old_val; Ok s
       else Ok (snd (update_load s t i 0%Z)));
  let s := add_po_tso s t i in
  Ok (set_executed s t i false).

Definition tso_step (rec : State → result State) (t i : nat) (s : State)
  : result State :=
  if negb (get_executed s t i) && negb (has_po_dependencies s t i) then
    '(old_val, s) ← tso_execute s t i;
    s ← tso_explore rec s;
    s ← tso_second rec s t i;
    tso_reverse s t i old_val
  else Ok s.

Definition tso_body (rec : State → result State) (s : State) : result State :=
  for_loop num_threads 0 (λ t s,
    for_loop (num_instrs t) 0 (λ i s, tso_step rec t i s) s) s.

Fixpoint get_possible_executions_tso (fuel : nat) (s : State) : result State :=
  match fuel with
  | O => tso_body (λ _, OutOfFuel) s
  | S fuel' => tso_body (get_possible_executions_tso fuel') s
  end.

(** ** The main program *)

(** The state when [main] starts: every global is zero-initialised. *)
Definition zero_state : State :=
  mkState (replicate MAX_THREADS (replicate MAX_INSTRUCTIONS (replicate MAX_INSTRUCTIONS false)))
          (replicate MAX_THREADS (replicate MAX_INSTRUCTIONS false))
          []
          (replicate MAX_THREADS (replicate MAX_INSTRUCTIONS 0%Z))
          ∅ ∅.

(** The reading loop calls [insert_memvar] for every instruction, thread by
    thread (the 0 it stores into [loadvalues] lands on a cell that is 0). *)
Definition load_program (s : State) : State :=
  foldl (λ s th, foldl (λ s ins, insert_memvar s (mem ins)) s th) s program.

Definition total_instrs : nat := length (concat program).

(** Lines 404-406: the state in which the store-atomic search is called. *)
Definition ibm_start (s : State) : State :=
  let s := reset_executed s in
  let s := with_solutions_ibm s ∅ in
  build_po_graph_ibm s.

Definition run_ibm (s : State) : result State :=
  get_possible_executions_ibm total_instrs (ibm_start s).

(** Lines 414-416: the state in which the relaxed search is called. *)
Definition tso_start (s : State) : State :=
  let s := reset_executed s in
  let s := with_solutions_tso s ∅ in
  build_po_graph_tso s.

Definition run_tso (s : State) : result State :=
  get_possible_executions_tso total_instrs (tso_start s).

(** A line of the second listing: the outcome, and a star when no element of
    [solutions_ibm] compares equal. *)
Definition report_line (s : State) (o : string) : string :=
  if bool_decide (o ∈ solutions_ibm s) then o else o +:+ "*".

(** The lines of the second listing (in the order of [elements], not in the
    sorted order in which [std::set] is traversed). *)
Definition report_tso (s : State) : list string :=
  report_line s <$> elements (solutions_tso s).

Definition main : result State :=
  let s := load_program zero_state in
  s ← run_ibm s;
  run_tso s.

(** ** Notions used to state the properties *)

(** [(t, i)] names an instruction of the program. *)
Definition valid (t i : nat) : Prop := t < num_threads ∧ i < num_instrs t.

(** The edge that [add_po_ibm(t, i)] writes into [po[t][d][i]]. *)
Definition edge_ibm (t d i : nat) : bool :=
  if store (instr_at t i) then
    store (instr_at t d) || String.eqb (mem (instr_at t i)) (mem (instr_at t d))
  else true.

Definition rule_ibm (t d i : nat) : bool := (i <? d) && edge_ibm t d i.

(** The edge that [add_po_tso(t, i)] writes into [po[t][d][i]]. *)
Definition edge_tso (t d i : nat) : bool :=
  if store (instr_at t i) then store (instr_at t d) else true.

Definition rule_tso (t d i : nat) : bool := (i <? d) && edge_tso t d i.

(** The candidates of the two nested loops, in loop order. *)
Definition candidates : list (nat * nat) :=
  t ← seq 0 num_threads; (λ i, (t, i)) <$> seq 0 (num_instrs t).

(** Number of instructions of the program not marked executed. *)
Definition unexecuted (s : State) : nat :=
  length (filter (λ c, get_executed s c.1 c.2 = false) candidates).

(** The arrays have their declared sizes. *)
Definition dims (s : State) : Prop :=
  dims3 (po s) ∧ dims2 (executed s) ∧ dims2 (loadvalues s).

(** Every location named by an instruction is among [memvars]. *)
Definition registered (s : State) : Prop :=
  ∀ t i, valid t i → mem (instr_at t i) ∈ (memory s).*1.

(** The dependency matrix holds the builder's column for every instruction
    that is not executed and an empty column for every executed one. *)
Definition po_inv (rule : nat → nat → nat → bool) (s : State) : Prop :=
  ∀ t d i, t < num_threads → d < num_instrs t → i < num_instrs t →
    get_po s t d i = negb (get_executed s t i) && rule t d i.

(** Instructions that are not executed have load result 0. *)
Definition load_inv (s : State) : Prop :=
  ∀ t i, valid t i → get_executed s t i = false → get_load s t i = 0%Z.

(** The states in which the searches are called. *)
Record search_inv (rule : nat → nat → nat → bool) (s : State) : Prop := {
  inv_dims : dims s;
  inv_registered : registered s;
  inv_po : po_inv rule s;
  inv_load : load_inv s;
}.

(** Memory, load results, executed markers and dependency matrix agree. *)
Definition same_frame (s s' : State) : Prop :=
  po s' = po s ∧ executed s' = executed s ∧
  memory s' = memory s ∧ loadvalues s' = loadvalues s.

(** [s] with the solution sets of [s2]. *)
Definition restore (s s2 : State) : State :=
  mkState (po s) (executed s) (memory s) (loadvalues s)
          (solutions_ibm s2) (solutions_tso s2).

(** A loop that stores [f d] in [po[t][d][i]] for [lo <= d < lo + n]. *)
Definition write_column (t i : nat) (f : nat → bool) (n lo : nat)
    (p : list (list (list bool))) : list (list (list bool)) :=
  for_pure n lo (λ d p, set3 p t d i (f d)) p.

(** What a column builder [add] does, for the edge rule [rule]: it rewrites
    column [i] of thread [t] and nothing else. *)
Definition writes_rule (rule : nat → nat → nat → bool)
    (add : State → nat → nat → State) : Prop :=
  ∀ s t i, valid t i → dims3 (po s) →
    add s t i = with_po s (po (add s t i)) ∧
    dims3 (po (add s t i)) ∧
    ∀ t' d' i',
      get_po (add s t i) t' d' i' =
        if decide (t' = t ∧ i' = i ∧ d' < num_instrs t) then rule t d' i
        else get_po s t' d' i'.

(** The states between the phases of [main]: arrays of the declared sizes,
    every location registered, every load result 0. *)
Definition clean (s : State) : Prop :=
  dims s ∧ registered s ∧ ∀ t i, valid t i → get_load s t i = 0%Z.

(** A state of the store-atomic search and a state of the relaxed search
    that stand at the same point of the same schedule. *)
Definition aligned (a b : State) : Prop :=
  search_inv rule_ibm a ∧ search_inv rule_tso b ∧
  (∀ t i, valid t i → get_executed a t i = get_executed b t i) ∧
  memory a = memory b ∧ loadvalues a = loadvalues b.

(** What a call of the store-atomic search leaves behind: the frame is
    unchanged and [solutions_ibm] has only grown. *)
Definition ibm_post (s s' : State) : Prop :=
  same_frame s s' ∧ solutions_ibm s ⊆ solutions_ibm s' ∧
  solutions_tso s' = solutions_tso s.

Definition tso_post (s s' : State) : Prop :=
  same_frame s s' ∧ solutions_tso s ⊆ solutions_tso s' ∧
  solutions_ibm s' = solutions_ibm s.

(** A loop over a list of candidates. *)
Fixpoint loop_list {A St} (body : A → St → result St) (l : list A) (s : St)
  : result St :=
  match l with
  | [] => Ok s
  | a :: l' => s' ← body a s; loop_list body l' s'
  end.

(** The outcome of a result: [Q] on a returned value, never a failed
    assertion, and [E] when the fuel ran out. *)
Definition wp {A} (E : Prop) (r : result A) (Q : A → Prop) : Prop :=
  match r with
  | Ok a => Q a
  | AssertFail => False
  | OutOfFuel => E
  end.

(** ** Executing one thread in program order

    This follows the words of the specification, not a function of the
    checker: the instructions of thread [t] run one after the other, a store
    writes memory and a load records the value memory holds. *)
Definition in_order_step (t i : nat) (s : State) : result State :=
  if store (instr_at t i) then
    '(_, s) ← update_memvar s (mem (instr_at t i)) (value (instr_at t i)); Ok s
  else
    v ← get_memvar s (mem (instr_at t i)); Ok (update_load s t i v).2.

Definition in_order (t : nat) (s : State) : result State :=
  for_loop (num_instrs t) 0 (in_order_step t) s.

(** The value of the most recent store to [x] among the first [k]
    instructions of thread [t]. *)
Fixpoint last_store (t : nat) (x : string) (k : nat) : option Z :=
  match k with
  | O => None
  | S i =>
      if store (instr_at t i) && String.eqb (mem (instr_at t i)) x
      then Some (value (instr_at t i))
      else last_store t x i
  end.

(** The same among the instructions that are executed. *)
Fixpoint last_executed_store (s : State) (t : nat) (x : string) (k : nat)
  : option Z :=
  match k with
  | O => None
  | S i =>
      if store (instr_at t i) && String.eqb (mem (instr_at t i)) x
         && get_executed s t i
      then Some (value (instr_at t i))
      else last_executed_store s t x i
  end.

(** The states of a search of a one-thread program: memory holds the last
    executed store of each location, an executed load holds the most recent
    store before it, and an executed instruction has all the instructions it
    depends on (by the edge rule [rule]) executed. *)
Record coherent (rule : nat → nat → nat → bool) (s : State) : Prop := {
  coh_names : (memory s).*1 = (memory (load_program zero_state)).*1;
  coh_mem : ∀ x, x ∈ (memory s).*1 →
    get_memvar s x =
      Ok (default 0%Z (last_executed_store s 0 x (num_instrs 0)));
  coh_load : ∀ i, i < num_instrs 0 → store (instr_at 0 i) = false →
    get_executed s 0 i = true →
    get_load s 0 i = default 0%Z (last_store 0 (mem (instr_at 0 i)) i);
  coh_closed : ∀ d i, d < num_instrs 0 → i < num_instrs 0 →
    get_executed s 0 d = true → rule 0 d i = true →
    get_executed s 0 i = true;
}.

(** What a call of the store-atomic search leaves behind on a one-thread
    program: the frame is unchanged and the outcome [o] has been recorded. *)
Definition single_post (o : string) (s s' : State) : Prop :=
  same_frame s s' ∧ solutions_ibm s' = {[ o ]} ∪ solutions_ibm s.

Definition single_post_tso (o : string) (s s' : State) : Prop :=
  same_frame s s' ∧ solutions_tso s' = {[ o ]} ∪ solutions_tso s.

(** No load of thread [t] has two stores to its location before it. *)
Definition one_store_before_loads (t : nat) : Prop :=
  ∀ i j1 j2, i < num_instrs t → store (instr_at t i) = false →
    j1 < j2 → j2 < i →
    store (instr_at t j1) = true → mem (instr_at t j1) = mem (instr_at t i) →
    store (instr_at t j2) = true → mem (instr_at t j2) = mem (instr_at t i) →
    False.

(** A call keeps the registered locations: it returns with the same
    [memvars], and no lookup fails on the way. *)
Definition keeps_names (s : State) (r : result State) : Prop :=
  wp True r (λ s', (memory s').*1 = (memory s).*1).

(** ** Complete runs of a search

    A run executes, one after the other, an instruction that is not executed
    and waits for nothing, until every instruction is executed; the outcome
    is rendered from the state reached at the end.  Nothing is undone. *)
Inductive ibm_schedule : State → string → Prop :=
  | ibm_schedule_last s t i old s1 :
      valid t i → get_executed s t i = false →
      has_po_dependencies s t i = false →
      ibm_execute s t i = Ok (old, s1) →
      all_executed s1 = true →
      ibm_schedule s (outcome s1)
  | ibm_schedule_next s t i old s1 o :
      valid t i → get_executed s t i = false →
      has_po_dependencies s t i = false →
      ibm_execute s t i = Ok (old, s1) →
      all_executed s1 = false →
      ibm_schedule s1 o →
      ibm_schedule s o.

Inductive tso_schedule : State → string → Prop :=
  | tso_schedule_last s t i old s1 :
      valid t i → get_executed s t i = false →
      has_po_dependencies s t i = false →
      tso_execute s t i = Ok (old, s1) →
      all_executed s1 = true →
      tso_schedule s (outcome s1)
  | tso_schedule_next s t i old s1 o :
      valid t i → get_executed s t i = false →
      has_po_dependencies s t i = false →
      tso_execute s t i = Ok (old, s1) →
      all_executed s1 = false →
      tso_schedule s1 o →
      tso_schedule s o.

(** The runs that continue from the state [s1] reached by a step. *)
Definition ibm_rest (s1 : State) (o : string) : Prop :=
  if all_executed s1 then o = outcome s1 else ibm_schedule s1 o.

Definition tso_rest (s1 : State) (o : string) : Prop :=
  if all_executed s1 then o = outcome s1 else tso_schedule s1 o.

(** The runs of [s] that begin with the instruction [(t, i)]. *)
Definition ibm_schedule_from (s : State) (t i : nat) (o : string) : Prop :=
  get_executed s t i = false ∧ has_po_dependencies s t i = false ∧
  ∃ old s1, ibm_execute s t i = Ok (old, s1) ∧ ibm_rest s1 o.

Definition tso_schedule_from (s : State) (t i : nat) (o : string) : Prop :=
  get_executed s t i = false ∧ has_po_dependencies s t i = false ∧
  ∃ old s1, tso_execute s t i = Ok (old, s1) ∧ tso_rest s1 o.

(** What a call of a search leaves behind, exactly: the frame is unchanged
    and the solution set has gained the outcomes of the complete runs. *)
Definition ibm_exact (s s' : State) : Prop :=
  ibm_post s s' ∧
  ∀ o, o ∈ solutions_ibm s' ↔ o ∈ solutions_ibm s ∨ ibm_schedule s o.

Definition tso_exact (s s' : State) : Prop :=
  tso_post s s' ∧
  ∀ o, o ∈ solutions_tso s' ↔ o ∈ solutions_tso s ∨ tso_schedule s o.

(** Two states agree on every cell that no instruction of the program
    owns, and on memory and load results. *)
Definition agree_outside (a b : State) : Prop :=
  memory a = memory b ∧ loadvalues a = loadvalues b ∧
  (∀ t i, ¬ valid t i → get_executed a t i = get_executed b t i) ∧
  (∀ t d i, ¬ (t < num_threads ∧ i < num_instrs t ∧ d < num_instrs t) →
            get_po a t d i = get_po b t d i).

(** No load of the program follows a store of its thread to its location. *)
Definition no_store_before_load : Prop :=
  ∀ t i j, valid t i → j < i →
    store (instr_at t i) = false → store (instr_at t j) = true →
    mem (instr_at t j) ≠ mem (instr_at t i).

(** ** Values

    [v] is the value of a store of the program to the location [x]. *)
Definition stored_value (x : string) (v : Z) : Prop :=
  ∃ t j, valid t j ∧ store (instr_at t j) = true ∧
         mem (instr_at t j) = x ∧ value (instr_at t j) = v.

(** Memory and the load results hold 0 or values that the program stores
    to the location in question. *)
Definition values_ok (s : State) : Prop :=
  (∀ x v, get_memvar s x = Ok v → v = 0%Z ∨ stored_value x v) ∧
  (∀ t i, valid t i → store (instr_at t i) = false →
     get_load s t i = 0%Z ∨
     stored_value (mem (instr_at t i)) (get_load s t i)).

(** [(t, j)] is the last store of thread [t] to the location [x]. *)
Definition last_store_to (x : string) (t j : nat) : Prop :=
  valid t j ∧ store (instr_at t j) = true ∧ mem (instr_at t j) = x ∧
  ∀ j', j < j' → j' < num_instrs t → store (instr_at t j') = true →
        mem (instr_at t j') ≠ x.

(** The stores of each thread are executed in program order, and memory
    holds for each location the value of an executed store behind which no
    store of its thread to the location is executed (0 when no store to the
    location is executed). *)
Definition stores_in_order (s : State) : Prop :=
  (∀ t d i, valid t d → i < d →
     store (instr_at t d) = true → store (instr_at t i) = true →
     get_executed s t d = true → get_executed s t i = true) ∧
  ∀ x v, get_memvar s x = Ok v →
    (v = 0%Z ∧
     ∀ t j, valid t j → store (instr_at t j) = true →
            mem (instr_at t j) = x → get_executed s t j = false) ∨
    (∃ t j, valid t j ∧ store (instr_at t j) = true ∧
            mem (instr_at t j) = x ∧ get_executed s t j = true ∧
            v = value (instr_at t j) ∧
            ∀ j', j < j' → j' < num_instrs t →
                  store (instr_at t j') = true → mem (instr_at t j') = x →
                  get_executed s t j' = false).

(** ** Reading the program text

    What the reading loop of [main] extracts from one line: the first word
    and, for a store or a load, the words that follow it. *)
Inductive Line : Type :=
  | Separator                         (* --- *)
  | StoreLine (x : string) (v : Z)    (* st x v *)
  | LoadLine (x : string)             (* ld x *)
  | BlankLine
  | OtherLine (op : string).

(** How the reading loop ends: it reaches the end of the input, an
    assertion fails, or it writes past the end of [program[num_thread]],
    where C++ defines no behaviour. *)
Inductive loaded (A : Type) : Type :=
  | Loaded (a : A)
  | Rejected
  | OutOfArray.
#[global] Arguments Loaded {A} a.
#[global] Arguments Rejected {A}.
#[global] Arguments OutOfArray {A}.

(** The variables of the loop: the threads closed by a separator
    ([num_thread] of them), the instructions read since
    ([program[num_thread][0 .. num_instr - 1]]) and the globals. *)
Record Reader := mkReader {
  closed : list (list Instr);
  current : list Instr;
  globals : State;
}.

Definition read_line (r : Reader) (l : Line) : loaded Reader :=
  match l with
  | Separator =>
      let threads := closed r ++ [current r] in
      if decide (length threads < MAX_THREADS)
      then Loaded (mkReader threads [] (globals r))
      else Rejected
  | StoreLine x v =>
      if decide (length (current r) < MAX_INSTRUCTIONS) then
        Loaded (mkReader (closed r) (current r ++ [st x v])
                         (insert_memvar (globals r) x))
      else OutOfArray
  | LoadLine x =>
      if decide (length (current r) < MAX_INSTRUCTIONS) then
        let thread := current r ++ [ld x] in
        if decide (length thread < MAX_INSTRUCTIONS) then
          let s := insert_memvar (globals r) x in
          Loaded (mkReader (closed r) thread
                    (with_loadvalues s
                       (set2 (loadvalues s) (length (closed r)) (length thread) 0%Z)))
        else Rejected
      else OutOfArray
  | BlankLine => Loaded r
  | OtherLine _ => Rejected
  end.

Fixpoint read_lines (r : Reader) (ls : list Line) : loaded Reader :=
  match ls with
  | [] => Loaded r
  | l :: ls' =>
      match read_line r l with
      | Loaded r' => read_lines r' ls'
      | Rejected => Rejected
      | OutOfArray => OutOfArray
      end
  end.

(** The loop from its first line on; [num_threads = num_thread] keeps the
    closed threads only. *)
Definition read_program (ls : list Line)
  : loaded (list (list Instr) * State) :=
  match read_lines (mkReader [] [] zero_state) ls with
  | Loaded r => Loaded (closed r, globals r)
  | Rejected => Rejected
  | OutOfArray => OutOfArray
  end.

(** The text of the store-buffering test. *)
Definition sb_text : list Line :=
  [StoreLine "x" 1; LoadLine "y"; Separator;
   StoreLine "y" 1; LoadLine "x"; Separator; BlankLine].

#[export] Instance Line_eq_dec : EqDecision Line.
Proof. solve_decision. Defined.

(** Number of separator lines of a text. *)
Definition separators (ls : list Line) : nat :=
  length (filter (λ l, l = Separator) ls).

(** The instruction a line stands for. *)
Definition line_instrs (l : Line) : list Instr :=
  match l with
  | StoreLine x v => [st x v]
  | LoadLine x => [ld x]
  | _ => []
  end.

(** The calls of [insert_memvar] for a sequence of instructions. *)
Definition register_all (l : list Instr) (s : State) : State :=
  foldl (λ s ins, insert_memvar s (mem ins)) s l.

(** A thread that the reading loop accepts: it fits its row of [program],
    and no load sits in the last slot. *)
Definition fits_thread (th : list Instr) : Prop :=
  length th ≤ MAX_INSTRUCTIONS ∧
  ∀ i ins, th !! i = Some ins → store ins = false → S i < MAX_INSTRUCTIONS.

(** What holds of the variables of the reading loop after every line. *)
Definition reader_ok (r : Reader) : Prop :=
  length (closed r) < MAX_THREADS ∧
  Forall fits_thread (closed r) ∧ fits_thread (current r) ∧
  globals r = register_all (concat (closed r) ++ current r) zero_state.

(** ** Rendering

    The pieces of an outcome: a label and the number printed after it. *)
Definition render (l : list (string * Z)) (out : string) : string :=
  foldr (λ '(p, v) out, p +:+ pretty v +:+ "; " +:+ out) out l.

Definition mem_pieces (s : State) : list (string * Z) :=
  (λ '(x, v), ("[" +:+ x +:+ "]==", v)) <$> memory s.

Definition load_pieces (s : State) : list (string * Z) :=
  (λ c, (mem (instr_at c.1 c.2) +:+ "==", get_load s c.1 c.2)) <$>
    filter (λ c, store (instr_at c.1 c.2) = false) candidates.

(** No character of [s] is a semicolon. *)
Fixpoint no_semicolon (s : string) : bool :=
  match s with
  | EmptyString => true
  | String c s' => negb (String.eqb (String c EmptyString) ";") && no_semicolon s'
  end.

(** * Properties *)

(** ** Arrays *)

Lemma rect_lookup {A} n m (a : list (list A)) t i :
  rect n m a → t < n → i < m → ∃ row, a !! t = Some row ∧ i < length row.
Proof.
  intros [Hlen Hrows] Ht Hi.
  destruct (lookup_lt_is_Some_2 a t) as [row Hrow]; [lia|].
  exists row. split; [done|]. by rewrite (Hrows _ _ Hrow).
Qed.

Lemma get2_set2_ne {A} (dflt : A) a t i v t' i' :
  (t, i) ≠ (t', i') → get2 dflt (set2 a t i v) t' i' = get2 dflt a t' i'.
Proof.
  intros Hne. unfold get2, set2.
  destruct (decide (t = t')) as [->|Htt].
  - rewrite list_lookup_alter_eq. destruct (a !! t') as [row|]; simpl; [|done].
    rewrite list_lookup_insert_ne; [done|congruence].
  - by rewrite list_lookup_alter_ne.
Qed.

Lemma get2_set2_eq {A} (dflt : A) n m a t i v :
  rect n m a → t < n → i < m → get2 dflt (set2 a t i v) t i = v.
Proof.
  intros Hd Ht Hi. destruct (rect_lookup n m a t i) as (row & Hrow & Hlt); [done..|].
  unfold get2, set2. rewrite list_lookup_alter_eq, Hrow. simpl.
  by rewrite list_lookup_insert_eq.
Qed.

Lemma rect_set2 {A} n m (a : list (list A)) t i v :
  rect n m a → rect n m (set2 a t i v).
Proof.
  intros [Hlen Hrows]. unfold set2. split; [by rewrite length_alter|].
  intros t' row. destruct (decide (t = t')) as [->|Hne].
  - rewrite list_lookup_alter_eq. destruct (a !! t') as [r|] eqn:Hr; simpl; [|done].
    intros [= <-]. rewrite length_insert. eauto.
  - rewrite list_lookup_alter_ne by done. eauto.
Qed.

Lemma set2_set2 {A} (a : list (list A)) t i v w :
  set2 (set2 a t i v) t i w = set2 a t i w.
Proof.
  unfold set2. rewrite list_alter_alter_eq. apply list_alter_ext; [|done].
  intros row _. simpl. apply list_insert_insert_eq.
Qed.

Lemma set2_get2 {A} (dflt : A) a t i : set2 a t i (get2 dflt a t i) = a.
Proof.
  unfold set2, get2. apply list_eq. intros t'.
  destruct (decide (t = t')) as [->|Hne]; [|by rewrite list_lookup_alter_ne].
  rewrite list_lookup_alter_eq. destruct (a !! t') as [row|]; simpl; [|done].
  f_equal. apply list_insert_id'. intros Hi.
  destruct (lookup_lt_is_Some_2 row i Hi) as [x Hx]. by rewrite Hx.
Qed.

Lemma ext2 {A} (dflt : A) n m (a b : list (list A)) :
  rect n m a → rect n m b →
  (∀ t i, t < n → i < m → get2 dflt a t i = get2 dflt b t i) →
  a = b.
Proof.
  intros [Hla Hra] [Hlb Hrb] Hext. apply list_eq_same_length with n; [done..|].
  intros t ra rb Ht Ha Hb. apply list_eq_same_length with m; eauto.
  intros i x y Hi Hx Hy. specialize (Hext t i Ht Hi).
  unfold get2 in Hext. rewrite Ha, Hb in Hext. simpl in Hext.
  rewrite Hx, Hy in Hext. done.
Qed.

Lemma get3_set3_ne {A} (dflt : A) a t d i v t' d' i' :
  (t, d, i) ≠ (t', d', i') →
  get3 dflt (set3 a t d i v) t' d' i' = get3 dflt a t' d' i'.
Proof.
  intros Hne. unfold get3, set3.
  destruct (decide (t = t')) as [->|Htt].
  - rewrite list_lookup_alter_eq. destruct (a !! t') as [plane|]; simpl; [|done].
    apply get2_set2_ne. congruence.
  - by rewrite list_lookup_alter_ne.
Qed.

Lemma get3_set3_eq {A} (dflt : A) a t d i v :
  dims3 a → t < MAX_THREADS → d < MAX_INSTRUCTIONS → i < MAX_INSTRUCTIONS →
  get3 dflt (set3 a t d i v) t d i = v.
Proof.
  intros [Hlen Hpl] Ht Hd Hi.
  destruct (lookup_lt_is_Some_2 a t) as [plane Hplane]; [lia|].
  unfold get3, set3. rewrite list_lookup_alter_eq, Hplane. simpl.
  eapply get2_set2_eq; eauto.
Qed.

Lemma dims3_set3 {A} (a : list (list (list A))) t d i v :
  dims3 a → dims3 (set3 a t d i v).
Proof.
  intros [Hlen Hpl]. unfold set3. split; [by rewrite length_alter|].
  intros t' plane. destruct (decide (t = t')) as [->|Hne].
  - rewrite list_lookup_alter_eq. destruct (a !! t') as [r|] eqn:Hr; simpl; [|done].
    intros [= <-]. apply rect_set2. eauto.
  - rewrite list_lookup_alter_ne by done. eauto.
Qed.

Lemma ext3 {A} (dflt : A) (a b : list (list (list A))) :
  dims3 a → dims3 b →
  (∀ t d i, t < MAX_THREADS → d < MAX_INSTRUCTIONS → i < MAX_INSTRUCTIONS →
     get3 dflt a t d i = get3 dflt b t d i) →
  a = b.
Proof.
  intros [Hla Hpa] [Hlb Hpb] Hext.
  apply list_eq_same_length with MAX_THREADS; [done..|].
  intros t pa pb Ht Ha Hb.
  apply (ext2 dflt MAX_INSTRUCTIONS MAX_INSTRUCTIONS); eauto.
  intros d i Hd Hi. specialize (Hext t d i Ht Hd Hi).
  unfold get3 in Hext. by rewrite Ha, Hb in Hext.
Qed.

Ltac decide_cases :=
  repeat case_decide; destruct_or?; destruct_and?; subst; (done || lia).

(** ** Loops and results *)

Lemma for_pure_ind {St} (P : nat → St → Prop) n lo (body : nat → St → St) s :
  P lo s →
  (∀ k x, lo ≤ k < lo + n → P k x → P (S k) (body k x)) →
  P (lo + n) (for_pure n lo body s).
Proof.
  revert lo s. induction n as [|n IH]; intros lo s H0 Hstep; simpl.
  - by rewrite Nat.add_0_r.
  - replace (lo + S n) with (S lo + n) by lia. apply IH.
    + apply Hstep; [lia|done].
    + intros k x Hk. apply Hstep. lia.
Qed.

Lemma wp_bind {A B} E (m : result A) (f : A → result B) Q :
  wp E m (λ a, wp E (f a) Q) → wp E (m ≫= f) Q.
Proof. by destruct m. Qed.

Lemma wp_mono {A} E (r : result A) (Q Q' : A → Prop) :
  wp E r Q → (∀ a, Q a → Q' a) → wp E r Q'.
Proof. destruct r; simpl; auto. Qed.

Lemma wp_ok {A} E (r : result A) Q a : r = Ok a → Q a → wp E r Q.
Proof. by intros ->. Qed.

Lemma wp_total {A} (r : result A) Q : wp False r Q ↔ ∃ a, r = Ok a ∧ Q a.
Proof.
  destruct r as [a| |]; simpl; split.
  - eauto.
  - by intros (a' & [= <-] & ?).
  - done.
  - by intros (a' & [=] & _).
  - done.
  - by intros (a' & [=] & _).
Qed.

Lemma bind_ok {A B} (m : result A) (f : A → result B) b :
  m ≫= f = Ok b → ∃ a, m = Ok a ∧ f a = Ok b.
Proof. destruct m as [a| |]; simpl; [eauto|done..]. Qed.

Lemma wp_inv_ok {A} E (r : result A) Q a : wp E r Q → r = Ok a → Q a.
Proof. by intros Hw ->. Qed.

Lemma ok_check {A} (r : result A) (P : A → Prop) (b : A → bool) :
  (∀ a, b a = true → P a) →
  match r with Ok a => b a | _ => false end = true →
  ∃ a, r = Ok a ∧ P a.
Proof. intros Hb Hr. destruct r as [a| |]; [eauto|done..]. Qed.

Lemma for_loop_wp {St} E (P : nat → St → Prop) n lo
    (body : nat → St → result St) s :
  P lo s →
  (∀ k x, lo ≤ k < lo + n → P k x → wp E (body k x) (P (S k))) →
  wp E (for_loop n lo body s) (P (lo + n)).
Proof.
  revert lo s. induction n as [|n IH]; intros lo s H0 Hstep; simpl.
  - by rewrite Nat.add_0_r.
  - apply wp_bind. eapply wp_mono; [apply Hstep; [lia|done]|].
    intros s' Hs'. replace (lo + S n) with (S lo + n) by lia.
    apply IH; [done|]. intros k x Hk. apply Hstep. lia.
Qed.

(** ** The program as an array *)

Lemma num_instrs_bounded t : bounded_program → num_instrs t ≤ MAX_INSTRUCTIONS.
Proof.
  intros [_ Hin]. unfold num_instrs.
  destruct (program !! t) as [th|] eqn:Hth; simpl; [|unfold MAX_INSTRUCTIONS; lia].
  rewrite Forall_forall in Hin. apply Hin. by eapply list_elem_of_lookup_2.
Qed.

Lemma valid_bounds t i :
  bounded_program → valid t i → t < MAX_THREADS ∧ i < MAX_INSTRUCTIONS.
Proof.
  intros Hb [Ht Hi]. pose proof (num_instrs_bounded t Hb). destruct Hb. lia.
Qed.

Lemma elem_of_candidates t i : (t, i) ∈ candidates ↔ valid t i.
Proof.
  unfold candidates, valid. rewrite list_elem_of_bind. split.
  - intros (t' & Hin & Ht'). apply list_elem_of_fmap in Hin as (i' & [= -> ->] & Hi').
    apply elem_of_seq in Ht', Hi'. lia.
  - intros [Ht Hi]. exists t. split.
    + apply list_elem_of_fmap. exists i. split; [done|]. apply elem_of_seq. lia.
    + apply elem_of_seq. lia.
Qed.

(** ** Writing a column of the dependency matrix *)

Lemma set3_set3 {A} (a : list (list (list A))) t d i v w :
  set3 (set3 a t d i v) t d i w = set3 a t d i w.
Proof.
  unfold set3. rewrite list_alter_alter_eq. apply list_alter_ext; [|done].
  intros plane _. simpl. apply set2_set2.
Qed.

Lemma set_po_set_po s t d i v w :
  set_po (set_po s t d i v) t d i w = set_po s t d i w.
Proof. unfold set_po, with_po. simpl. by rewrite set3_set3. Qed.

Lemma column_loop t i f n lo body s :
  (∀ d x, body d x = set_po x t d i (f d)) →
  for_pure n lo body s = with_po s (write_column t i f n lo (po s)).
Proof.
  intros Hbody. unfold write_column. revert lo s.
  induction n as [|n IH]; intros lo s; simpl; [by destruct s|].
  rewrite Hbody, IH. done.
Qed.

Lemma write_column_dims t i f n lo p :
  dims3 p → dims3 (write_column t i f n lo p).
Proof.
  unfold write_column. revert lo p. induction n as [|n IH]; intros lo p Hp; simpl; [done|].
  apply IH. by apply dims3_set3.
Qed.

Lemma write_column_get t i f n lo p t' d' i' :
  dims3 p → t < MAX_THREADS → i < MAX_INSTRUCTIONS → lo + n ≤ MAX_INSTRUCTIONS →
  get3 false (write_column t i f n lo p) t' d' i' =
    if decide (t' = t ∧ i' = i ∧ lo ≤ d' < lo + n) then f d'
    else get3 false p t' d' i'.
Proof.
  intros Hp Ht Hi. unfold write_column. revert lo p Hp.
  induction n as [|n IH]; intros lo p Hp Hn; simpl.
  - case_decide; [lia|done].
  - rewrite IH; [|by apply dims3_set3|lia].
    destruct (decide (t' = t ∧ i' = i ∧ d' = lo)) as [(-> & -> & ->)|Hne].
    + rewrite get3_set3_eq by (done || lia).
      repeat case_decide; (done || lia).
    + rewrite get3_set3_ne by (intros [= -> -> ->]; apply Hne; done).
      repeat case_decide; (done || lia).
Qed.

(** ** Memory variables *)

Lemma get_memvar_list_registered m x :
  x ∈ m.*1 → ∃ v, get_memvar_list m x = Ok v.
Proof.
  induction m as [|[y w] m IH]; simpl; [by intros ?%elem_of_nil|].
  intros Hin. destruct (String.eqb_spec y x) as [->|Hne]; [eauto|].
  apply IH. apply elem_of_cons in Hin as [?|?]; [congruence|done].
Qed.

Lemma update_memvar_list_registered m x v :
  x ∈ m.*1 →
  ∃ old m', update_memvar_list m x v = Ok (old, m') ∧ m'.*1 = m.*1 ∧
    get_memvar_list m x = Ok old ∧ get_memvar_list m' x = Ok v ∧
    update_memvar_list m' x old = Ok (v, m).
Proof.
  induction m as [|[y w] m IH]; simpl; [by intros ?%elem_of_nil|].
  intros Hin. destruct (String.eqb_spec y x) as [->|Hne].
  - exists w, ((x, v) :: m). simpl. rewrite String.eqb_refl. done.
  - destruct IH as (old & m' & Hu & Hn & Hg & Hg' & Hback).
    { apply elem_of_cons in Hin as [?|?]; [congruence|done]. }
    exists old, ((y, w) :: m'). rewrite Hu. simpl.
    destruct (String.eqb_spec y x) as [?|_]; [done|].
    rewrite Hback. simpl. split_and!; try done.
    f_equal. exact Hn.
Qed.

Lemma update_memvar_list_other m x v old m' y :
  update_memvar_list m x v = Ok (old, m') → y ≠ x →
  get_memvar_list m' y = get_memvar_list m y.
Proof.
  revert old m'. induction m as [|[z w] m IH]; intros old m'; simpl; [done|].
  destruct (String.eqb_spec z x) as [->|Hne].
  - intros [= <- <-] Hy. simpl. destruct (String.eqb_spec x y); [congruence|done].
  - destruct (update_memvar_list m x v) as [[o m'']| |] eqn:Hu; simpl; [|done..].
    intros [= <- <-] Hy. simpl. destruct (String.eqb_spec z y); [done|]. eauto.
Qed.

(** ** States *)

Lemma state_eq s s' :
  po s = po s' → executed s = executed s' → memory s = memory s' →
  loadvalues s = loadvalues s' → solutions_ibm s = solutions_ibm s' →
  solutions_tso s = solutions_tso s' → s = s'.
Proof. destruct s, s'. simpl. congruence. Qed.

Lemma same_frame_restore s s' : same_frame s s' ↔ s' = restore s s'.
Proof.
  unfold same_frame, restore. split.
  - intros (? & ? & ? & ?). by apply state_eq.
  - intros ->. done.
Qed.

Lemma same_frame_refl s : same_frame s s.
Proof. done. Qed.

Lemma same_frame_trans s1 s2 s3 :
  same_frame s1 s2 → same_frame s2 s3 → same_frame s1 s3.
Proof. unfold same_frame. intros (? & ? & ? & ?) (? & ? & ? & ?). split_and!; congruence. Qed.

Lemma search_inv_frame rule s s' :
  same_frame s s' → search_inv rule s → search_inv rule s'.
Proof.
  intros (Hp & He & Hm & Hl) [Hd Hr Hpo Hld]. split.
  - unfold dims. by rewrite Hp, He, Hl.
  - unfold registered. by rewrite Hm.
  - unfold po_inv, get_po, get_executed. by rewrite Hp, He.
  - unfold load_inv, get_load, get_executed. by rewrite He, Hl.
Qed.

Lemma unexecuted_frame s s' : executed s' = executed s → unexecuted s' = unexecuted s.
Proof. intros He. unfold unexecuted, get_executed. by rewrite He. Qed.

Lemma filter_length_lt {A} (P Q : A → Prop)
    `{!∀ x, Decision (P x)} `{!∀ x, Decision (Q x)} (l : list A) x :
  x ∈ l → P x → ¬ Q x → (∀ y, y ∈ l → Q y → P y) →
  length (filter Q l) < length (filter P l).
Proof.
  intros Hin HP HQ Himp.
  assert (∀ l', (∀ y, y ∈ l' → Q y → P y) →
                length (filter Q l') ≤ length (filter P l')) as Hle.
  { induction l' as [|y l' IH]; intros Hi; [done|].
    rewrite !filter_cons. specialize (IH (λ z Hz, Hi z (list_elem_of_further _ _ _ Hz))).
    destruct (decide (Q y)) as [Hq|]; destruct (decide (P y)) as [|Hp]; simpl; try lia.
    destruct Hp. apply Hi; [apply list_elem_of_here|done]. }
  induction l as [|y l IH]; [by apply elem_of_nil in Hin|].
  rewrite !filter_cons. apply elem_of_cons in Hin as [<-|Hin].
  - destruct (decide (Q x)); [done|]. destruct (decide (P x)); [|done]. simpl.
    specialize (Hle l (λ z Hz, Himp z (list_elem_of_further _ _ _ Hz))). lia.
  - specialize (IH Hin (λ z Hz, Himp z (list_elem_of_further _ _ _ Hz))).
    destruct (decide (Q y)) as [Hq|]; destruct (decide (P y)) as [|Hp]; simpl; try lia.
    destruct Hp. apply Himp; [apply list_elem_of_here|done].
Qed.

Lemma unexecuted_decreases s s' t i :
  valid t i → get_executed s t i = false → get_executed s' t i = true →
  (∀ t' i', (t, i) ≠ (t', i') → get_executed s' t' i' = get_executed s t' i') →
  unexecuted s' < unexecuted s.
Proof.
  intros Hv Hf Ht Hother. unfold unexecuted.
  apply (filter_length_lt _ _ _ (t, i)); simpl.
  - by apply elem_of_candidates.
  - done.
  - by rewrite Ht.
  - intros [t' i'] _. simpl. destruct (decide ((t, i) = (t', i'))) as [[= <- <-]|Hne].
    + by rewrite Ht.
    + by rewrite Hother.
Qed.

(** ** The two nested loops as one loop over the candidates *)

Lemma loop_list_app {A St} (body : A → St → result St) l1 l2 s :
  loop_list body (l1 ++ l2) s = s' ← loop_list body l1 s; loop_list body l2 s'.
Proof.
  revert s. induction l1 as [|a l1 IH]; intros s; simpl; [done|].
  destruct (body a s); simpl; [apply IH|done..].
Qed.

Lemma for_loop_seq {St} (body : nat → St → result St) n lo s :
  for_loop n lo body s = loop_list body (seq lo n) s.
Proof.
  revert lo s. induction n as [|n IH]; intros lo s; simpl; [done|].
  destruct (body lo s); simpl; [apply IH|done..].
Qed.

Lemma loop_list_fmap {A B St} (g : A → B) (body : B → St → result St) l s :
  loop_list body (g <$> l) s = loop_list (λ a, body (g a)) l s.
Proof.
  revert s. induction l as [|a l IH]; intros s; simpl; [done|].
  destruct (body (g a) s); simpl; [apply IH|done..].
Qed.

Lemma loop_list_bind {A B St} (g : A → list B) (body : B → St → result St) l s :
  loop_list body (l ≫= g) s = loop_list (λ a s, loop_list body (g a) s) l s.
Proof.
  revert s. induction l as [|a l IH]; intros s; simpl; [done|].
  rewrite loop_list_app. destruct (loop_list body (g a) s); simpl; [apply IH|done..].
Qed.

Lemma loop_list_ext {A St} (f g : A → St → result St) l s :
  (∀ a x, f a x = g a x) → loop_list f l s = loop_list g l s.
Proof.
  intros Hfg. revert s. induction l as [|a l IH]; intros s; simpl; [done|].
  rewrite Hfg. destruct (g a s); simpl; [apply IH|done..].
Qed.

Lemma nested_loops (step : nat → nat → State → result State) s :
  for_loop num_threads 0 (λ t s, for_loop (num_instrs t) 0 (λ i s, step t i s) s) s
  = loop_list (λ c, step c.1 c.2) candidates s.
Proof.
  unfold candidates. rewrite loop_list_bind, for_loop_seq.
  apply loop_list_ext. intros t x. by rewrite loop_list_fmap, for_loop_seq.
Qed.

Lemma loop_list_wp {A St} E (I : list A → St → Prop)
    (body : A → St → result St) l s :
  I [] s →
  (∀ pre a suf x, l = pre ++ a :: suf → I pre x →
     wp E (body a x) (I (pre ++ [a]))) →
  wp E (loop_list body l s) (I l).
Proof.
  revert I s. induction l as [|a l IH]; intros I s H0 Hstep; simpl; [done|].
  apply wp_bind. eapply wp_mono; [by apply (Hstep [] a l)|].
  intros s' Hs'. apply (IH (λ pre, I (a :: pre))); [done|].
  intros pre b suf x -> Hx. by apply (Hstep (a :: pre) b suf).
Qed.

(** ** Registering the locations of the program *)

Lemma insert_memvar_list_names m x y :
  y ∈ (insert_memvar_list m x).*1 ↔ y = x ∨ y ∈ m.*1.
Proof.
  induction m as [|[z w] m IH]; simpl.
  - rewrite list_elem_of_singleton. set_solver.
  - destruct (String.eqb_spec z x) as [->|Hne]; simpl.
    + rewrite !elem_of_cons. naive_solver.
    + rewrite !elem_of_cons, IH. naive_solver.
Qed.

Lemma load_thread_names (th : list Instr) s y :
  y ∈ (memory (foldl (λ s ins, insert_memvar s (mem ins)) s th)).*1 ↔
  y ∈ (memory s).*1 ∨ ∃ ins, ins ∈ th ∧ y = mem ins.
Proof.
  revert s. induction th as [|ins th IH]; intros s; simpl.
  - split; [by left|]. intros [?|(ins & Hin & _)]; [done|]. by apply elem_of_nil in Hin.
  - rewrite IH. unfold insert_memvar at 1. simpl. rewrite insert_memvar_list_names.
    split.
    + intros [[->|?]|(ins' & Hin & ->)]; [right|by left|right].
      * exists ins. split; [apply list_elem_of_here|done].
      * exists ins'. split; [by apply list_elem_of_further|done].
    + intros [?|(ins' & Hin & ->)]; [by left; right|].
      apply elem_of_cons in Hin as [->|Hin]; [by left; left|].
      right. by exists ins'.
Qed.

Lemma load_threads_names (prog : list (list Instr)) s y :
  y ∈ (memory (foldl (λ s th, foldl (λ s ins, insert_memvar s (mem ins)) s th)
                 s prog)).*1 ↔
  y ∈ (memory s).*1 ∨ ∃ th ins, th ∈ prog ∧ ins ∈ th ∧ y = mem ins.
Proof.
  revert s. induction prog as [|th prog IH]; intros s; simpl.
  - split; [by left|]. intros [?|(th & ins & Hin & _)]; [done|].
    by apply elem_of_nil in Hin.
  - rewrite IH, load_thread_names. split.
    + intros [[?|(ins & Hin & ->)]|(th' & ins & Hth & Hin & ->)].
      * by left.
      * right. exists th, ins. split; [apply list_elem_of_here|done].
      * right. exists th', ins. split; [by apply list_elem_of_further|done].
    + intros [?|(th' & ins & Hth & Hin & ->)]; [by left; left|].
      apply elem_of_cons in Hth as [->|Hth].
      * left. right. by exists ins.
      * right. by exists th', ins.
Qed.

Lemma valid_lookup t i :
  valid t i → ∃ th, program !! t = Some th ∧ th !! i = Some (instr_at t i).
Proof.
  unfold valid, num_threads, num_instrs, instr_at. intros [Ht Hi].
  destruct (lookup_lt_is_Some_2 program t Ht) as [th Hth]. rewrite Hth in Hi |- *.
  simpl in *. destruct (lookup_lt_is_Some_2 th i Hi) as [ins Hins].
  exists th. by rewrite Hins.
Qed.

Lemma load_program_registered s : registered (load_program s).
Proof.
  intros t i Hv. destruct (valid_lookup t i Hv) as (th & Hth & Hins).
  unfold load_program. apply load_threads_names. right.
  exists th, (instr_at t i). split_and!; [|..|done].
  - by eapply list_elem_of_lookup_2.
  - by eapply list_elem_of_lookup_2.
Qed.

Lemma load_program_frame s :
  po (load_program s) = po s ∧ executed (load_program s) = executed s ∧
  loadvalues (load_program s) = loadvalues s ∧
  solutions_ibm (load_program s) = solutions_ibm s ∧
  solutions_tso (load_program s) = solutions_tso s.
Proof.
  unfold load_program. generalize program. intros prog. revert s.
  induction prog as [|th prog IH]; intros s; simpl; [done|].
  destruct (IH (foldl (λ s ins, insert_memvar s (mem ins)) s th))
    as (-> & -> & -> & -> & ->).
  clear IH. revert s. induction th as [|ins th IH]; intros s; simpl; [done|].
  destruct (IH (insert_memvar s (mem ins))) as (-> & -> & -> & -> & ->). done.
Qed.

(** ** The forwarding test *)

Lemma is_prevstore_executed_scan_ext s s' t i k :
  (∀ j, j < k → get_executed s' t j = get_executed s t j) →
  is_prevstore_executed_scan s' t i k = is_prevstore_executed_scan s t i k.
Proof.
  induction k as [|k IH]; intros Hext; simpl; [done|].
  rewrite Hext by lia. rewrite IH; [done|]. intros j Hj. apply Hext. lia.
Qed.

Lemma forwarding_ext s s' t i :
  (∀ j, j < i → get_executed s' t j = get_executed s t j) →
  forwarding s' t i = forwarding s t i.
Proof.
  intros Hext. unfold forwarding, is_prevstore_executed.
  by rewrite (is_prevstore_executed_scan_ext s s').
Qed.

Lemma get_prevstore_scan_ok t i k :
  is_prevstore_scan t i k = true → ∃ v, get_prevstore_scan t i k = Ok v.
Proof.
  induction k as [|k IH]; simpl; [done|].
  destruct (store (instr_at t k) && String.eqb _ _); eauto.
Qed.

Lemma is_prevstore_scan_true t i k :
  is_prevstore_scan t i k = true ↔
  ∃ j, j < k ∧ store (instr_at t j) = true ∧
       mem (instr_at t j) = mem (instr_at t i).
Proof.
  induction k as [|k IH]; simpl.
  - split; [done|]. intros (j & ? & _). lia.
  - destruct (store (instr_at t k)) eqn:Hst; simpl.
    + destruct (String.eqb_spec (mem (instr_at t k)) (mem (instr_at t i)))
        as [Heq|Hne].
      * split; [|done]. intros _. exists k. split_and!; (done || lia).
      * rewrite IH. split; intros (j & Hj & Hsj & Hmj); exists j.
        -- split; [lia|done].
        -- split; [|done]. destruct (decide (j = k)) as [->|]; [done|lia].
    + rewrite IH. split; intros (j & Hj & Hsj & Hmj); exists j.
      * split; [lia|done].
      * split; [|done]. destruct (decide (j = k)) as [->|]; [congruence|lia].
Qed.

Lemma is_prevstore_executed_scan_true s t i k :
  is_prevstore_executed_scan s t i k = true →
  ∃ j, j < k ∧ store (instr_at t j) = true ∧
       mem (instr_at t j) = mem (instr_at t i) ∧ get_executed s t j = true.
Proof.
  induction k as [|k IH]; simpl; [done|].
  destruct (store (instr_at t k)) eqn:Hst; simpl.
  - destruct (String.eqb_spec (mem (instr_at t k)) (mem (instr_at t i)))
      as [Heq|Hne].
    + destruct (get_executed s t k) eqn:Hex.
      * intros _. exists k. split_and!; (done || lia).
      * intros (j & ? & ?)%IH. exists j. split; [lia|done].
    + intros (j & ? & ?)%IH. exists j. split; [lia|done].
  - intros (j & ? & ?)%IH. exists j. split; [lia|done].
Qed.

Lemma is_prevstore_executed_scan_false s t i k :
  is_prevstore_executed_scan s t i k = false ↔
  ∀ j, j < k → store (instr_at t j) = true →
       mem (instr_at t j) = mem (instr_at t i) → get_executed s t j = false.
Proof.
  split.
  - intros Hscan j Hj Hsj Hmj.
    destruct (get_executed s t j) eqn:Hex; [|done]. rewrite <- Hscan. symmetry.
    clear Hscan. induction k as [|k IH]; [lia|]. simpl.
    destruct (decide (j = k)) as [->|Hne].
    + by rewrite Hsj, Hmj, String.eqb_refl, Hex.
    + rewrite IH by lia. by repeat case_match.
  - intros Hall. apply not_true_iff_false.
    intros (j & Hj & Hsj & Hmj & Hex)%is_prevstore_executed_scan_true.
    by rewrite Hall in Hex.
Qed.

(** What the forwarding test of the code decides for a load: some store to
    its location stands before it in its thread, and none of the stores to
    its location before it is executed. *)
Lemma forwarding_true_iff s t i :
  store (instr_at t i) = false →
  forwarding s t i = Ok true ↔
  (∃ j, j < i ∧ store (instr_at t j) = true ∧
        mem (instr_at t j) = mem (instr_at t i)) ∧
  (∀ j, j < i → store (instr_at t j) = true →
        mem (instr_at t j) = mem (instr_at t i) → get_executed s t j = false).
Proof.
  intros Hst. unfold forwarding, is_prevstore, is_prevstore_executed.
  rewrite Hst. simpl.
  rewrite <- is_prevstore_scan_true, <- is_prevstore_executed_scan_false.
  destruct (is_prevstore_scan t i i); simpl.
  - destruct (is_prevstore_executed_scan s t i i); simpl; split;
      try done; by intros [_ ?].
  - split; [done|]. by intros [? _].
Qed.

Lemma forwarding_load s t i :
  store (instr_at t i) = false →
  ∃ f, forwarding s t i = Ok f ∧ (f = true → ∃ v, get_prevstore t i = Ok v).
Proof.
  intros Hst. unfold forwarding, is_prevstore, is_prevstore_executed, get_prevstore.
  rewrite Hst. simpl. destruct (is_prevstore_scan t i i) eqn:Hscan; simpl.
  - eexists. split; [done|]. intros _. by apply get_prevstore_scan_ok.
  - eexists. split; [done|]. done.
Qed.

(** ** Lookups of registered locations *)

Lemma registered_names s s' :
  (memory s').*1 = (memory s).*1 → registered s → registered s'.
Proof. intros Hn Hr t i Hv. rewrite Hn. by apply Hr. Qed.

Lemma update_memvar_wp E s x v (Q : Z * State → Prop) :
  x ∈ (memory s).*1 →
  (∀ old m', m'.*1 = (memory s).*1 → Q (old, with_memory s m')) →
  wp E (update_memvar s x v) Q.
Proof.
  intros Hin HQ. unfold update_memvar.
  destruct (update_memvar_list_registered (memory s) x v Hin)
    as (old & m' & -> & Hn & _). simpl. by apply HQ.
Qed.

Lemma get_memvar_wp E s x (Q : Z → Prop) :
  x ∈ (memory s).*1 → (∀ v, Q v) → wp E (get_memvar s x) Q.
Proof.
  intros Hin HQ. unfold get_memvar.
  destruct (get_memvar_list_registered (memory s) x Hin) as (v & ->). apply HQ.
Qed.

Lemma add_po_ibm_memory s t i : memory (add_po_ibm s t i) = memory s.
Proof.
  unfold add_po_ibm.
  rewrite (column_loop t i (λ _, false) (i + 1) 0) by done.
  rewrite (column_loop t i (λ d, edge_ibm t d i)); [done|].
  intros d x. unfold edge_ibm.
  destruct (store (instr_at t i)); [|apply set_po_set_po].
  destruct (store (instr_at t d)); simpl; [apply set_po_set_po|].
  destruct (String.eqb _ _); [apply set_po_set_po|done].
Qed.

Lemma add_po_tso_memory s t i : memory (add_po_tso s t i) = memory s.
Proof.
  unfold add_po_tso.
  rewrite (column_loop t i (λ _, false) (i + 1) 0) by done.
  rewrite (column_loop t i (λ d, edge_tso t d i)); [done|].
  intros d x. unfold edge_tso.
  destruct (store (instr_at t i)); [|apply set_po_set_po].
  destruct (store (instr_at t d)); simpl; [apply set_po_set_po|done].
Qed.

Lemma remove_po_memory s t i : memory (remove_po s t i) = memory s.
Proof. unfold remove_po. by rewrite (column_loop t i (λ _, false)). Qed.

Lemma ibm_step_names rec s t i :
  (∀ x, registered x → keeps_names x (rec x)) →
  registered s → valid t i → keeps_names s (ibm_step rec t i s).
Proof.
  intros Hrec Hreg Hv. unfold keeps_names, ibm_step.
  destruct (negb (get_executed s t i) && negb (has_po_dependencies s t i));
    [|done].
  pose proof (Hreg t i Hv) as Hin.
  assert (wp True (ibm_execute s t i)
            (λ r, (memory r.2).*1 = (memory s).*1)) as Hexec.
  { unfold ibm_execute. apply wp_bind.
    destruct (store (instr_at t i)).
    - apply update_memvar_wp; [done|]. intros old m' Hn. simpl.
      by rewrite remove_po_memory.
    - apply wp_bind. apply get_memvar_wp; [done|]. intros v. simpl.
      by rewrite remove_po_memory. }
  apply wp_bind. eapply wp_mono; [exact Hexec|]. intros [old s1] Hn1. simpl in Hn1.
  apply wp_bind.
  assert (wp True (ibm_explore rec s1)
            (λ s2, (memory s2).*1 = (memory s).*1)) as Hexp.
  { unfold ibm_explore. destruct (all_executed s1); [done|].
    eapply wp_mono; [apply Hrec; by eapply registered_names|].
    intros s2 Hn2. simpl in Hn2. congruence. }
  eapply wp_mono; [exact Hexp|]. intros s2 Hn2. simpl in Hn2.
  unfold ibm_reverse. apply wp_bind.
  destruct (store (instr_at t i)).
  - apply wp_bind. apply update_memvar_wp.
    + rewrite add_po_ibm_memory, Hn2. done.
    + intros o m' Hn. simpl. rewrite Hn, add_po_ibm_memory. done.
  - simpl. by rewrite add_po_ibm_memory.
Qed.

Lemma tso_step_names rec s t i :
  (∀ x, registered x → keeps_names x (rec x)) →
  registered s → valid t i → keeps_names s (tso_step rec t i s).
Proof.
  intros Hrec Hreg Hv. unfold keeps_names, tso_step.
  destruct (negb (get_executed s t i) && negb (has_po_dependencies s t i));
    [|done].
  pose proof (Hreg t i Hv) as Hin.
  assert (∀ x, (memory x).*1 = (memory s).*1 →
            wp True (tso_explore rec x)
              (λ s2, (memory s2).*1 = (memory s).*1)) as Hexp.
  { intros x Hx. unfold tso_explore. destruct (all_executed x); [done|].
    eapply wp_mono; [apply Hrec; by eapply registered_names|].
    intros s2 Hn2. simpl in Hn2. congruence. }
  assert (wp True (tso_execute s t i)
            (λ r, (memory r.2).*1 = (memory s).*1)) as Hexec.
  { unfold tso_execute. apply wp_bind. apply get_memvar_wp.
    { by rewrite remove_po_memory. }
    intros old. apply wp_bind.
    destruct (store (instr_at t i)) eqn:Hst.
    - apply wp_bind. apply update_memvar_wp.
      + by rewrite remove_po_memory.
      + intros o m' Hn. simpl. rewrite Hn, remove_po_memory. done.
    - match goal with |- context [forwarding ?x t i] => set (sb := x) end.
      destruct (forwarding_load sb t i Hst) as (f & -> & Hprev). simpl.
      destruct f.
      + destruct Hprev as [v ->]; [done|]. simpl. subst sb.
        by rewrite remove_po_memory.
      + apply wp_bind. apply get_memvar_wp.
        { subst sb. by rewrite remove_po_memory. }
        intros v. simpl. subst sb. by rewrite remove_po_memory. }
  apply wp_bind. eapply wp_mono; [exact Hexec|]. intros [old s1] Hn1. simpl in Hn1.
  apply wp_bind. eapply wp_mono; [by apply Hexp|]. intros s2 Hn2. simpl in Hn2.
  apply wp_bind.
  assert (wp True (tso_second rec s2 t i)
            (λ s3, (memory s3).*1 = (memory s).*1)) as Hsec.
  { unfold tso_second. destruct (store (instr_at t i)) eqn:Hst; simpl; [done|].
    destruct (forwarding_load s2 t i Hst) as (f & -> & Hprev). simpl.
    destruct f; [|done]. unfold tso_second_load.
    destruct Hprev as [v ->]; [done|]. simpl. by apply Hexp. }
  eapply wp_mono; [exact Hsec|]. intros s3 Hn3. simpl in Hn3.
  unfold tso_reverse. apply wp_bind.
  destruct (store (instr_at t i)).
  - apply wp_bind. apply update_memvar_wp.
    + by rewrite Hn3.
    + intros o m' Hn. simpl. rewrite add_po_tso_memory. simpl. congruence.
  - simpl. rewrite add_po_tso_memory. done.
Qed.

Lemma body_names (step : (State → result State) → nat → nat → State → result State)
    rec s :
  (∀ x t i, registered x → valid t i → keeps_names x (step rec t i x)) →
  registered s →
  keeps_names s
    (for_loop num_threads 0 (λ t s,
       for_loop (num_instrs t) 0 (λ i s, step rec t i s) s) s).
Proof.
  intros Hstep Hreg. unfold keeps_names. rewrite nested_loops.
  apply (loop_list_wp True (λ _ x, (memory x).*1 = (memory s).*1)); [done|].
  intros pre [t i] suf x Hc Hx. simpl.
  eapply wp_mono; [apply Hstep|].
  - by eapply registered_names.
  - apply elem_of_candidates. rewrite Hc. set_solver.
  - intros y Hy. simpl in Hy. congruence.
Qed.

Lemma ibm_search_names fuel s :
  registered s → keeps_names s (get_possible_executions_ibm fuel s).
Proof.
  revert s. induction fuel as [|fuel IH]; intros s Hreg; simpl.
  - apply (body_names ibm_step); [|done]. intros x t i Hx Hv.
    by apply ibm_step_names.
  - apply (body_names ibm_step); [|done]. intros x t i Hx Hv.
    by apply ibm_step_names.
Qed.

Lemma tso_search_names fuel s :
  registered s → keeps_names s (get_possible_executions_tso fuel s).
Proof.
  revert s. induction fuel as [|fuel IH]; intros s Hreg; simpl.
  - apply (body_names tso_step); [|done]. intros x t i Hx Hv.
    by apply tso_step_names.
  - apply (body_names tso_step); [|done]. intros x t i Hx Hv.
    by apply tso_step_names.
Qed.

(** C8. Once every location named by an instruction has been registered
    (the reading loop of [main] does so with [insert_memvar]), no lookup of
    [get_memvar] or [update_memvar] made by either search fails: whatever the
    fuel, neither search ends in a failed assertion. *)
Theorem registered_lookups_never_fail s fuel :
  registered s →
  get_possible_executions_ibm fuel s ≠ AssertFail ∧
  get_possible_executions_tso fuel s ≠ AssertFail.
Proof.
  intros Hreg. split.
  - pose proof (ibm_search_names fuel s Hreg) as Hk. unfold keeps_names in Hk.
    intros Heq. by rewrite Heq in Hk.
  - pose proof (tso_search_names fuel s Hreg) as Hk. unfold keeps_names in Hk.
    intros Heq. by rewrite Heq in Hk.
Qed.

(** ** More fuel changes nothing *)

Lemma loop_list_mono {A St} (f g : A → St → result St) l s s' :
  (∀ a x y, f a x = Ok y → g a x = Ok y) →
  loop_list f l s = Ok s' → loop_list g l s = Ok s'.
Proof.
  intros Hfg. revert s. induction l as [|a l IH]; intros s; simpl; [done|].
  intros (s1 & Hf & Hrest)%bind_ok. rewrite (Hfg _ _ _ Hf). simpl. by apply IH.
Qed.

Lemma ibm_step_mono rec1 rec2 t i s s' :
  (∀ x y, rec1 x = Ok y → rec2 x = Ok y) →
  ibm_step rec1 t i s = Ok s' → ibm_step rec2 t i s = Ok s'.
Proof.
  intros Hrec. unfold ibm_step.
  destruct (negb (get_executed s t i) && negb (has_po_dependencies s t i));
    [|done].
  intros ([old s1] & -> & (s2 & Hexp & Hrev)%bind_ok)%bind_ok. simpl.
  assert (ibm_explore rec2 s1 = Ok s2) as ->; [|done].
  unfold ibm_explore in *. destruct (all_executed s1); [done|by apply Hrec].
Qed.

Lemma tso_step_mono rec1 rec2 t i s s' :
  (∀ x y, rec1 x = Ok y → rec2 x = Ok y) →
  tso_step rec1 t i s = Ok s' → tso_step rec2 t i s = Ok s'.
Proof.
  intros Hrec. unfold tso_step.
  destruct (negb (get_executed s t i) && negb (has_po_dependencies s t i));
    [|done].
  assert (∀ x y, tso_explore rec1 x = Ok y → tso_explore rec2 x = Ok y) as Hexp.
  { intros x y. unfold tso_explore. destruct (all_executed x); [done|apply Hrec]. }
  intros ([old s1] & -> & (s2 & He1 & (s3 & Hsec & Hrev)%bind_ok)%bind_ok)%bind_ok.
  simpl. rewrite (Hexp _ _ He1). simpl.
  assert (tso_second rec2 s2 t i = Ok s3) as ->; [|done].
  unfold tso_second in *. apply bind_ok in Hsec as (f & -> & Hsec). simpl.
  destruct f; [|done]. apply bind_ok in Hsec as (s4 & -> & Hsec). simpl.
  by apply Hexp.
Qed.

Lemma ibm_fuel_mono fuel fuel' s s' :
  fuel ≤ fuel' →
  get_possible_executions_ibm fuel s = Ok s' →
  get_possible_executions_ibm fuel' s = Ok s'.
Proof.
  revert fuel' s s'. induction fuel as [|fuel IH]; intros fuel' s s' Hle;
    destruct fuel' as [|fuel']; simpl; try lia; try done;
    unfold ibm_body; rewrite !nested_loops; apply loop_list_mono;
    intros [t i] x y; apply ibm_step_mono; try done.
  intros x' y'. apply IH. lia.
Qed.

Lemma tso_fuel_mono fuel fuel' s s' :
  fuel ≤ fuel' →
  get_possible_executions_tso fuel s = Ok s' →
  get_possible_executions_tso fuel' s = Ok s'.
Proof.
  revert fuel' s s'. induction fuel as [|fuel IH]; intros fuel' s s' Hle;
    destruct fuel' as [|fuel']; simpl; try lia; try done;
    unfold tso_body; rewrite !nested_loops; apply loop_list_mono;
    intros [t i] x y; apply tso_step_mono; try done.
  intros x' y'. apply IH. lia.
Qed.

(** ** Scanning for the last store *)

Lemma last_executed_store_ext s s' t x k :
  (∀ j, j < k → store (instr_at t j) = true → mem (instr_at t j) = x →
        get_executed s' t j = get_executed s t j) →
  last_executed_store s' t x k = last_executed_store s t x k.
Proof.
  induction k as [|k IH]; intros Hext; simpl; [done|].
  rewrite IH by (intros j Hj; apply Hext; lia).
  destruct (store (instr_at t k)) eqn:Hst; simpl; [|done].
  destruct (String.eqb_spec (mem (instr_at t k)) x) as [Hx|Hx]; simpl; [|done].
  by rewrite Hext by (done || lia).
Qed.

Lemma last_executed_store_cut s t x k n :
  k ≤ n →
  (∀ j, k ≤ j < n → store (instr_at t j) = true → mem (instr_at t j) = x →
        get_executed s t j = false) →
  last_executed_store s t x n = last_executed_store s t x k.
Proof.
  induction n as [|n IH]; intros Hle Hno.
  - by replace k with 0 by lia.
  - destruct (decide (k = S n)) as [->|Hne]; [done|]. simpl.
    rewrite IH by (lia || intros j Hj; apply Hno; lia).
    destruct (store (instr_at t n)) eqn:Hst; simpl; [|done].
    destruct (String.eqb_spec (mem (instr_at t n)) x) as [Hx|Hx]; simpl; [|done].
    by rewrite Hno by (done || lia).
Qed.

Lemma last_executed_store_all s t x k :
  (∀ j, j < k → store (instr_at t j) = true → mem (instr_at t j) = x →
        get_executed s t j = true) →
  last_executed_store s t x k = last_store t x k.
Proof.
  induction k as [|k IH]; intros Hall; simpl; [done|].
  rewrite IH by (intros j Hj; apply Hall; lia).
  destruct (store (instr_at t k)) eqn:Hst; simpl; [|done].
  destruct (String.eqb_spec (mem (instr_at t k)) x) as [Hx|Hx]; simpl; [|done].
  by rewrite Hall by (done || lia).
Qed.

Lemma last_executed_store_none s t x k :
  (∀ j, j < k → get_executed s t j = false) →
  last_executed_store s t x k = None.
Proof.
  intros Hno. rewrite (last_executed_store_cut s t x 0 k); [done|lia|].
  intros j Hj _ _. apply Hno. lia.
Qed.

(** ** Memory as registered by the reading loop *)

Lemma insert_memvar_list_zero m x :
  Forall (λ p, p.2 = 0%Z) m → Forall (λ p, p.2 = 0%Z) (insert_memvar_list m x).
Proof.
  induction m as [|[y w] m IH]; intros Hm; simpl.
  - by repeat constructor.
  - destruct (String.eqb y x); [done|].
    apply Forall_cons in Hm as [? ?]. apply Forall_cons. auto.
Qed.

Lemma insert_memvar_list_nodup m x :
  NoDup m.*1 → NoDup (insert_memvar_list m x).*1.
Proof.
  induction m as [|[y w] m IH]; intros Hm; simpl.
  - apply NoDup_singleton.
  - destruct (String.eqb_spec y x) as [->|Hne]; [done|].
    rewrite fmap_cons in Hm |- *. apply NoDup_cons in Hm as [Hy Hm].
    apply NoDup_cons. split; [|by apply IH].
    simpl. rewrite insert_memvar_list_names. intros [?|?]; done.
Qed.

Lemma load_program_memory :
  Forall (λ p, p.2 = 0%Z) (memory (load_program zero_state)) ∧
  NoDup (memory (load_program zero_state)).*1.
Proof.
  unfold load_program.
  assert (∀ prog s,
    Forall (λ p, p.2 = 0%Z) (memory s) ∧ NoDup (memory s).*1 →
    let s' := foldl (λ s th, foldl (λ s ins, insert_memvar s (mem ins)) s th)
                s prog in
    Forall (λ p, p.2 = 0%Z) (memory s') ∧ NoDup (memory s').*1) as Hgen.
  { induction prog as [|th prog IH]; intros s Hs; simpl; [done|].
    apply IH. clear IH. revert s Hs.
    induction th as [|ins th IH]; intros s Hs; simpl; [done|].
    apply IH. destruct Hs as [Hz Hn]. unfold insert_memvar. simpl. split.
    - by apply insert_memvar_list_zero.
    - by apply insert_memvar_list_nodup. }
  apply Hgen. simpl. split; [constructor|apply NoDup_nil_2].
Qed.

Lemma get_memvar_list_zero m x :
  Forall (λ p, p.2 = 0%Z) m → x ∈ m.*1 → get_memvar_list m x = Ok 0%Z.
Proof.
  induction m as [|[y w] m IH]; intros Hz Hin; simpl.
  - by apply elem_of_nil in Hin.
  - apply Forall_cons in Hz as [Hw Hz]. simpl in Hw. subst w.
    destruct (String.eqb_spec y x) as [->|Hne]; [done|].
    apply IH; [done|]. rewrite fmap_cons in Hin.
    apply elem_of_cons in Hin as [?|?]; [simpl in *; congruence|done].
Qed.

Lemma memory_ext (m m' : list (string * Z)) :
  m.*1 = m'.*1 → NoDup m.*1 →
  (∀ x, x ∈ m.*1 → get_memvar_list m x = get_memvar_list m' x) →
  m = m'.
Proof.
  revert m'. induction m as [|[y w] m IH]; intros [|[y' w'] m'] Hn Hnd Hget;
    try done.
  rewrite !fmap_cons in Hn. simpl in Hn. injection Hn as <- Hn.
  rewrite fmap_cons in Hnd. apply NoDup_cons in Hnd as [Hy Hnd]. simpl in Hy.
  pose proof (Hget y (list_elem_of_here _ _)) as Hy0. simpl in Hy0.
  rewrite String.eqb_refl in Hy0.
  injection Hy0 as <-. f_equal. apply IH; [done..|].
  intros x Hx. specialize (Hget x). simpl in Hget.
  destruct (String.eqb_spec y x) as [->|Hne]; [done|].
  apply Hget. by apply list_elem_of_further.
Qed.

Lemma print_loads_ext a b :
  (∀ t i, valid t i → store (instr_at t i) = false →
          get_load a t i = get_load b t i) →
  print_loads a = print_loads b.
Proof.
  intros Hext. unfold print_loads.
  assert (∀ (A : Type) (f g : A → string → string) l z,
    (∀ x y, x ∈ l → f x y = g x y) → foldr f z l = foldr g z l) as Hfold.
  { intros A f g l z. induction l as [|x l IH]; intros Hfg; simpl; [done|].
    rewrite IH by (intros; apply Hfg; by apply list_elem_of_further).
    apply Hfg, list_elem_of_here. }
  apply Hfold. intros t out Ht%elem_of_seq.
  apply Hfold. intros i out' Hi%elem_of_seq.
  destruct (store (instr_at t i)) eqn:Hst; [done|].
  rewrite Hext; [done| |done]. split; lia.
Qed.

(** ** The table of memory variables *)

Lemma insert_memvar_list_known m x :
  x ∈ m.*1 → insert_memvar_list m x = m.
Proof.
  induction m as [|[y v] m IH]; simpl; [by intros ?%elem_of_nil|].
  destruct (String.eqb_spec y x) as [->|Hne]; [done|].
  intros [?|Hin]%elem_of_cons; [done|]. by rewrite IH.
Qed.

Lemma insert_memvar_list_new m x :
  x ∉ m.*1 → insert_memvar_list m x = m ++ [(x, 0%Z)].
Proof.
  induction m as [|[y v] m IH]; simpl; [done|].
  intros Hnot. apply not_elem_of_cons in Hnot as [Hne Hnot].
  destruct (String.eqb_spec y x) as [->|_]; [done|]. by rewrite IH.
Qed.

Lemma insert_memvar_list_get m x y :
  y ≠ x → get_memvar_list (insert_memvar_list m x) y = get_memvar_list m y.
Proof.
  intros Hne. induction m as [|[z v] m IH]; simpl.
  - destruct (String.eqb_spec x y); [congruence|done].
  - destruct (String.eqb_spec z x) as [->|Hzx]; simpl; [done|].
    by rewrite IH.
Qed.

Lemma memvar_list_unregistered m x v :
  x ∉ m.*1 →
  get_memvar_list m x = AssertFail ∧ update_memvar_list m x v = AssertFail.
Proof.
  induction m as [|[y w] m IH]; simpl; [done|].
  intros Hnot. apply not_elem_of_cons in Hnot as [Hne Hnot].
  destruct (String.eqb_spec y x) as [->|_]; [done|].
  destruct (IH Hnot) as [-> ->]. done.
Qed.

Lemma update_memvar_list_ok m x v old m' :
  update_memvar_list m x v = Ok (old, m') → x ∈ m.*1.
Proof.
  intros Hup. destruct (decide (x ∈ m.*1)) as [|Hnot]; [done|].
  destruct (memvar_list_unregistered m x v Hnot) as [_ Hf]. congruence.
Qed.

(** X1. [insert_memvar] registers a location once: afterwards the names are
    the old ones and [var]; a known location leaves the table as it is, a
    new one is appended with value 0; names stay free of duplicates, the
    values of the other locations are kept, and a second call changes
    nothing. *)
Theorem insert_memvar_registers_once s x :
  let s' := insert_memvar s x in
  (∀ y, y ∈ (memory s').*1 ↔ y = x ∨ y ∈ (memory s).*1) ∧
  (x ∈ (memory s).*1 → s' = s) ∧
  (x ∉ (memory s).*1 → memory s' = memory s ++ [(x, 0%Z)]) ∧
  (NoDup (memory s).*1 → NoDup (memory s').*1) ∧
  (∀ y, y ≠ x → get_memvar s' y = get_memvar s y) ∧
  insert_memvar s' x = s'.
Proof.
  simpl. split_and!.
  - intros y. apply insert_memvar_list_names.
  - intros Hin. unfold insert_memvar. rewrite insert_memvar_list_known by done.
    by destruct s.
  - intros Hnot. simpl. by apply insert_memvar_list_new.
  - apply insert_memvar_list_nodup.
  - intros y Hne. unfold get_memvar. simpl. by apply insert_memvar_list_get.
  - unfold insert_memvar at 1.
    rewrite (insert_memvar_list_known (memory (insert_memvar s x)) x).
    + by destruct s.
    + apply insert_memvar_list_names. by left.
Qed.


(** X3. An update that returns [old] and [s'] overwrote the value [old] of
    [var]: [s'] differs from [s] in memory only, holds the new value for
    [var] and the old values for every other location, keeps the names, and
    writing [old] back returns the new value and the state [s]. *)
Theorem update_memvar_round_trip s x v old s' :
  update_memvar s x v = Ok (old, s') →
  get_memvar s x = Ok old ∧
  get_memvar s' x = Ok v ∧
  (∀ y, y ≠ x → get_memvar s' y = get_memvar s y) ∧
  (memory s').*1 = (memory s).*1 ∧
  s' = with_memory s (memory s') ∧
  update_memvar s' x old = Ok (v, s).
Proof.
  unfold update_memvar, get_memvar. intros Hup.
  destruct (update_memvar_list (memory s) x v) as [[old' m']| |] eqn:Hl;
    simpl in Hup; [|done..].
  injection Hup as <- <-.
  destruct (update_memvar_list_registered (memory s) x v)
    as (old2 & m2 & Hup2 & Hn & Hget & Hget' & Hback).
  { by eapply update_memvar_list_ok. }
  rewrite Hl in Hup2. injection Hup2 as <- <-. simpl.
  split_and!; try done.
  - intros y Hne. by eapply update_memvar_list_other.
  - rewrite Hback. simpl. by destruct s.
Qed.

(** ** The scans behind store forwarding *)

Lemma get_prevstore_scan_nearest t i k :
  (∃ j, j < k ∧ store (instr_at t j) = true ∧
        mem (instr_at t j) = mem (instr_at t i) ∧
        (∀ j', j < j' < k → store (instr_at t j') = true →
               mem (instr_at t j') ≠ mem (instr_at t i)) ∧
        is_prevstore_scan t i k = true ∧
        get_prevstore_scan t i k = Ok (value (instr_at t j))) ∨
  ((∀ j, j < k → store (instr_at t j) = true →
         mem (instr_at t j) ≠ mem (instr_at t i)) ∧
   is_prevstore_scan t i k = false ∧
   get_prevstore_scan t i k = AssertFail).
Proof.
  induction k as [|k IH]; simpl.
  - right. split_and!; [|done..]. intros j Hj. lia.
  - destruct (store (instr_at t k)) eqn:Hst; simpl.
    + destruct (String.eqb_spec (mem (instr_at t k)) (mem (instr_at t i)))
        as [Heq|Hne].
      * left. exists k. split_and!; try done; [lia|]. intros j' Hj'. lia.
      * destruct IH as [(j & Hj & Hsj & Hmj & Hbetween & Hp & Hg)|(Hnone & Hp & Hg)].
        -- left. exists j. split_and!; try done; [lia|].
           intros j' Hj' Hs'. destruct (decide (j' = k)) as [->|]; [done|].
           apply Hbetween; [lia|done].
        -- right. split_and!; try done.
           intros j Hj Hs. destruct (decide (j = k)) as [->|]; [done|].
           apply Hnone; [lia|done].
    + destruct IH as [(j & Hj & Hsj & Hmj & Hbetween & Hp & Hg)|(Hnone & Hp & Hg)].
      * left. exists j. split_and!; try done; [lia|].
        intros j' Hj' Hs'. destruct (decide (j' = k)) as [->|]; [congruence|].
        apply Hbetween; [lia|done].
      * right. split_and!; try done.
        intros j Hj Hs. destruct (decide (j = k)) as [->|]; [congruence|].
        apply Hnone; [lia|done].
Qed.

(** X4. The three scans fail their assertion on a store.  On a load,
    [is_prevstore] tells whether an earlier instruction of the thread stores
    to the location of the load; when it does, [get_prevstore] returns the
    value of the nearest such store, and when it does not, [get_prevstore]
    fails its assertion. *)
Theorem prevstore_nearest_store t i :
  (store (instr_at t i) = true →
     is_prevstore t i = AssertFail ∧ get_prevstore t i = AssertFail ∧
     ∀ s, is_prevstore_executed s t i = AssertFail) ∧
  (store (instr_at t i) = false →
     (∃ j, j < i ∧ store (instr_at t j) = true ∧
           mem (instr_at t j) = mem (instr_at t i) ∧
           (∀ j', j < j' < i → store (instr_at t j') = true →
                  mem (instr_at t j') ≠ mem (instr_at t i)) ∧
           is_prevstore t i = Ok true ∧
           get_prevstore t i = Ok (value (instr_at t j))) ∨
     ((∀ j, j < i → store (instr_at t j) = true →
            mem (instr_at t j) ≠ mem (instr_at t i)) ∧
      is_prevstore t i = Ok false ∧
      get_prevstore t i = AssertFail)).
Proof.
  unfold is_prevstore, get_prevstore, is_prevstore_executed. split.
  - intros ->. done.
  - intros ->.
    destruct (get_prevstore_scan_nearest t i i)
      as [(j & Hj & Hsj & Hmj & Hbetween & Hp & Hg)|(Hnone & Hp & Hg)].
    + left. exists j. rewrite Hp, Hg. done.
    + right. rewrite Hp, Hg. done.
Qed.

(** X5. For a load, the test [is_prevstore && !is_prevstore_executed]
    never fails; it holds exactly when some earlier instruction of the
    thread stores to the location of the load and no such store is marked
    executed. *)
Theorem forwarding_condition s t i :
  store (instr_at t i) = false →
  ∃ f, forwarding s t i = Ok f ∧
    (f = true ↔
       (∃ j, j < i ∧ store (instr_at t j) = true ∧
             mem (instr_at t j) = mem (instr_at t i)) ∧
       (∀ j, j < i → store (instr_at t j) = true →
             mem (instr_at t j) = mem (instr_at t i) →
             get_executed s t j = false)).
Proof.
  intros Hst.
  assert (∃ f, forwarding s t i = Ok f) as [f Hf].
  { unfold forwarding, is_prevstore, is_prevstore_executed. rewrite Hst. simpl.
    destruct (is_prevstore_scan t i i); simpl; eauto. }
  exists f. split; [done|].
  rewrite <- (forwarding_true_iff s t i Hst), Hf.
  split; [by intros ->|by intros [= ->]].
Qed.

(** ** Outcomes as strings *)

Lemma string_app_assoc (a b c : string) : (a +:+ b) +:+ c = a +:+ (b +:+ c).
Proof.
  induction a as [|ch a IH]; [reflexivity|].
  change (String ch ((a +:+ b) +:+ c) = String ch (a +:+ (b +:+ c))).
  by rewrite IH.
Qed.

Lemma string_cons_app c (s r : string) : String c s +:+ r = String c (s +:+ r).
Proof. reflexivity. Qed.

Lemma no_semicolon_cons c s :
  no_semicolon (String c s) =
    negb (String.eqb (String c EmptyString) ";") && no_semicolon s.
Proof. reflexivity. Qed.

Lemma no_semicolon_delimits a b r r' :
  no_semicolon a = true → no_semicolon b = true →
  a +:+ ";" +:+ r = b +:+ ";" +:+ r' → a = b ∧ r = r'.
Proof.
  revert b. induction a as [|c a IH]; intros [|c' b] Ha Hb Heq.
  - change (";" +:+ r = ";" +:+ r') in Heq.
    by apply (inj (String.append ";")) in Heq.
  - change (";" +:+ r = String c' b +:+ ";" +:+ r') in Heq.
    rewrite !string_cons_app in Heq. injection Heq as <- _.
    rewrite no_semicolon_cons in Hb. done.
  - change (String c a +:+ ";" +:+ r = ";" +:+ r') in Heq.
    rewrite !string_cons_app in Heq. injection Heq as -> _.
    rewrite no_semicolon_cons in Ha. done.
  - rewrite !string_cons_app in Heq. injection Heq as -> Heq.
    rewrite no_semicolon_cons in Ha, Hb.
    apply andb_prop in Ha as [_ Ha]. apply andb_prop in Hb as [_ Hb].
    by destruct (IH b Ha Hb Heq) as [-> ->].
Qed.

Lemma pretty_N_go_no_semicolon (x : N) s :
  no_semicolon s = true → no_semicolon (pretty_N_go x s) = true.
Proof.
  revert s. induction (N.lt_wf_0 x) as [x _ IH]; intros s Hs.
  assert (x = 0 ∨ 0 < x)%N as [->|Hpos] by lia.
  - by rewrite pretty_N_go_0.
  - rewrite pretty_N_go_step by done. apply IH; [by apply N.div_lt|].
    unfold pretty_N_char. by repeat case_match.
Qed.

Lemma pretty_Z_no_semicolon (z : Z) : no_semicolon (pretty z) = true.
Proof.
  assert (∀ p : positive, no_semicolon (pretty p) = true) as Hpos.
  { intros p. unfold pretty, pretty_positive, pretty, pretty_N.
    case_decide; [done|]. by apply pretty_N_go_no_semicolon. }
  destruct z as [|p|p]; [done|apply Hpos|].
  change (no_semicolon ("-" +:+ pretty p) = true).
  rewrite string_cons_app, no_semicolon_cons. apply Hpos.
Qed.

Lemma render_app l1 l2 out : render (l1 ++ l2) out = render l1 (render l2 out).
Proof. unfold render. by rewrite foldr_app. Qed.

Lemma render_inj l l' out out' :
  l.*1 = l'.*1 → render l out = render l' out' → l.*2 = l'.*2 ∧ out = out'.
Proof.
  revert l'. induction l as [|[p v] l IH]; intros [|[p' v'] l'] Hn Heq;
    try done.
  simpl in Hn. injection Hn as <- Hn.
  change (p +:+ pretty v +:+ ";" +:+ " " +:+ render l out =
          p +:+ pretty v' +:+ ";" +:+ " " +:+ render l' out') in Heq.
  apply (inj (String.append p)) in Heq.
  apply no_semicolon_delimits in Heq as [Hv Hrest];
    [|apply pretty_Z_no_semicolon..].
  apply (inj pretty) in Hv as <-.
  apply (inj (String.append " ")) in Hrest.
  destruct (IH l' Hn Hrest) as [Hvals ->]. split; [|done].
  change ((v :: l.*2) = (v :: l'.*2)). by f_equal.
Qed.

Lemma print_mem_render s rest : print_mem s +:+ rest = render (mem_pieces s) rest.
Proof.
  unfold print_mem, mem_pieces, render.
  induction (memory s) as [|[x v] m IH]; [done|].
  rewrite fmap_cons. cbn [foldr]. rewrite <- IH.
  by rewrite !string_app_assoc.
Qed.

Lemma foldr_bind {A B C} (f : B → C → C) (g : A → list B) (c : C) (l : list A) :
  foldr f c (l ≫= g) = foldr (λ x acc, foldr f acc (g x)) c l.
Proof.
  induction l as [|x l IH]; [done|].
  change ((x :: l) ≫= g) with (g x ++ (l ≫= g)).
  by rewrite foldr_app, IH.
Qed.

Lemma print_loads_render s : print_loads s = render (load_pieces s) "".
Proof.
  unfold load_pieces, render. rewrite foldr_fmap.
  assert (∀ (l : list (nat * nat)) out,
    foldr (λ c out,
             if store (instr_at c.1 c.2) then out
             else mem (instr_at c.1 c.2) +:+ "==" +:+
                  pretty (get_load s c.1 c.2) +:+ "; " +:+ out) out l =
    foldr (λ c out,
             (mem (instr_at c.1 c.2) +:+ "==") +:+
             pretty (get_load s c.1 c.2) +:+ "; " +:+ out) out
          (filter (λ c, store (instr_at c.1 c.2) = false) l)) as Hfilter.
  { intros l out. induction l as [|c l IH]; [done|].
    simpl. destruct (store (instr_at c.1 c.2)) eqn:Hst.
    - rewrite filter_cons_False by (by rewrite Hst). done.
    - rewrite filter_cons_True by done. simpl.
      by rewrite IH, string_app_assoc. }
  rewrite <- Hfilter. unfold candidates, print_loads.
  rewrite foldr_bind. apply foldr_ext; [|done..].
  intros t out. by rewrite foldr_fmap.
Qed.

Lemma outcome_render s : outcome s = render (mem_pieces s ++ load_pieces s) "".
Proof.
  unfold outcome. by rewrite render_app, print_mem_render, print_loads_render.
Qed.

Lemma fmap_pointwise {A B} (f g : A → B) (l : list A) :
  f <$> l = g <$> l → ∀ x, x ∈ l → f x = g x.
Proof.
  induction l as [|a l IH]; intros Heq x Hx; [by apply elem_of_nil in Hx|].
  simpl in Heq. injection Heq as Ha Hl.
  apply elem_of_cons in Hx as [->|Hx]; [done|]. by apply IH.
Qed.

Lemma pairs_eq {A B} (l l' : list (A * B)) :
  l.*1 = l'.*1 → l.*2 = l'.*2 → l = l'.
Proof.
  revert l'. induction l as [|[a b] l IH]; intros [|[a' b'] l'] H1 H2;
    try done.
  simpl in *. injection H1 as -> H1. injection H2 as -> H2.
  by rewrite (IH l').
Qed.

(** X16. The outcome string identifies the values it was rendered from:
    two states with the same locations render to the same string exactly
    when they hold the same memory values and the same result for every
    load of the program.  So the set of strings keeps two outcomes apart
    whenever some value differs, and merges only equal ones. *)
Theorem outcome_identifies_values a b :
  (memory a).*1 = (memory b).*1 →
  outcome a = outcome b ↔
  memory a = memory b ∧
  ∀ t i, valid t i → store (instr_at t i) = false →
         get_load a t i = get_load b t i.
Proof.
  intros Hn. split.
  - rewrite !outcome_render. intros Heq.
    apply render_inj in Heq as [Hvals _].
    + rewrite !fmap_app in Hvals.
      apply app_inj_1 in Hvals as [Hm Hl].
      2:{ unfold mem_pieces. rewrite !length_fmap.
          by rewrite <- (length_fmap fst (memory a)), Hn, length_fmap. }
      split.
      * apply pairs_eq; [done|]. unfold mem_pieces in Hm.
        rewrite <- !list_fmap_compose in Hm.
        etrans; [|etrans; [exact Hm|]]; apply list_fmap_ext; by intros ? [??].
      * intros t i Hv Hst. unfold load_pieces in Hl.
        rewrite <- !list_fmap_compose in Hl.
        apply (fmap_pointwise _ _ _ Hl (t, i)).
        apply list_elem_of_filter. split; [done|]. by apply elem_of_candidates.
    + rewrite !fmap_app. f_equal.
      * unfold mem_pieces. rewrite <- !list_fmap_compose.
        transitivity ((λ x, "[" +:+ x +:+ "]==") <$> (memory a).*1).
        { rewrite <- list_fmap_compose. apply list_fmap_ext. by intros ? [??]. }
        rewrite Hn, <- list_fmap_compose. apply list_fmap_ext. by intros ? [??].
      * unfold load_pieces. by rewrite <- !list_fmap_compose.
  - intros [Hm Hl]. unfold outcome, print_mem. rewrite Hm. f_equal.
    by apply print_loads_ext.
Qed.

Section Bounded.

Hypothesis Hbounded : bounded_program.

Lemma remove_po_eq s t i :
  remove_po s t i =
    with_po s (write_column t i (λ _, false) (num_instrs t - (i + 1)) (i + 1) (po s)).
Proof. by apply column_loop. Qed.

Lemma remove_po_get s t i t' d' i' :
  valid t i → dims3 (po s) →
  get_po (remove_po s t i) t' d' i' =
    if decide (t' = t ∧ i' = i ∧ i < d' < num_instrs t) then false
    else get_po s t' d' i'.
Proof.
  intros Hv Hd. destruct (valid_bounds t i Hbounded Hv) as [Ht Hi].
  pose proof (num_instrs_bounded t Hbounded) as Hin. destruct Hv as [_ Hv].
  rewrite remove_po_eq. unfold get_po. simpl.
  rewrite write_column_get by (done || lia).
  repeat case_decide; (done || lia).
Qed.

Lemma remove_po_dims s t i : dims3 (po s) → dims3 (po (remove_po s t i)).
Proof. intros Hd. rewrite remove_po_eq. simpl. by apply write_column_dims. Qed.

Lemma add_po_shape edge (body : nat → State → State) s t i :
  (∀ d x, body d x = set_po x t d i (edge d)) →
  valid t i → dims3 (po s) →
  let s' := for_pure (num_instrs t - (i + 1)) (i + 1) body
              (for_pure (i + 1) 0 (λ d s, set_po s t d i false) s) in
  s' = with_po s (po s') ∧ dims3 (po s') ∧
  ∀ t' d' i',
    get_po s' t' d' i' =
      if decide (t' = t ∧ i' = i ∧ d' < num_instrs t) then (i <? d') && edge d'
      else get_po s t' d' i'.
Proof.
  intros Hbody Hv Hd. destruct (valid_bounds t i Hbounded Hv) as [Ht Hi].
  pose proof (num_instrs_bounded t Hbounded) as Hin. destruct Hv as [_ Hv].
  rewrite (column_loop t i (λ _, false) (i + 1) 0) by done.
  rewrite (column_loop t i edge _ _ body) by done.
  simpl. split; [done|]. split.
  { by do 2 apply write_column_dims. }
  intros t' d' i'. unfold get_po. simpl.
  rewrite write_column_get; [|by apply write_column_dims|done|done|lia].
  rewrite write_column_get by (done || lia).
  repeat case_decide; try (done || lia).
  - destruct (Nat.ltb_spec i d'); [done|lia].
  - destruct (Nat.ltb_spec i d'); [lia|done].
Qed.

Lemma add_po_ibm_writes : writes_rule rule_ibm add_po_ibm.
Proof.
  intros s t i Hv Hd. unfold add_po_ibm, rule_ibm.
  apply (add_po_shape (λ d, edge_ibm t d i)); [|done..].
  intros d x. unfold edge_ibm.
  destruct (store (instr_at t i)); [|apply set_po_set_po].
  destruct (store (instr_at t d)); simpl; [apply set_po_set_po|].
  destruct (String.eqb _ _); [apply set_po_set_po|done].
Qed.

Lemma add_po_tso_writes : writes_rule rule_tso add_po_tso.
Proof.
  intros s t i Hv Hd. unfold add_po_tso, rule_tso.
  apply (add_po_shape (λ d, edge_tso t d i)); [|done..].
  intros d x. unfold edge_tso.
  destruct (store (instr_at t i)); [|apply set_po_set_po].
  destruct (store (instr_at t d)); simpl; [apply set_po_set_po|done].
Qed.

(** ** Building the dependency graph *)

Lemma build_po_graph_shape rule add s :
  writes_rule rule add → dims3 (po s) →
  let s' := for_pure num_threads 0 (λ t s,
              for_pure (num_instrs t) 0 (λ i s, add s t i) s) s in
  s' = with_po s (po s') ∧ dims3 (po s') ∧
  ∀ t d i,
    get_po s' t d i =
      if decide (t < num_threads ∧ i < num_instrs t ∧ d < num_instrs t)
      then rule t d i else get_po s t d i.
Proof.
  intros Hadd Hd.
  pose (P := λ (T : nat) (x : State),
    x = with_po s (po x) ∧ dims3 (po x) ∧
    ∀ t d i, get_po x t d i =
      if decide (t < T ∧ i < num_instrs t ∧ d < num_instrs t)
      then rule t d i else get_po s t d i).
  change (P (0 + num_threads) (for_pure num_threads 0 (λ t s,
            for_pure (num_instrs t) 0 (λ i s, add s t i) s) s)).
  apply for_pure_ind.
  { split; [by destruct s|]. split; [done|]. intros t d i. case_decide; [lia|done]. }
  intros T x HT (Hx & Hdx & Hget).
  pose (Q := λ (I : nat) (y : State),
    y = with_po s (po y) ∧ dims3 (po y) ∧
    ∀ t d i, get_po y t d i =
      if decide (t < T ∧ i < num_instrs t ∧ d < num_instrs t
                 ∨ t = T ∧ i < I ∧ d < num_instrs t)
      then rule t d i else get_po s t d i).
  assert (Q (0 + num_instrs T) (for_pure (num_instrs T) 0 (λ i s, add s T i) x))
    as (Hy & Hdy & Hgety).
  { apply for_pure_ind.
    - split; [done|]. split; [done|]. intros t d i. rewrite Hget.
      repeat case_decide; (done || lia).
    - intros I y HI (Hy & Hdy & Hgety).
      destruct (Hadd y T I) as (Ha & Hda & Hgeta); [split; lia|done|].
      split; [|split; [done|]].
      + rewrite Ha, Hy. done.
      + intros t d i. rewrite Hgeta, Hgety.
        decide_cases. }
  split; [done|]. split; [done|].
  intros t d i. rewrite Hgety. destruct (decide (t = T)) as [->|Hne]; decide_cases.
Qed.

(** ** One step of a search and its undo *)

Lemma get_executed_set s t i b t' i' :
  dims2 (executed s) → valid t i →
  get_executed (set_executed s t i b) t' i' =
    if decide ((t, i) = (t', i')) then b else get_executed s t' i'.
Proof.
  intros Hd Hv. destruct (valid_bounds t i Hbounded Hv) as [Ht Hi].
  unfold get_executed, set_executed. simpl. case_decide as Heq.
  - injection Heq as <- <-. by eapply get2_set2_eq.
  - by apply get2_set2_ne.
Qed.

Lemma inv_after_execute rule s s1 t i :
  (∀ t d i, d ≤ i → rule t d i = false) →
  search_inv rule s → valid t i → get_executed s t i = false →
  po s1 = po (remove_po s t i) →
  executed s1 = set2 (executed s) t i true →
  (memory s1).*1 = (memory s).*1 →
  (loadvalues s1 = loadvalues s ∨ ∃ v, loadvalues s1 = set2 (loadvalues s) t i v) →
  search_inv rule s1 ∧ unexecuted s1 < unexecuted s.
Proof.
  intros Hrule [(Hdp & Hde & Hdl) Hreg Hpo Hld] Hv Hex Hp He Hm Hl.
  assert (∀ t' i', get_executed s1 t' i' =
            if decide ((t, i) = (t', i')) then true else get_executed s t' i') as Hget.
  { intros t' i'. rewrite <- (get_executed_set s t i true) by done.
    unfold get_executed, set_executed. simpl. by rewrite He. }
  split; [split|].
  - unfold dims. rewrite Hp, He. split_and!.
    + by apply remove_po_dims.
    + by apply rect_set2.
    + destruct Hl as [->|[v ->]]; [done|]. by apply rect_set2.
  - unfold registered. by rewrite Hm.
  - intros t' d' i' Ht' Hd' Hi'. rewrite Hget. unfold get_po. rewrite Hp.
    fold (get_po (remove_po s t i) t' d' i'). rewrite remove_po_get by done.
    destruct (decide ((t, i) = (t', i'))) as [[= <- <-]|Hne].
    + simpl. case_decide; [done|].
      rewrite Hpo, Hex by done. simpl. apply Hrule. lia.
    + rewrite decide_False by (intros (-> & -> & _); done). by apply Hpo.
  - intros t' i' Hv' Hex'. rewrite Hget in Hex'. case_decide as Heq; [done|].
    unfold get_load. destruct Hl as [->|[v ->]].
    + by apply Hld.
    + rewrite get2_set2_ne by done. by apply Hld.
  - apply (unexecuted_decreases s s1 t i); [done..| |].
    + rewrite Hget. by rewrite decide_True.
    + intros t' i' Hne. rewrite Hget. by rewrite decide_False.
Qed.

Lemma po_restored rule add s s2 t i :
  writes_rule rule add → search_inv rule s → valid t i →
  get_executed s t i = false → po s2 = po (remove_po s t i) →
  po (add s2 t i) = po s.
Proof.
  intros Hadd [(Hdp & Hde & Hdl) Hreg Hpo Hld] Hv Hex Hp.
  assert (dims3 (po s2)) as Hd2 by (rewrite Hp; by apply remove_po_dims).
  destruct (Hadd s2 t i Hv Hd2) as (_ & Hda & Hget).
  apply (ext3 false); [done..|]. intros t' d' i' _ _ _.
  fold (get_po (add s2 t i) t' d' i'). fold (get_po s t' d' i'). rewrite Hget.
  case_decide as Hc.
  - destruct Hc as (-> & -> & Hd'). destruct Hv as [Ht Hi].
    rewrite Hpo, Hex by done. done.
  - unfold get_po. rewrite Hp. fold (get_po (remove_po s t i) t' d' i').
    rewrite remove_po_get by done. apply decide_False.
    intros (-> & -> & ? & ?). apply Hc. done.
Qed.

Lemma rule_ibm_later t d i : d ≤ i → rule_ibm t d i = false.
Proof. intros Hle. unfold rule_ibm. destruct (Nat.ltb_spec i d); [lia|done]. Qed.

Lemma rule_ibm_earlier t d i : rule_ibm t d i = true → i < d.
Proof. unfold rule_ibm. by intros [?%Nat.ltb_lt _]%andb_prop. Qed.

Lemma rule_tso_earlier t d i : rule_tso t d i = true → i < d.
Proof. unfold rule_tso. by intros [?%Nat.ltb_lt _]%andb_prop. Qed.

Lemma rule_tso_later t d i : d ≤ i → rule_tso t d i = false.
Proof. intros Hle. unfold rule_tso. destruct (Nat.ltb_spec i d); [lia|done]. Qed.

Lemma po_remove_po s s' t i : po s' = po s → po (remove_po s' t i) = po (remove_po s t i).
Proof. intros Hp. rewrite !remove_po_eq. simpl. by rewrite Hp. Qed.

Lemma ibm_execute_spec s t i :
  search_inv rule_ibm s → valid t i → get_executed s t i = false →
  ∃ old s1, ibm_execute s t i = Ok (old, s1) ∧
    search_inv rule_ibm s1 ∧ unexecuted s1 < unexecuted s ∧
    solutions_ibm s1 = solutions_ibm s ∧ solutions_tso s1 = solutions_tso s ∧
    executed s1 = set2 (executed s) t i true ∧
    (if store (instr_at t i) then
       update_memvar_list (memory s) (mem (instr_at t i)) (value (instr_at t i))
         = Ok (old, memory s1) ∧
       loadvalues s1 = loadvalues s
     else
       ∃ v, get_memvar_list (memory s) (mem (instr_at t i)) = Ok v ∧
            memory s1 = memory s ∧
            loadvalues s1 = set2 (loadvalues s) t i v) ∧
    ∀ s2, same_frame s1 s2 → ibm_reverse s2 t i old = Ok (restore s s2).
Proof.
  intros Hinv Hv Hex.
  pose proof Hinv as [(Hdp & Hde & Hdl) Hreg Hpo Hld].
  pose proof (Hreg t i Hv) as Hin.
  unfold ibm_execute, ibm_reverse.
  destruct (store (instr_at t i)) eqn:Hst.
  - destruct (update_memvar_list_registered (memory s) _ (value (instr_at t i)) Hin)
      as (old & m' & Hu & Hn & Hg & Hg' & Hback).
    unfold update_memvar. simpl. rewrite Hu. simpl.
    eexists old, _. split; [done|].
    rewrite !remove_po_eq. simpl.
    edestruct (inv_after_execute rule_ibm s) as [Hinv1 Hlt];
      [apply rule_ibm_later|done..| | | | |split; [apply Hinv1|split; [apply Hlt|]]].
    { rewrite remove_po_eq. simpl. reflexivity. }
    { simpl. reflexivity. }
    { simpl. done. }
    { left. simpl. reflexivity. }
    split_and!; try done.
    intros s2 (Hp2 & He2 & Hm2 & Hl2). simpl in *.
    destruct (add_po_ibm_writes s2 t i Hv) as (Ha & _ & _).
    { rewrite Hp2. by apply write_column_dims. }
    assert (po (add_po_ibm s2 t i) = po s) as Hpr.
    { eapply po_restored; [apply add_po_ibm_writes|done..|].
      rewrite Hp2, remove_po_eq. done. }
    rewrite Ha. simpl. rewrite Hm2, Hback. simpl.
    f_equal. apply state_eq; simpl; try done.
    rewrite He2, set2_set2, <- Hex. apply set2_get2.
  - destruct (get_memvar_list_registered (memory s) _ Hin) as [v Hg].
    unfold get_memvar. simpl. rewrite Hg. simpl.
    eexists _, _. split; [done|].
    rewrite !remove_po_eq. simpl.
    edestruct (inv_after_execute rule_ibm s) as [Hinv1 Hlt];
      [apply rule_ibm_later|done..| | | | |split; [apply Hinv1|split; [apply Hlt|]]].
    { rewrite remove_po_eq. simpl. reflexivity. }
    { simpl. reflexivity. }
    { simpl. done. }
    { right. simpl. eauto. }
    split_and!; try done; [by eauto|].
    intros s2 (Hp2 & He2 & Hm2 & Hl2). simpl in *.
    destruct (add_po_ibm_writes s2 t i Hv) as (Ha & _ & _).
    { rewrite Hp2. by apply write_column_dims. }
    assert (po (add_po_ibm s2 t i) = po s) as Hpr.
    { eapply po_restored; [apply add_po_ibm_writes|done..|].
      rewrite Hp2, remove_po_eq. done. }
    rewrite Ha. simpl.
    f_equal. apply state_eq; simpl; try done.
    + rewrite He2, set2_set2, <- Hex. apply set2_get2.
    + rewrite Hl2, set2_set2. rewrite <- (Hld t i Hv Hex). apply set2_get2.
Qed.

Lemma tso_execute_spec s t i :
  search_inv rule_tso s → valid t i → get_executed s t i = false →
  ∃ old s1 f, tso_execute s t i = Ok (old, s1) ∧
    search_inv rule_tso s1 ∧ unexecuted s1 < unexecuted s ∧
    solutions_ibm s1 = solutions_ibm s ∧ solutions_tso s1 = solutions_tso s ∧
    executed s1 = set2 (executed s) t i true ∧
    (if store (instr_at t i) then
       f = false ∧
       update_memvar_list (memory s) (mem (instr_at t i)) (value (instr_at t i))
         = Ok (old, memory s1) ∧
       loadvalues s1 = loadvalues s
     else
       forwarding s t i = Ok f ∧ memory s1 = memory s ∧
       ∃ v, (if f then get_prevstore t i
             else get_memvar_list (memory s) (mem (instr_at t i))) = Ok v ∧
            loadvalues s1 = set2 (loadvalues s) t i v) ∧
    (∀ rec s2, same_frame s1 s2 →
       tso_second rec s2 t i = if f then tso_explore rec s2 else Ok s2) ∧
    ∀ s3, same_frame s1 s3 → tso_reverse s3 t i old = Ok (restore s s3).
Proof.
  intros Hinv Hv Hex.
  pose proof Hinv as [(Hdp & Hde & Hdl) Hreg Hpo Hld].
  pose proof (Hreg t i Hv) as Hin.
  destruct (get_memvar_list_registered (memory s) _ Hin) as [old Hg].
  unfold tso_execute, tso_reverse, tso_second.
  rewrite !remove_po_eq. unfold get_memvar. simpl. rewrite Hg. simpl.
  destruct (store (instr_at t i)) eqn:Hst.
  - destruct (update_memvar_list_registered (memory s) _ (value (instr_at t i)) Hin)
      as (old' & m' & Hu & Hn & Hg2 & Hg' & Hback).
    assert (old' = old) as -> by congruence.
    unfold update_memvar. simpl. rewrite Hu. simpl.
    eexists old, _, false. split; [done|].
    edestruct (inv_after_execute rule_tso s) as [Hinv1 Hlt];
      [apply rule_tso_later|done..| | | | |split; [apply Hinv1|split; [apply Hlt|]]].
    { rewrite remove_po_eq. simpl. reflexivity. }
    { simpl. reflexivity. }
    { simpl. done. }
    { left. simpl. reflexivity. }
    split_and!; try done.
    intros s3 (Hp3 & He3 & Hm3 & Hl3). simpl in *.
    rewrite Hm3, Hback. simpl.
    match goal with |- context [add_po_tso ?x t i] => set (s4 := x) end.
    destruct (add_po_tso_writes s4 t i Hv) as (Ha & _ & _).
    { subst s4. simpl. rewrite Hp3. by apply write_column_dims. }
    assert (po (add_po_tso s4 t i) = po s) as Hpr.
    { eapply po_restored; [apply add_po_tso_writes|done..|].
      subst s4. simpl. rewrite Hp3, remove_po_eq. done. }
    rewrite Ha. subst s4.
    f_equal. apply state_eq; simpl; try done.
    rewrite He3, set2_set2, <- Hex. apply set2_get2.
  - match goal with |- context [forwarding ?x t i] => set (sb := x) end.
    assert (∀ s', executed s' = set2 (executed s) t i true →
                  forwarding s' t i = forwarding s t i) as Hfw.
    { intros s' He'. apply forwarding_ext. intros j Hj.
      unfold get_executed. rewrite He'. apply get2_set2_ne. intros [= ->]. lia. }
    destruct (forwarding_load s t i Hst) as (f & Hf & Hprev).
    rewrite (Hfw sb) by done. rewrite Hf. simpl.
    assert (∃ v, (if f then get_prevstore t i
                  else get_memvar_list (memory s) (mem (instr_at t i))) = Ok v)
      as [v Hval].
    { destruct f; [by apply Hprev|by eauto]. }
    eexists old, (with_loadvalues sb (set2 (loadvalues s) t i v)), f. split.
    { destruct f; simpl in Hval; [by rewrite Hval|].
      rewrite Hg in Hval. by injection Hval as ->. }
    edestruct (inv_after_execute rule_tso s) as [Hinv1 Hlt];
      [apply rule_tso_later|done..| | | | |split; [apply Hinv1|split; [apply Hlt|]]].
    { rewrite remove_po_eq. simpl. reflexivity. }
    { simpl. reflexivity. }
    { simpl. done. }
    { right. simpl. eauto. }
    split_and!; try done.
    + exists v. split; [|done]. destruct f; [done|]. congruence.
    + intros rec s2 (Hp2 & He2 & Hm2 & Hl2). simpl in *.
      rewrite (Hfw s2) by done. rewrite Hf. simpl.
      destruct f; [|done]. unfold tso_second_load. simpl in Hval. rewrite Hval. simpl.
      f_equal. apply state_eq; simpl; try done.
      by rewrite Hl2, set2_set2.
    + intros s3 (Hp3 & He3 & Hm3 & Hl3). simpl in *.
      match goal with |- context [add_po_tso ?x t i] => set (s4 := x) end.
      destruct (add_po_tso_writes s4 t i Hv) as (Ha & _ & _).
      { subst s4. simpl. rewrite Hp3. by apply write_column_dims. }
      assert (po (add_po_tso s4 t i) = po s) as Hpr.
      { eapply po_restored; [apply add_po_tso_writes|done..|].
        subst s4. simpl. rewrite Hp3, remove_po_eq. done. }
      rewrite Ha. subst s4.
      f_equal. apply state_eq; simpl; try done.
      * rewrite He3, set2_set2, <- Hex. apply set2_get2.
      * rewrite Hl3, set2_set2. rewrite <- (Hld t i Hv Hex). apply set2_get2.
Qed.

(** ** The frame of a search *)

Lemma ibm_post_refl s : ibm_post s s.
Proof. done. Qed.

Lemma ibm_post_trans s1 s2 s3 : ibm_post s1 s2 → ibm_post s2 s3 → ibm_post s1 s3.
Proof.
  intros (Hf & Hs & Ht) (Hf' & Hs' & Ht'). split_and!.
  - by eapply same_frame_trans.
  - by etrans.
  - by rewrite Ht'.
Qed.

Lemma tso_post_refl s : tso_post s s.
Proof. done. Qed.

Lemma tso_post_trans s1 s2 s3 : tso_post s1 s2 → tso_post s2 s3 → tso_post s1 s3.
Proof.
  intros (Hf & Hs & Ht) (Hf' & Hs' & Ht'). split_and!.
  - by eapply same_frame_trans.
  - by etrans.
  - by rewrite Ht'.
Qed.

Lemma ibm_explore_post E rule rec s s1 :
  (∀ x, search_inv rule x → unexecuted x < unexecuted s →
        wp E (rec x) (ibm_post x)) →
  search_inv rule s1 → unexecuted s1 < unexecuted s →
  wp E (ibm_explore rec s1) (ibm_post s1).
Proof.
  intros Hrec Hinv Hlt. unfold ibm_explore. destruct (all_executed s1); [|by apply Hrec].
  simpl. split_and!; [done| |done]. simpl. set_solver.
Qed.

Lemma tso_explore_post E rule rec s s1 :
  (∀ x, search_inv rule x → unexecuted x < unexecuted s →
        wp E (rec x) (tso_post x)) →
  search_inv rule s1 → unexecuted s1 < unexecuted s →
  wp E (tso_explore rec s1) (tso_post s1).
Proof.
  intros Hrec Hinv Hlt. unfold tso_explore. destruct (all_executed s1); [|by apply Hrec].
  simpl. split_and!; [done| |done]. simpl. set_solver.
Qed.

Lemma ibm_step_post E rec s t i :
  (∀ x, search_inv rule_ibm x → unexecuted x < unexecuted s →
        wp E (rec x) (ibm_post x)) →
  search_inv rule_ibm s → valid t i →
  wp E (ibm_step rec t i s) (ibm_post s).
Proof.
  intros Hrec Hinv Hv. unfold ibm_step.
  destruct (get_executed s t i) eqn:Hex; simpl; [done|].
  destruct (has_po_dependencies s t i); simpl; [done|].
  destruct (ibm_execute_spec s t i Hinv Hv Hex)
    as (old & s1 & -> & Hinv1 & Hlt & Hsi & Hst & _ & _ & Hrev).
  simpl. apply wp_bind.
  eapply wp_mono; [by eapply ibm_explore_post|].
  intros s2 (Hf2 & Hs2 & Ht2). rewrite (Hrev s2 Hf2). simpl.
  split_and!; [done|simpl..].
  - by rewrite <- Hsi.
  - by rewrite Ht2.
Qed.

Lemma tso_step_post E rec s t i :
  (∀ x, search_inv rule_tso x → unexecuted x < unexecuted s →
        wp E (rec x) (tso_post x)) →
  search_inv rule_tso s → valid t i →
  wp E (tso_step rec t i s) (tso_post s).
Proof.
  intros Hrec Hinv Hv. unfold tso_step.
  destruct (get_executed s t i) eqn:Hex; simpl; [done|].
  destruct (has_po_dependencies s t i); simpl; [done|].
  destruct (tso_execute_spec s t i Hinv Hv Hex)
    as (old & s1 & f & -> & Hinv1 & Hlt & Hsi & Hst & _ & _ & Hsec & Hrev).
  simpl. apply wp_bind.
  eapply wp_mono; [by eapply tso_explore_post|].
  intros s2 (Hf2 & Hs2 & Ht2). apply wp_bind. rewrite (Hsec rec s2 Hf2).
  assert (wp E (if f then tso_explore rec s2 else Ok s2) (tso_post s2)) as Hw.
  { destruct f; [|done]. eapply tso_explore_post; [done| |].
    - by eapply search_inv_frame.
    - destruct Hf2 as (_ & He & _). by rewrite (unexecuted_frame s1 s2). }
  eapply wp_mono; [apply Hw|].
  intros s3 (Hf3 & Hs3 & Ht3). rewrite (Hrev s3); [|by eapply same_frame_trans].
  simpl. split_and!; [done|simpl..].
  - rewrite <- Hst. by etrans.
  - by rewrite Ht3, Ht2.
Qed.

Lemma ibm_body_post E rec s :
  (∀ x, search_inv rule_ibm x → unexecuted x < unexecuted s →
        wp E (rec x) (ibm_post x)) →
  search_inv rule_ibm s →
  wp E (ibm_body rec s) (ibm_post s).
Proof.
  intros Hrec Hinv. unfold ibm_body. rewrite nested_loops.
  apply (loop_list_wp E (λ _, ibm_post s)); [done|].
  intros pre [t i] suf x Hc Hx. simpl.
  assert (valid t i) as Hv.
  { apply elem_of_candidates. rewrite Hc. set_solver. }
  destruct Hx as (Hf & Hs & Ht).
  eapply wp_mono; [apply ibm_step_post; [|by eapply search_inv_frame|done]|].
  - intros y Hy Hlt. apply Hrec; [done|].
    destruct Hf as (_ & He & _). by rewrite <- (unexecuted_frame s x).
  - intros y Hy. by apply (ibm_post_trans s x y).
Qed.

Lemma tso_body_post E rec s :
  (∀ x, search_inv rule_tso x → unexecuted x < unexecuted s →
        wp E (rec x) (tso_post x)) →
  search_inv rule_tso s →
  wp E (tso_body rec s) (tso_post s).
Proof.
  intros Hrec Hinv. unfold tso_body. rewrite nested_loops.
  apply (loop_list_wp E (λ _, tso_post s)); [done|].
  intros pre [t i] suf x Hc Hx. simpl.
  assert (valid t i) as Hv.
  { apply elem_of_candidates. rewrite Hc. set_solver. }
  destruct Hx as (Hf & Hs & Ht).
  eapply wp_mono; [apply tso_step_post; [|by eapply search_inv_frame|done]|].
  - intros y Hy Hlt. apply Hrec; [done|].
    destruct Hf as (_ & He & _). by rewrite <- (unexecuted_frame s x).
  - intros y Hy. by apply (tso_post_trans s x y).
Qed.

Lemma ibm_search_total fuel s :
  search_inv rule_ibm s → unexecuted s ≤ fuel →
  wp False (get_possible_executions_ibm fuel s) (ibm_post s).
Proof.
  revert s. induction fuel as [|fuel IH]; intros s Hinv Hle; simpl.
  - apply ibm_body_post; [|done]. intros x _ Hlt. lia.
  - apply ibm_body_post; [|done]. intros x Hx Hlt. apply IH; [done|lia].
Qed.

Lemma tso_search_total fuel s :
  search_inv rule_tso s → unexecuted s ≤ fuel →
  wp False (get_possible_executions_tso fuel s) (tso_post s).
Proof.
  revert s. induction fuel as [|fuel IH]; intros s Hinv Hle; simpl.
  - apply tso_body_post; [|done]. intros x _ Hlt. lia.
  - apply tso_body_post; [|done]. intros x Hx Hlt. apply IH; [done|lia].
Qed.

Lemma ibm_search_partial fuel s :
  search_inv rule_ibm s →
  wp True (get_possible_executions_ibm fuel s) (ibm_post s).
Proof.
  revert s. induction fuel as [|fuel IH]; intros s Hinv; simpl.
  - by apply ibm_body_post.
  - apply ibm_body_post; [|done]. intros x Hx _. by apply IH.
Qed.

Lemma tso_search_partial fuel s :
  search_inv rule_tso s →
  wp True (get_possible_executions_tso fuel s) (tso_post s).
Proof.
  revert s. induction fuel as [|fuel IH]; intros s Hinv; simpl.
  - by apply tso_body_post.
  - apply tso_body_post; [|done]. intros x Hx _. by apply IH.
Qed.

(** ** The state in which [main] starts a search *)

Lemma zero_state_dims : dims zero_state.
Proof.
  split_and!.
  - split; [apply length_replicate|]. intros t plane [-> _]%lookup_replicate.
    split; [apply length_replicate|]. intros d row [-> _]%lookup_replicate.
    apply length_replicate.
  - split; [apply length_replicate|]. intros t row [-> _]%lookup_replicate.
    apply length_replicate.
  - split; [apply length_replicate|]. intros t row [-> _]%lookup_replicate.
    apply length_replicate.
Qed.

Lemma zero_state_loads t i : get_load zero_state t i = 0%Z.
Proof.
  unfold get_load, get2.
  change (loadvalues zero_state)
    with (replicate MAX_THREADS (replicate MAX_INSTRUCTIONS 0%Z)).
  destruct (replicate MAX_THREADS (replicate MAX_INSTRUCTIONS 0%Z) !! t)
    as [row|] eqn:Hrow; [|done].
  apply lookup_replicate in Hrow as [-> _].
  destruct (replicate MAX_INSTRUCTIONS 0%Z !! i) as [x|] eqn:Hx; [|done].
  by apply lookup_replicate in Hx as [-> _].
Qed.

Lemma reset_executed_shape s :
  dims2 (executed s) →
  let s' := reset_executed s in
  s' = with_executed s (executed s') ∧ dims2 (executed s') ∧
  ∀ t i, valid t i → get_executed s' t i = false.
Proof.
  intros Hd. unfold reset_executed.
  pose (P := λ (T : nat) (x : State),
    x = with_executed s (executed x) ∧ dims2 (executed x) ∧
    ∀ t i, t < T → i < num_instrs t → get_executed x t i = false).
  assert (P (0 + num_threads) (for_pure num_threads 0 (λ t s,
            for_pure (num_instrs t) 0 (λ i s, set_executed s t i false) s) s))
    as (Hs & Hds & Hget).
  { apply for_pure_ind.
    { split; [by destruct s|]. split; [done|]. intros t i. lia. }
    intros T x HT (Hx & Hdx & Hget).
    pose (Q := λ (I : nat) (y : State),
      y = with_executed s (executed y) ∧ dims2 (executed y) ∧
      ∀ t i, t < T ∧ i < num_instrs t ∨ t = T ∧ i < I →
             get_executed y t i = false).
    assert (Q (0 + num_instrs T)
              (for_pure (num_instrs T) 0 (λ i s, set_executed s T i false) x))
      as (Hy & Hdy & Hgety).
    { apply for_pure_ind.
      - split; [done|]. split; [done|]. intros t i [[? ?]|[? ?]]; [|lia]. by apply Hget.
      - intros I y HI (Hy & Hdy & Hgety). split; [|split].
        + rewrite Hy. done.
        + by apply rect_set2.
        + intros t i Hti. rewrite get_executed_set; [|done|split; lia].
          case_decide; [done|]. apply Hgety.
          destruct Hti as [?|[-> ?]]; [by left|].
          right. split; [done|]. destruct (decide (i = I)) as [->|]; [done|lia]. }
    split; [done|]. split; [done|]. intros t i Ht Hi. apply Hgety.
    destruct (decide (t = T)) as [->|]; [right; split; [done|lia]|left; lia]. }
  split; [done|]. split; [done|]. intros t i [Ht Hi]. by apply Hget.
Qed.

Lemma start_inv rule add s :
  writes_rule rule add → dims s → registered s →
  (∀ t i, valid t i → get_executed s t i = false) →
  (∀ t i, valid t i → get_load s t i = 0%Z) →
  search_inv rule (for_pure num_threads 0 (λ t s,
                     for_pure (num_instrs t) 0 (λ i s, add s t i) s) s).
Proof.
  intros Hadd (Hdp & Hde & Hdl) Hreg Hex Hld.
  destruct (build_po_graph_shape rule add s Hadd Hdp) as (Hs & Hds & Hget).
  rewrite Hs. split.
  - done.
  - done.
  - intros t d i Ht Hd Hi. unfold get_po, get_executed in *. simpl.
    rewrite Hget. rewrite decide_True by done.
    rewrite (Hex t i) by done. done.
  - intros t i Hv _. by apply Hld.
Qed.

Lemma unexecuted_le_total s : unexecuted s ≤ total_instrs.
Proof.
  unfold unexecuted. etrans; [apply length_filter|].
  unfold candidates, total_instrs, num_threads, num_instrs.
  assert (∀ (pre prog : list (list Instr)),
    length (seq (length pre) (length prog) ≫= λ t,
              (λ i, (t, i)) <$> seq 0 (length (default [] ((pre ++ prog) !! t))))
    = length (concat prog)) as Hgen.
  { intros pre prog. revert pre. induction prog as [|th prog IH]; intros pre; [done|].
    simpl. rewrite length_app, length_app, length_fmap, length_seq.
    rewrite list_lookup_middle by done. simpl. f_equal.
    specialize (IH (pre ++ [th])). rewrite length_app in IH. simpl in IH.
    rewrite <- (assoc_L (++)) in IH. simpl in IH.
    rewrite Nat.add_1_r in IH. done. }
  by rewrite <- (Hgen [] program).
Qed.

Lemma clean_load_program : clean (load_program zero_state).
Proof.
  destruct (load_program_frame zero_state) as (Hp & He & Hl & _).
  split_and!.
  - unfold dims. rewrite Hp, He, Hl. apply zero_state_dims.
  - apply load_program_registered.
  - intros t i _. unfold get_load. rewrite Hl. apply zero_state_loads.
Qed.

Lemma ibm_start_inv s :
  clean s →
  search_inv rule_ibm (ibm_start s) ∧
  (∀ t i, valid t i → get_executed (ibm_start s) t i = false) ∧
  memory (ibm_start s) = memory s ∧ loadvalues (ibm_start s) = loadvalues s ∧
  solutions_ibm (ibm_start s) = ∅ ∧ solutions_tso (ibm_start s) = solutions_tso s.
Proof.
  intros ((Hdp & Hde & Hdl) & Hreg & Hld). unfold ibm_start.
  destruct (reset_executed_shape s Hde) as (Hr & Hdr & Hex). simpl in *.
  set (s1 := with_solutions_ibm (reset_executed s) ∅).
  assert (search_inv rule_ibm (build_po_graph_ibm s1)) as Hinv.
  { apply (start_inv rule_ibm add_po_ibm); [apply add_po_ibm_writes|..].
    - subst s1. rewrite Hr. done.
    - subst s1. rewrite Hr. done.
    - intros t i Hv. by apply Hex.
    - intros t i Hv. subst s1. rewrite Hr. by apply Hld. }
  split; [done|].
  destruct (build_po_graph_shape rule_ibm add_po_ibm s1) as (Hb & _ & _);
    [apply add_po_ibm_writes|subst s1; by rewrite Hr|].
  unfold build_po_graph_ibm. rewrite Hb. subst s1. rewrite Hr.
  split; [|done]. intros t i Hv. by apply Hex.
Qed.

Lemma tso_start_inv s :
  clean s →
  search_inv rule_tso (tso_start s) ∧
  (∀ t i, valid t i → get_executed (tso_start s) t i = false) ∧
  memory (tso_start s) = memory s ∧ loadvalues (tso_start s) = loadvalues s ∧
  solutions_tso (tso_start s) = ∅ ∧ solutions_ibm (tso_start s) = solutions_ibm s.
Proof.
  intros ((Hdp & Hde & Hdl) & Hreg & Hld). unfold tso_start.
  destruct (reset_executed_shape s Hde) as (Hr & Hdr & Hex). simpl in *.
  set (s1 := with_solutions_tso (reset_executed s) ∅).
  assert (search_inv rule_tso (build_po_graph_tso s1)) as Hinv.
  { apply (start_inv rule_tso add_po_tso); [apply add_po_tso_writes|..].
    - subst s1. rewrite Hr. done.
    - subst s1. rewrite Hr. done.
    - intros t i Hv. by apply Hex.
    - intros t i Hv. subst s1. rewrite Hr. by apply Hld. }
  split; [done|].
  destruct (build_po_graph_shape rule_tso add_po_tso s1) as (Hb & _ & _);
    [apply add_po_tso_writes|subst s1; by rewrite Hr|].
  unfold build_po_graph_tso. rewrite Hb. subst s1. rewrite Hr.
  split; [|done]. intros t i Hv. by apply Hex.
Qed.

Lemma clean_frame s s' :
  dims s' → memory s' = memory s → loadvalues s' = loadvalues s →
  clean s → clean s'.
Proof.
  intros Hd Hm Hl (_ & Hreg & Hld). split_and!; [done|..].
  - unfold registered. by rewrite Hm.
  - unfold get_load. by rewrite Hl.
Qed.

Lemma run_ibm_ok s :
  clean s →
  ∃ s', run_ibm s = Ok s' ∧ ibm_post (ibm_start s) s' ∧ clean s'.
Proof.
  intros Hc. destruct (ibm_start_inv s Hc) as (Hinv & _ & Hm & Hl & _).
  pose proof (ibm_search_total total_instrs (ibm_start s) Hinv
                (unexecuted_le_total _)) as Hw.
  apply wp_total in Hw as (s' & Hrun & Hpost). exists s'. split_and!; [done..|].
  destruct Hpost as ((Hp' & He' & Hm' & Hl') & _).
  apply (clean_frame s); [|congruence..|done].
  destruct Hinv as [(? & ? & ?) _ _ _]. unfold dims. by rewrite Hp', He', Hl'.
Qed.

Lemma run_tso_ok s :
  clean s →
  ∃ s', run_tso s = Ok s' ∧ tso_post (tso_start s) s' ∧ clean s'.
Proof.
  intros Hc. destruct (tso_start_inv s Hc) as (Hinv & _ & Hm & Hl & _).
  pose proof (tso_search_total total_instrs (tso_start s) Hinv
                (unexecuted_le_total _)) as Hw.
  apply wp_total in Hw as (s' & Hrun & Hpost). exists s'. split_and!; [done..|].
  destruct Hpost as ((Hp' & He' & Hm' & Hl') & _).
  apply (clean_frame s); [|congruence..|done].
  destruct Hinv as [(? & ? & ?) _ _ _]. unfold dims. by rewrite Hp', He', Hl'.
Qed.

Lemma main_ok :
  ∃ s1 s2, run_ibm (load_program zero_state) = Ok s1 ∧ run_tso s1 = Ok s2 ∧
    main = Ok s2 ∧
    ibm_post (ibm_start (load_program zero_state)) s1 ∧
    tso_post (tso_start s1) s2 ∧ clean s1.
Proof.
  destruct (run_ibm_ok _ clean_load_program) as (s1 & Hr1 & Hp1 & Hc1).
  destruct (run_tso_ok s1 Hc1) as (s2 & Hr2 & Hp2 & _).
  exists s1, s2. unfold main. rewrite Hr1. simpl. by rewrite Hr2.
Qed.

(** ** Every store-atomic schedule is a relaxed schedule *)

Lemma all_executed_ext a b :
  (∀ t i, valid t i → get_executed a t i = get_executed b t i) →
  all_executed a = all_executed b.
Proof.
  intros Hext. unfold all_executed.
  assert (∀ (f g : nat → bool) l, (∀ x, x ∈ l → f x = g x) →
                                   forallb f l = forallb g l) as Hfa.
  { intros f g l. induction l as [|x l IH]; intros Hfg; simpl; [done|].
    rewrite Hfg by apply list_elem_of_here. rewrite IH; [done|].
    intros y Hy. apply Hfg. by apply list_elem_of_further. }
  apply Hfa. intros t Ht%elem_of_seq. apply Hfa. intros i Hi%elem_of_seq.
  apply Hext. split; lia.
Qed.

Lemma outcome_ext a b :
  memory a = memory b → loadvalues a = loadvalues b → outcome a = outcome b.
Proof.
  intros Hm Hl. unfold outcome, print_mem, print_loads, get_load.
  by rewrite Hm, Hl.
Qed.

Lemma has_po_dependencies_false rule s t i :
  po_inv rule s → valid t i →
  has_po_dependencies s t i = false ↔
  ∀ d, d < num_instrs t → rule t i d = true → get_executed s t d = true.
Proof.
  intros Hpo [Ht Hi]. unfold has_po_dependencies.
  rewrite <- not_true_iff_false, existsb_exists. split.
  - intros Hno d Hd Hr. destruct (get_executed s t d) eqn:Hex; [done|].
    destruct Hno. exists d. split; [apply in_seq; lia|].
    rewrite Hpo by done. by rewrite Hex, Hr.
  - intros Hall (d & Hd%in_seq & Hg). rewrite Hpo in Hg by (done || lia).
    apply andb_prop in Hg as [Hex Hr]. rewrite (Hall d) in Hex by (done || lia).
    done.
Qed.

Lemma rule_tso_ibm t d i : rule_tso t d i = true → rule_ibm t d i = true.
Proof.
  unfold rule_tso, rule_ibm, edge_tso, edge_ibm.
  destruct (i <? d); simpl; [|done].
  destruct (store (instr_at t i)); [|done]. by intros ->.
Qed.

Lemma prevstores_executed s t i k :
  (∀ d, d < k → store (instr_at t d) = true →
        mem (instr_at t d) = mem (instr_at t i) → get_executed s t d = true) →
  is_prevstore_scan t i k = true → is_prevstore_executed_scan s t i k = true.
Proof.
  induction k as [|k IH]; intros Hall; simpl; [done|].
  destruct (store (instr_at t k)) eqn:Hst; simpl.
  - destruct (String.eqb_spec (mem (instr_at t k)) (mem (instr_at t i))) as [Heq|Hne].
    + intros _. by rewrite (Hall k) by (done || lia).
    + apply IH. intros d Hd. apply Hall. lia.
  - apply IH. intros d Hd. apply Hall. lia.
Qed.

Lemma ibm_ready_no_forwarding a b t i f :
  aligned a b → valid t i → store (instr_at t i) = false →
  has_po_dependencies a t i = false →
  forwarding b t i = Ok f → f = false.
Proof.
  intros (Ha & Hb & Hex & _) Hv Hst Hdeps.
  rewrite (has_po_dependencies_false rule_ibm) in Hdeps by (done || apply Ha).
  unfold forwarding, is_prevstore, is_prevstore_executed. rewrite Hst. simpl.
  destruct (is_prevstore_scan t i i) eqn:Hscan; simpl; [|by intros [= <-]].
  rewrite (prevstores_executed b t i i); [by intros [= <-]| |done].
  intros d Hd Hsd Hmd. destruct Hv as [Ht Hi].
  rewrite <- Hex by (split; lia). apply Hdeps; [lia|].
  unfold rule_ibm, edge_ibm. rewrite Hsd, Hst, Hmd, String.eqb_refl.
  simpl. destruct (Nat.ltb_spec d i); [done|lia].
Qed.

Lemma ibm_ready_tso_ready a b t i :
  aligned a b → valid t i →
  has_po_dependencies a t i = false → has_po_dependencies b t i = false.
Proof.
  intros (Ha & Hb & Hex & _) Hv.
  rewrite (has_po_dependencies_false rule_ibm) by (done || apply Ha).
  rewrite (has_po_dependencies_false rule_tso) by (done || apply Hb).
  intros Hall d Hd Hr. destruct Hv as [Ht Hi].
  rewrite <- Hex by (split; lia). apply Hall; [done|]. by apply rule_tso_ibm.
Qed.

Lemma aligned_frame a b a' b' :
  same_frame a a' → same_frame b b' → aligned a b → aligned a' b'.
Proof.
  intros Ha Hb (Hia & Hib & Hex & Hm & Hl). split_and!.
  - by eapply search_inv_frame.
  - by eapply search_inv_frame.
  - destruct Ha as (_ & Hea & _), Hb as (_ & Heb & _).
    intros t i Hv. unfold get_executed. rewrite Hea, Heb. by apply Hex.
  - destruct Ha as (_ & _ & -> & _), Hb as (_ & _ & -> & _). done.
  - destruct Ha as (_ & _ & _ & ->), Hb as (_ & _ & _ & ->). done.
Qed.

Lemma aligned_execute a b t i old_a a1 :
  aligned a b → valid t i → get_executed a t i = false →
  has_po_dependencies a t i = false →
  ibm_execute a t i = Ok (old_a, a1) →
  ∃ old_b b1,
    tso_execute b t i = Ok (old_b, b1) ∧ aligned a1 b1 ∧
    unexecuted b1 < unexecuted b ∧
    solutions_ibm a1 = solutions_ibm a ∧ solutions_tso b1 = solutions_tso b ∧
    (∀ a2, same_frame a1 a2 → ibm_reverse a2 t i old_a = Ok (restore a a2)) ∧
    (∀ rec b2, same_frame b1 b2 → tso_second rec b2 t i = Ok b2) ∧
    (∀ b3, same_frame b1 b3 → tso_reverse b3 t i old_b = Ok (restore b b3)).
Proof.
  intros Hal Hv Hex Hdeps Hexec.
  pose proof Hal as (Hia & Hib & Hexe & Hm & Hl).
  destruct (ibm_execute_spec a t i Hia Hv Hex)
    as (old & a1' & Hexec' & Hia1 & _ & Hsa & _ & Hea & Heff & Hrev).
  rewrite Hexec in Hexec'. injection Hexec' as <- <-.
  assert (get_executed b t i = false) as Hexb by (by rewrite <- Hexe).
  destruct (tso_execute_spec b t i Hib Hv Hexb)
    as (old_b & b1 & f & Hexecb & Hib1 & Hltb & _ & Hsb & Heb & Heffb & Hsec & Hrevb).
  exists old_b, b1. split; [done|].
  assert (f = false ∧ memory a1 = memory b1 ∧ loadvalues a1 = loadvalues b1)
    as (-> & Hm1 & Hl1).
  { destruct (store (instr_at t i)) eqn:Hst.
    - destruct Heff as (Hua & Hla), Heffb as (-> & Hub & Hlb).
      rewrite Hm, Hub in Hua. injection Hua as -> Hmm. split_and!; congruence.
    - destruct Heff as (v & Hg & Hma & Hla), Heffb as (Hf & Hmb & v' & Hg' & Hlb).
      pose proof (ibm_ready_no_forwarding a b t i f Hal Hv Hst Hdeps Hf) as ->.
      rewrite <- Hm, Hg in Hg'. injection Hg' as <-.
      split_and!; congruence. }
  split_and!; try done.
  split_and!; try done. intros t' i' Hv'. unfold get_executed.
  rewrite Hea, Heb.
  destruct (decide ((t, i) = (t', i'))) as [[= <- <-]|Hne].
  - destruct (valid_bounds t i Hbounded Hv).
    destruct Hia as [(_ & ? & _) _ _ _], Hib as [(_ & ? & _) _ _ _].
    by rewrite !(get2_set2_eq false MAX_THREADS MAX_INSTRUCTIONS).
  - rewrite !get2_set2_ne by done. by apply Hexe.
Qed.

Lemma sim_step rec_i rec_t a b a' b' t i :
  (∀ x, search_inv rule_ibm x → wp True (rec_i x) (ibm_post x)) →
  (∀ x, search_inv rule_tso x → wp True (rec_t x) (tso_post x)) →
  (∀ x y x' y', aligned x y → rec_i x = Ok x' → rec_t y = Ok y' →
     ∀ o, o ∈ solutions_ibm x' → o ∈ solutions_ibm x ∨ o ∈ solutions_tso y') →
  aligned a b → valid t i →
  ibm_step rec_i t i a = Ok a' → tso_step rec_t t i b = Ok b' →
  ibm_post a a' ∧ tso_post b b' ∧
  ∀ o, o ∈ solutions_ibm a' → o ∈ solutions_ibm a ∨ o ∈ solutions_tso b'.
Proof.
  intros Hci Hct Hsim Hal Hv Hi Ht.
  pose proof Hal as (Hia & Hib & Hexe & Hm & Hl).
  assert (ibm_post a a') as Hpa.
  { eapply wp_inv_ok; [|exact Hi]. apply (ibm_step_post True); auto. }
  assert (tso_post b b') as Hpb.
  { eapply wp_inv_ok; [|exact Ht]. apply (tso_step_post True); auto. }
  split; [done|]. split; [done|].
  unfold ibm_step in Hi.
  destruct (get_executed a t i) eqn:Hex; simpl in Hi; [injection Hi as <-; auto|].
  destruct (has_po_dependencies a t i) eqn:Hdeps; simpl in Hi;
    [injection Hi as <-; auto|].
  apply bind_ok in Hi as ([old_a a1] & Hexec & Hi).
  apply bind_ok in Hi as (a2 & Hexp & Hrev).
  destruct (aligned_execute a b t i old_a a1 Hal Hv Hex Hdeps Hexec)
    as (old_b & b1 & Hexecb & Hal1 & Hltb & Hsa & Hsb & Hreva & Hsec & Hrevb).
  unfold tso_step in Ht. rewrite <- Hexe, Hex in Ht by done.
  rewrite (ibm_ready_tso_ready a b t i Hal Hv Hdeps) in Ht. simpl in Ht.
  rewrite Hexecb in Ht. simpl in Ht.
  apply bind_ok in Ht as (b2 & Hexpb & Ht).
  pose proof Hal1 as (Hia1 & Hib1 & Hexe1 & Hm1 & Hl1).
  assert (ibm_post a1 a2) as (Hfa2 & _ & _).
  { eapply wp_inv_ok; [|exact Hexp].
    apply (ibm_explore_post True rule_ibm rec_i a a1); auto.
    destruct (ibm_execute_spec a t i Hia Hv Hex) as (? & ? & Heq & _ & Hlt & _).
    rewrite Hexec in Heq. by injection Heq as <- <-. }
  assert (tso_post b1 b2) as (Hfb2 & _ & _).
  { eapply wp_inv_ok; [|exact Hexpb].
    apply (tso_explore_post True rule_tso rec_t b b1); auto. }
  rewrite (Hsec rec_t b2 Hfb2) in Ht. simpl in Ht.
  rewrite (Hrevb b2 Hfb2) in Ht. injection Ht as <-.
  rewrite (Hreva a2 Hfa2) in Hrev. injection Hrev as <-.
  simpl. intros o Ho.
  unfold ibm_explore in Hexp. unfold tso_explore in Hexpb.
  rewrite <- (all_executed_ext a1 b1 Hexe1) in Hexpb.
  destruct (all_executed a1).
  - injection Hexp as <-. injection Hexpb as <-. simpl in *.
    assert (o = outcome a1 ∨ o ∈ solutions_ibm a1) as [->|Ho'] by set_solver.
    + right. rewrite (outcome_ext a1 b1) by done. set_solver.
    + left. by rewrite <- Hsa.
  - destruct (Hsim a1 b1 a2 b2 Hal1 Hexp Hexpb o Ho) as [Ho'|Ho']; [|by right].
    left. by rewrite <- Hsa.
Qed.

Lemma sim_loop rec_i rec_t l :
  (∀ x, search_inv rule_ibm x → wp True (rec_i x) (ibm_post x)) →
  (∀ x, search_inv rule_tso x → wp True (rec_t x) (tso_post x)) →
  (∀ x y x' y', aligned x y → rec_i x = Ok x' → rec_t y = Ok y' →
     ∀ o, o ∈ solutions_ibm x' → o ∈ solutions_ibm x ∨ o ∈ solutions_tso y') →
  (∀ c, c ∈ l → valid c.1 c.2) →
  ∀ a b a' b', aligned a b →
    loop_list (λ c, ibm_step rec_i c.1 c.2) l a = Ok a' →
    loop_list (λ c, tso_step rec_t c.1 c.2) l b = Ok b' →
    ibm_post a a' ∧ tso_post b b' ∧
    ∀ o, o ∈ solutions_ibm a' → o ∈ solutions_ibm a ∨ o ∈ solutions_tso b'.
Proof.
  intros Hci Hct Hsim. induction l as [|c l IH]; intros Hval a b a' b' Hal Hi Ht.
  - simpl in *. injection Hi as <-. injection Ht as <-.
    split; [done|]. split; [done|]. auto.
  - simpl in Hi, Ht.
    apply bind_ok in Hi as (a1 & Hi1 & Hi). apply bind_ok in Ht as (b1 & Ht1 & Ht).
    destruct (sim_step rec_i rec_t a b a1 b1 c.1 c.2) as (Hpa & Hpb & Hinc);
      [done..|apply Hval, list_elem_of_here|done|done|].
    destruct (IH (λ c' Hc', Hval c' (list_elem_of_further _ _ _ Hc')) a1 b1 a' b')
      as (Hpa' & Hpb' & Hinc'); [|done..|].
    { destruct Hpa as (? & _), Hpb as (? & _). by eapply aligned_frame. }
    split; [by eapply ibm_post_trans|]. split; [by eapply tso_post_trans|].
    intros o Ho. destruct (Hinc' o Ho) as [Ho1|Ho1]; [|by right].
    destruct (Hinc o Ho1) as [Ho2|Ho2]; [by left|].
    right. destruct Hpb' as (_ & Hsub & _). by apply Hsub.
Qed.

Lemma sim_search fuel_i :
  ∀ fuel_t a b a' b', aligned a b →
    get_possible_executions_ibm fuel_i a = Ok a' →
    get_possible_executions_tso fuel_t b = Ok b' →
    ∀ o, o ∈ solutions_ibm a' → o ∈ solutions_ibm a ∨ o ∈ solutions_tso b'.
Proof.
  assert (∀ rec_i rec_t,
    (∀ x, search_inv rule_ibm x → wp True (rec_i x) (ibm_post x)) →
    (∀ x, search_inv rule_tso x → wp True (rec_t x) (tso_post x)) →
    (∀ x y x' y', aligned x y → rec_i x = Ok x' → rec_t y = Ok y' →
       ∀ o, o ∈ solutions_ibm x' → o ∈ solutions_ibm x ∨ o ∈ solutions_tso y') →
    ∀ a b a' b', aligned a b →
      ibm_body rec_i a = Ok a' → tso_body rec_t b = Ok b' →
      ∀ o, o ∈ solutions_ibm a' → o ∈ solutions_ibm a ∨ o ∈ solutions_tso b')
    as Hbody.
  { intros rec_i rec_t Hci Hct Hsim a b a' b' Hal Hi Ht.
    unfold ibm_body in Hi. unfold tso_body in Ht. rewrite nested_loops in Hi, Ht.
    eapply (sim_loop rec_i rec_t candidates); try done.
    intros [t i] Hc. by apply elem_of_candidates. }
  induction fuel_i as [|fuel_i IH]; intros fuel_t a b a' b' Hal Hi Ht;
    destruct fuel_t as [|fuel_t]; simpl in Hi, Ht;
    refine (Hbody _ _ _ _ _ a b a' b' Hal Hi Ht);
    try (intros; exact I);
    try (intros; by apply ibm_search_partial);
    try (intros; by apply tso_search_partial);
    try (intros; discriminate);
    try (intros; by eapply IH).
Qed.

Lemma main_shape :
  ∃ s1 s2, run_ibm (load_program zero_state) = Ok s1 ∧ run_tso s1 = Ok s2 ∧
    main = Ok s2 ∧
    ibm_post (ibm_start (load_program zero_state)) s1 ∧
    solutions_ibm s2 = solutions_ibm s1 ∧
    solutions_ibm s1 ⊆ solutions_tso s2 ∧
    clean s1.
Proof.
  destruct main_ok as (s1 & s2 & Hr1 & Hr2 & Hmain & Hp1 & Hp2 & Hc1).
  exists s1, s2. split_and!; try done.
  - destruct Hp2 as (_ & _ & ->).
    by destruct (tso_start_inv s1 Hc1) as (_ & _ & _ & _ & _ & ->).
  - destruct (ibm_start_inv _ clean_load_program) as (Hia & Hea & Hma & Hla & Hsa & _).
    destruct (tso_start_inv s1 Hc1) as (Hib & Heb & Hmb & Hlb & _).
    destruct Hp1 as ((_ & _ & Hm1 & Hl1) & _).
    assert (aligned (ibm_start (load_program zero_state)) (tso_start s1)) as Hal.
    { split_and!; try done.
      - intros t i Hv. by rewrite Hea, Heb.
      - congruence.
      - congruence. }
    intros o Ho.
    destruct (sim_search total_instrs total_instrs _ _ s1 s2 Hal Hr1 Hr2 o Ho)
      as [Hin|Hin]; [|done].
    rewrite Hsa in Hin. set_solver.
Qed.

(** C3. Relaxation monotonicity: on every program that fits the arrays,
    [main] runs both searches to the end and every outcome recorded in
    [solutions_ibm] is also recorded in [solutions_tso]. *)
Theorem relaxed_outcomes_include_store_atomic :
  ∃ s, main = Ok s ∧ solutions_ibm s ⊆ solutions_tso s.
Proof.
  destruct main_shape as (s1 & s2 & _ & _ & Hmain & _ & Heq & Hsub & _).
  exists s2. split; [done|]. by rewrite Heq.
Qed.

(** C6. The dependency graphs.  After [build_po_graph_ibm], for two
    instructions [i < d] of a thread, [po[t][d][i]] is set exactly when [i]
    is a store and [d] is a store or names the location of [i], or when [i]
    is a load; after [build_po_graph_tso] the entry is the same except that
    it is clear when [i] is a store and [d] a load of the same location (so
    it is set exactly when [i] is a load or both are stores); for [d <= i]
    the entry is clear in both graphs. *)
Theorem dependency_graph_edges s t d i :
  dims3 (po s) → t < num_threads → d < num_instrs t → i < num_instrs t →
  let I := instr_at t i in
  let D := instr_at t d in
  let ibm := get_po (build_po_graph_ibm s) t d i in
  let tso := get_po (build_po_graph_tso s) t d i in
  (i < d →
     (ibm = true ↔
        (store I = true ∧ (store D = true ∨ mem D = mem I)) ∨ store I = false) ∧
     (tso = true ↔ (store I = true ∧ store D = true) ∨ store I = false) ∧
     (tso = if store I && negb (store D) && bool_decide (mem D = mem I)
            then false else ibm)) ∧
  (d ≤ i → ibm = false ∧ tso = false).
Proof.
  intros Hd Ht Hdn Hin I D ibm tso.
  destruct (build_po_graph_shape rule_ibm add_po_ibm s add_po_ibm_writes Hd)
    as (_ & _ & Hgi).
  destruct (build_po_graph_shape rule_tso add_po_tso s add_po_tso_writes Hd)
    as (_ & _ & Hgt).
  assert (ibm = rule_ibm t d i) as ->.
  { subst ibm. unfold build_po_graph_ibm. rewrite Hgi. by rewrite decide_True. }
  assert (tso = rule_tso t d i) as ->.
  { subst tso. unfold build_po_graph_tso. rewrite Hgt. by rewrite decide_True. }
  unfold rule_ibm, rule_tso, edge_ibm, edge_tso. fold I D. split.
  - intros Hlt. destruct (Nat.ltb_spec i d); [|lia]. simpl.
    destruct (store I), (store D); simpl;
      destruct (String.eqb_spec (mem I) (mem D)) as [Heq|Hne];
      rewrite ?(bool_decide_eq_true_2 (mem D = mem I)) by done;
      rewrite ?(bool_decide_eq_false_2 (mem D = mem I)) by congruence;
      simpl; intuition (reflexivity || discriminate || congruence).
  - intros Hle. destruct (Nat.ltb_spec i d); [lia|]. done.
Qed.

(** C7. A call of either search that is made in a state of the search
    (the arrays have their sizes, the locations are registered, the
    dependency matrix holds the builder's columns of the instructions not
    executed, and those instructions have load result 0) returns, given fuel
    for the instructions not yet executed, and returns with the memory
    values, the load results, the executed markers and the dependency matrix
    it was entered with.  One activation does so as soon as its recursive
    calls do so on the states of the search with fewer instructions left,
    which are the only states it calls itself in; [main] calls both searches
    in such states. *)
Theorem search_restores_state fuel s :
  unexecuted s ≤ fuel →
  (search_inv rule_ibm s →
   ∃ s', get_possible_executions_ibm fuel s = Ok s' ∧
         memory s' = memory s ∧ loadvalues s' = loadvalues s ∧
         executed s' = executed s ∧ po s' = po s) ∧
  (search_inv rule_tso s →
   ∃ s', get_possible_executions_tso fuel s = Ok s' ∧
         memory s' = memory s ∧ loadvalues s' = loadvalues s ∧
         executed s' = executed s ∧ po s' = po s) ∧
  (∀ rec, search_inv rule_ibm s →
     (∀ x, search_inv rule_ibm x → unexecuted x < unexecuted s →
           ∃ x', rec x = Ok x' ∧ ibm_post x x') →
     ∃ s', ibm_body rec s = Ok s' ∧
           memory s' = memory s ∧ loadvalues s' = loadvalues s ∧
           executed s' = executed s ∧ po s' = po s) ∧
  (∀ rec, search_inv rule_tso s →
     (∀ x, search_inv rule_tso x → unexecuted x < unexecuted s →
           ∃ x', rec x = Ok x' ∧ tso_post x x') →
     ∃ s', tso_body rec s = Ok s' ∧
           memory s' = memory s ∧ loadvalues s' = loadvalues s ∧
           executed s' = executed s ∧ po s' = po s) ∧
  (∀ s0, clean s0 →
     search_inv rule_ibm (ibm_start s0) ∧ search_inv rule_tso (tso_start s0)).
Proof.
  intros Hfuel. split_and!.
  - intros Hinv. pose proof (ibm_search_total fuel s Hinv Hfuel) as Hw.
    apply wp_total in Hw as (s' & Hrun & (Hp & He & Hm & Hl) & _). eauto 10.
  - intros Hinv. pose proof (tso_search_total fuel s Hinv Hfuel) as Hw.
    apply wp_total in Hw as (s' & Hrun & (Hp & He & Hm & Hl) & _). eauto 10.
  - intros rec Hinv Hrec.
    assert (wp False (ibm_body rec s) (ibm_post s)) as Hw.
    { apply ibm_body_post; [|done]. intros x Hx Hlt. apply wp_total. eauto. }
    apply wp_total in Hw as (s' & Hrun & (Hp & He & Hm & Hl) & _). eauto 10.
  - intros rec Hinv Hrec.
    assert (wp False (tso_body rec s) (tso_post s)) as Hw.
    { apply tso_body_post; [|done]. intros x Hx Hlt. apply wp_total. eauto. }
    apply wp_total in Hw as (s' & Hrun & (Hp & He & Hm & Hl) & _). eauto 10.
  - intros s0 Hc. split; [by apply ibm_start_inv|by apply tso_start_inv].
Qed.

(** C9. Termination.  One activation of either search returns as soon as
    its recursive calls return on the states that have strictly fewer
    instructions left to execute than the activation was entered with; so
    fuel for as many nested calls as there are instructions not executed is
    enough, that number is at most the instruction count of the program,
    more fuel does not change what a search returns, and [main] runs both
    searches to the end. *)
Theorem searches_terminate :
  (∀ rec s, search_inv rule_ibm s →
     (∀ x, search_inv rule_ibm x → unexecuted x < unexecuted s →
           ∃ x', rec x = Ok x' ∧ ibm_post x x') →
     ∃ s', ibm_body rec s = Ok s') ∧
  (∀ rec s, search_inv rule_tso s →
     (∀ x, search_inv rule_tso x → unexecuted x < unexecuted s →
           ∃ x', rec x = Ok x' ∧ tso_post x x') →
     ∃ s', tso_body rec s = Ok s') ∧
  (∀ fuel s, search_inv rule_ibm s → unexecuted s ≤ fuel →
     ∃ s', get_possible_executions_ibm fuel s = Ok s') ∧
  (∀ fuel s, search_inv rule_tso s → unexecuted s ≤ fuel →
     ∃ s', get_possible_executions_tso fuel s = Ok s') ∧
  (∀ s, unexecuted s ≤ total_instrs) ∧
  (∀ fuel fuel' s s', fuel ≤ fuel' →
     get_possible_executions_ibm fuel s = Ok s' →
     get_possible_executions_ibm fuel' s = Ok s') ∧
  (∀ fuel fuel' s s', fuel ≤ fuel' →
     get_possible_executions_tso fuel s = Ok s' →
     get_possible_executions_tso fuel' s = Ok s') ∧
  ∃ s, main = Ok s.
Proof.
  split_and!.
  - intros rec s Hinv Hrec.
    assert (wp False (ibm_body rec s) (ibm_post s)) as Hw.
    { apply ibm_body_post; [|done]. intros x Hx Hlt. apply wp_total. eauto. }
    apply wp_total in Hw as (s' & ? & _). eauto.
  - intros rec s Hinv Hrec.
    assert (wp False (tso_body rec s) (tso_post s)) as Hw.
    { apply tso_body_post; [|done]. intros x Hx Hlt. apply wp_total. eauto. }
    apply wp_total in Hw as (s' & ? & _). eauto.
  - intros fuel s Hinv Hfuel.
    pose proof (ibm_search_total fuel s Hinv Hfuel) as (s' & ? & _)%wp_total. eauto.
  - intros fuel s Hinv Hfuel.
    pose proof (tso_search_total fuel s Hinv Hfuel) as (s' & ? & _)%wp_total. eauto.
  - apply unexecuted_le_total.
  - apply ibm_fuel_mono.
  - apply tso_fuel_mono.
  - destruct main_ok as (s1 & s2 & _ & _ & Hmain & _). eauto.
Qed.

(** C10. The load-result invariant.  In a state of the search every
    instruction that is not executed has load result 0.  An activation of
    either search calls itself only in such states (its recursive calls need
    to behave on those states alone) and returns in such a state; the whole
    search does so too.  For an instruction that is not executed, writing 0
    back therefore restores the load results as they were before the step. *)
Theorem load_results_zero_unless_executed :
  (∀ rec s,
     dims s → registered s → po_inv rule_ibm s → load_inv s →
     (∀ x, dims x → registered x → po_inv rule_ibm x → load_inv x →
           unexecuted x < unexecuted s →
           ∃ x', rec x = Ok x' ∧ ibm_post x x') →
     ∃ s', ibm_body rec s = Ok s' ∧ load_inv s') ∧
  (∀ rec s,
     dims s → registered s → po_inv rule_tso s → load_inv s →
     (∀ x, dims x → registered x → po_inv rule_tso x → load_inv x →
           unexecuted x < unexecuted s →
           ∃ x', rec x = Ok x' ∧ tso_post x x') →
     ∃ s', tso_body rec s = Ok s' ∧ load_inv s') ∧
  (∀ fuel s, dims s → registered s → po_inv rule_ibm s → load_inv s →
     unexecuted s ≤ fuel →
     ∃ s', get_possible_executions_ibm fuel s = Ok s' ∧ load_inv s') ∧
  (∀ fuel s, dims s → registered s → po_inv rule_tso s → load_inv s →
     unexecuted s ≤ fuel →
     ∃ s', get_possible_executions_tso fuel s = Ok s' ∧ load_inv s') ∧
  load_inv zero_state ∧
  (∀ s t i v, load_inv s → valid t i → get_executed s t i = false →
     (update_load (update_load s t i v).2 t i 0).2 = s).
Proof.
  split_and!.
  - intros rec s Hd Hr Hp Hl Hrec.
    assert (search_inv rule_ibm s) as Hinv by done.
    assert (wp False (ibm_body rec s) (ibm_post s)) as Hw.
    { apply ibm_body_post; [|done]. intros x [? ? ? ?] Hlt. apply wp_total. eauto. }
    apply wp_total in Hw as (s' & ? & Hf & _). exists s'. split; [done|].
    by apply (search_inv_frame rule_ibm s s').
  - intros rec s Hd Hr Hp Hl Hrec.
    assert (search_inv rule_tso s) as Hinv by done.
    assert (wp False (tso_body rec s) (tso_post s)) as Hw.
    { apply tso_body_post; [|done]. intros x [? ? ? ?] Hlt. apply wp_total. eauto. }
    apply wp_total in Hw as (s' & ? & Hf & _). exists s'. split; [done|].
    by apply (search_inv_frame rule_tso s s').
  - intros fuel s Hd Hr Hp Hl Hfuel.
    assert (search_inv rule_ibm s) as Hinv by done.
    pose proof (ibm_search_total fuel s Hinv Hfuel) as (s' & ? & Hf & _)%wp_total.
    exists s'. split; [done|]. by apply (search_inv_frame rule_ibm s s').
  - intros fuel s Hd Hr Hp Hl Hfuel.
    assert (search_inv rule_tso s) as Hinv by done.
    pose proof (tso_search_total fuel s Hinv Hfuel) as (s' & ? & Hf & _)%wp_total.
    exists s'. split; [done|]. by apply (search_inv_frame rule_tso s s').
  - intros t i _ _. apply zero_state_loads.
  - intros s t i v Hl Hv Hex. unfold update_load. simpl.
    rewrite set2_set2. rewrite <- (Hl t i Hv Hex).
    destruct s. unfold with_loadvalues, get_load. simpl. f_equal. apply set2_get2.
Qed.

(** C4 (as the code has it).  When a load executes in the relaxed search
    while the forwarding test holds, the step makes two recursions, one after
    the other, and the load result is the forwarded store value in both: the
    value written before the second recursion is again [get_prevstore], which
    leaves the state as the first recursion returned it.  The committed
    memory value is not recorded for the load in this step. *)
Theorem forwarded_load_recursions rec s t i :
  search_inv rule_tso s → valid t i → get_executed s t i = false →
  has_po_dependencies s t i = false →
  store (instr_at t i) = false →
  forwarding s t i = Ok true →
  (∀ x, search_inv rule_tso x → unexecuted x < unexecuted s →
        ∃ x', rec x = Ok x' ∧ tso_post x x') →
  ∃ v old s1 s2 s3,
    get_prevstore t i = Ok v ∧
    tso_execute s t i = Ok (old, s1) ∧ get_load s1 t i = v ∧
    tso_explore rec s1 = Ok s2 ∧
    tso_second_load s2 t i = Ok s2 ∧ get_load s2 t i = v ∧
    tso_explore rec s2 = Ok s3 ∧
    tso_step rec t i s = Ok (restore s s3).
Proof.
  intros Hinv Hv Hex Hdeps Hst Hfw Hrec.
  destruct (tso_execute_spec s t i Hinv Hv Hex)
    as (old & s1 & f & Hexec & Hinv1 & Hlt & _ & _ & _ & Heff & Hsec & Hrev).
  rewrite Hst in Heff. destruct Heff as (Hf & Hm1 & v & Hval & Hl1).
  rewrite Hfw in Hf. injection Hf as <-.
  assert (∀ x, search_inv rule_tso x → unexecuted x < unexecuted s →
               wp False (rec x) (tso_post x)) as Hrec'.
  { intros x Hx Hltx. apply wp_total. eauto. }
  pose proof (tso_explore_post False rule_tso rec s s1 Hrec' Hinv1 Hlt)
    as (s2 & Hexp & Hf2 & _)%wp_total.
  assert (search_inv rule_tso s2) as Hinv2 by (by eapply search_inv_frame).
  assert (unexecuted s2 < unexecuted s) as Hlt2.
  { destruct Hf2 as (_ & He & _). by rewrite (unexecuted_frame s1 s2). }
  pose proof (tso_explore_post False rule_tso rec s s2 Hrec' Hinv2 Hlt2)
    as (s3 & Hexp3 & Hf3 & _)%wp_total.
  assert (get_load s1 t i = v) as Hg1.
  { unfold get_load. rewrite Hl1.
    destruct (valid_bounds t i Hbounded Hv).
    destruct Hinv as [(_ & _ & ?) _ _ _]. by eapply get2_set2_eq. }
  exists v, old, s1, s2, s3. split_and!; try done.
  - unfold tso_second_load. rewrite Hval. simpl. f_equal.
    destruct Hf2 as (_ & _ & _ & Hl2).
    apply state_eq; simpl; try done. by rewrite Hl2, Hl1, set2_set2.
  - destruct Hf2 as (_ & _ & _ & Hl2). unfold get_load in *. by rewrite Hl2.
  - unfold tso_step. rewrite Hex, Hdeps. simpl. rewrite Hexec. simpl.
    rewrite Hexp. simpl. rewrite (Hsec rec s2 Hf2), Hexp3. simpl.
    apply Hrev. by eapply same_frame_trans.
Qed.

(** ** One thread under the store-atomic search *)

Lemma coherent_frame rule s s' :
  same_frame s s' → coherent rule s → coherent rule s'.
Proof.
  intros (Hp & He & Hm & Hl) [Hn Hmem Hld Hcl].
  assert (∀ x k, last_executed_store s' 0 x k = last_executed_store s 0 x k)
    as Hlast.
  { intros x k. apply last_executed_store_ext. intros j _ _ _.
    unfold get_executed. by rewrite He. }
  split.
  - by rewrite Hm.
  - intros x Hx. unfold get_memvar. rewrite Hm in Hx |- *. rewrite Hlast.
    by apply Hmem.
  - intros i Hi Hst Hex. unfold get_load, get_executed in *.
    rewrite Hl. rewrite He in Hex. by apply Hld.
  - intros d i Hd Hi Hex Hr. unfold get_executed in *. rewrite He in Hex |- *.
    by apply (Hcl d i).
Qed.

Lemma coherent_after_store rule s s1 i old :
  (∀ j, i < j → store (instr_at 0 j) = true → rule 0 j i = true) →
  coherent rule s → valid 0 i → store (instr_at 0 i) = true →
  get_executed s 0 i = false →
  (∀ d, d < num_instrs 0 → rule 0 i d = true → get_executed s 0 d = true) →
  (∀ j, get_executed s1 0 j =
        if decide (j = i) then true else get_executed s 0 j) →
  update_memvar_list (memory s) (mem (instr_at 0 i)) (value (instr_at 0 i))
    = Ok (old, memory s1) →
  loadvalues s1 = loadvalues s →
  mem (instr_at 0 i) ∈ (memory s).*1 →
  coherent rule s1.
Proof.
  intros Hrule [Hn Hmem Hld Hcl] Hv Hst Hex Hdeps Hget1 Hu Hl Hin.
  pose proof Hv as [_ Hi].
  destruct (update_memvar_list_registered (memory s) _ (value (instr_at 0 i)) Hin)
    as (o & m' & Hu' & Hnames & _ & Hg' & _).
  rewrite Hu in Hu'. injection Hu' as <- <-.
  split; [congruence| | |].
  - intros y Hy. rewrite Hnames in Hy. unfold get_memvar.
    destruct (decide (y = mem (instr_at 0 i))) as [->|Hne].
    + rewrite Hg'. f_equal.
      rewrite (last_executed_store_cut s1 0 _ (S i)); [|lia|].
      { simpl. by rewrite Hst, String.eqb_refl, Hget1, decide_True. }
      intros j Hj Hsj _. rewrite Hget1, decide_False by lia.
      destruct (get_executed s 0 j) eqn:Hexj; [|done].
      rewrite <- Hex. symmetry. apply (Hcl j i); [lia|done..|].
      apply Hrule; [lia|done].
    + rewrite (update_memvar_list_other _ _ _ _ _ y Hu) by done.
      rewrite (last_executed_store_ext s s1).
      { by apply Hmem. }
      intros j _ _ Hmj. rewrite Hget1. apply decide_False. congruence.
  - intros i' Hi' Hst' Hex'. rewrite Hget1 in Hex'.
    destruct (decide (i' = i)) as [->|Hne]; [congruence|].
    unfold get_load. rewrite Hl. by apply Hld.
  - intros d i' Hd Hi' Hexd Hr. rewrite Hget1 in Hexd |- *.
    destruct (decide (i' = i)); [done|].
    destruct (decide (d = i)) as [->|Hne]; [by apply Hdeps|by apply (Hcl d i')].
Qed.

Lemma coherent_after_load rule s s1 i v :
  coherent rule s → valid 0 i → store (instr_at 0 i) = false →
  dims2 (loadvalues s) →
  (∀ d, d < num_instrs 0 → rule 0 i d = true → get_executed s 0 d = true) →
  (∀ j, get_executed s1 0 j =
        if decide (j = i) then true else get_executed s 0 j) →
  memory s1 = memory s →
  loadvalues s1 = set2 (loadvalues s) 0 i v →
  v = default 0%Z (last_store 0 (mem (instr_at 0 i)) i) →
  coherent rule s1.
Proof.
  intros [Hn Hmem Hld Hcl] Hv Hst Hdl Hdeps Hget1 Hm1 Hl Hval.
  destruct (valid_bounds 0 i Hbounded Hv) as [Ht0 Hi0].
  assert (∀ y k, last_executed_store s1 0 y k = last_executed_store s 0 y k)
    as Hlast.
  { intros y k. apply last_executed_store_ext. intros j _ Hsj _.
    rewrite Hget1. apply decide_False. congruence. }
  split; [congruence| | |].
  - intros y Hy. unfold get_memvar. rewrite Hm1 in Hy |- *. rewrite Hlast.
    by apply Hmem.
  - intros i' Hi' Hst' Hex'. rewrite Hget1 in Hex'. unfold get_load. rewrite Hl.
    destruct (decide (i' = i)) as [->|Hne].
    + by rewrite (get2_set2_eq _ MAX_THREADS MAX_INSTRUCTIONS).
    + rewrite get2_set2_ne by congruence. by apply Hld.
  - intros d i' Hd Hi' Hexd Hr. rewrite Hget1 in Hexd |- *.
    destruct (decide (i' = i)); [done|].
    destruct (decide (d = i)) as [->|Hne]; [by apply Hdeps|by apply (Hcl d i')].
Qed.

(** The memory value a load reads when nothing after it is executed and
    every store to its location before it is. *)
Lemma load_reads_last_store rule s i :
  (∀ j, i < j → rule 0 j i = true) →
  coherent rule s → valid 0 i → get_executed s 0 i = false →
  mem (instr_at 0 i) ∈ (memory s).*1 →
  (∀ j, j < i → store (instr_at 0 j) = true →
        mem (instr_at 0 j) = mem (instr_at 0 i) → get_executed s 0 j = true) →
  get_memvar s (mem (instr_at 0 i)) =
    Ok (default 0%Z (last_store 0 (mem (instr_at 0 i)) i)).
Proof.
  intros Hrule [Hn Hmem Hld Hcl] [_ Hi] Hex Hin Hprev.
  rewrite (Hmem _ Hin). do 2 f_equal.
  rewrite (last_executed_store_cut s 0 _ i); [|lia|].
  { by apply last_executed_store_all. }
  intros j Hj _ _.
  destruct (decide (j = i)) as [->|Hne]; [done|].
  destruct (get_executed s 0 j) eqn:Hexj; [|done].
  rewrite <- Hex. symmetry. apply (Hcl j i); [lia|done..|].
  apply Hrule. lia.
Qed.

Lemma executed_after_execute s s1 i :
  dims2 (executed s) → valid 0 i →
  executed s1 = set2 (executed s) 0 i true →
  ∀ j, get_executed s1 0 j =
       if decide (j = i) then true else get_executed s 0 j.
Proof.
  intros Hde Hv Hea j. destruct (valid_bounds 0 i Hbounded Hv) as [Ht0 Hi0].
  unfold get_executed. rewrite Hea.
  destruct (decide (j = i)) as [->|Hne].
  - by eapply get2_set2_eq.
  - apply get2_set2_ne. congruence.
Qed.

Lemma coherent_execute s i old s1 :
  search_inv rule_ibm s → coherent rule_ibm s → valid 0 i →
  get_executed s 0 i = false → has_po_dependencies s 0 i = false →
  ibm_execute s 0 i = Ok (old, s1) → coherent rule_ibm s1.
Proof.
  intros Hinv Hcoh Hv Hex Hdeps Hexec.
  destruct (ibm_execute_spec s 0 i Hinv Hv Hex)
    as (old' & s1' & Hexec' & Hinv1 & _ & _ & _ & Hea & Heff & _).
  rewrite Hexec in Hexec'. injection Hexec' as <- <-.
  pose proof Hinv as [(_ & Hde & Hdl) Hreg Hpo _].
  pose proof (Hreg 0 i Hv) as Hin.
  rewrite (has_po_dependencies_false rule_ibm) in Hdeps by done.
  pose proof (executed_after_execute s s1 i Hde Hv Hea) as Hget1.
  destruct (store (instr_at 0 i)) eqn:Hst.
  - destruct Heff as (Hu & Hl).
    apply (coherent_after_store rule_ibm s s1 i old); try done.
    intros j Hj Hsj. unfold rule_ibm, edge_ibm. rewrite Hst, Hsj. simpl.
    destruct (Nat.ltb_spec i j); [done|lia].
  - destruct Heff as (v & Hg & Hm1 & Hl).
    apply (coherent_after_load rule_ibm s s1 i v); try done.
    assert (get_memvar s (mem (instr_at 0 i)) =
              Ok (default 0%Z (last_store 0 (mem (instr_at 0 i)) i))) as Hread.
    { apply (load_reads_last_store rule_ibm); try done.
      - intros j Hj. unfold rule_ibm, edge_ibm. rewrite Hst.
        destruct (Nat.ltb_spec i j); [done|lia].
      - intros j Hj Hsj Hmj. destruct Hv as [_ Hi]. apply Hdeps; [lia|].
        unfold rule_ibm, edge_ibm.
        rewrite Hsj, Hmj, String.eqb_refl, orb_true_r.
        destruct (Nat.ltb_spec j i); [done|lia]. }
    unfold get_memvar in Hread. congruence.
Qed.

(** ** One thread under the relaxed search *)

Lemma get_prevstore_last_store t i k :
  get_prevstore_scan t i k =
    match last_store t (mem (instr_at t i)) k with
    | Some v => Ok v
    | None => AssertFail
    end.
Proof.
  induction k as [|k IH]; simpl; [done|].
  by destruct (store (instr_at t k) && String.eqb _ _).
Qed.

Lemma is_prevstore_last_store t i k :
  is_prevstore_scan t i k = false → last_store t (mem (instr_at t i)) k = None.
Proof.
  induction k as [|k IH]; simpl; [done|].
  by destruct (store (instr_at t k) && String.eqb _ _).
Qed.

Lemma coherent_tso_execute s i old s1 :
  one_store_before_loads 0 →
  search_inv rule_tso s → coherent rule_tso s → valid 0 i →
  get_executed s 0 i = false → has_po_dependencies s 0 i = false →
  tso_execute s 0 i = Ok (old, s1) → coherent rule_tso s1.
Proof.
  intros Hone Hinv Hcoh Hv Hex Hdeps Hexec.
  destruct (tso_execute_spec s 0 i Hinv Hv Hex)
    as (old' & s1' & f & Hexec' & Hinv1 & _ & _ & _ & Hea & Heff & _).
  rewrite Hexec in Hexec'. injection Hexec' as <- <-.
  pose proof Hinv as [(_ & Hde & Hdl) Hreg Hpo _].
  pose proof (Hreg 0 i Hv) as Hin.
  rewrite (has_po_dependencies_false rule_tso) in Hdeps by done.
  pose proof (executed_after_execute s s1 i Hde Hv Hea) as Hget1.
  destruct (store (instr_at 0 i)) eqn:Hst.
  - destruct Heff as (_ & Hu & Hl).
    apply (coherent_after_store rule_tso s s1 i old); try done.
    intros j Hj Hsj. unfold rule_tso, edge_tso. rewrite Hst, Hsj. simpl.
    destruct (Nat.ltb_spec i j); [done|lia].
  - destruct Heff as (Hf & Hm1 & v & Hval & Hl).
    apply (coherent_after_load rule_tso s s1 i v); try done.
    unfold forwarding, is_prevstore, is_prevstore_executed in Hf.
    rewrite Hst in Hf. simpl in Hf.
    destruct (is_prevstore_scan 0 i i) eqn:Hscan; simpl in Hf.
    + injection Hf as <-.
      destruct (is_prevstore_executed_scan s 0 i i) eqn:Hpe; simpl in Hval.
      * assert (get_memvar s (mem (instr_at 0 i)) =
                  Ok (default 0%Z (last_store 0 (mem (instr_at 0 i)) i)))
          as Hread.
        { apply (load_reads_last_store rule_tso); try done.
          - intros j Hj. unfold rule_tso, edge_tso. rewrite Hst.
            destruct (Nat.ltb_spec i j); [done|lia].
          - intros j Hj Hsj Hmj.
            apply is_prevstore_executed_scan_true in Hpe
              as (j' & Hj' & Hsj' & Hmj' & Hexj').
            destruct (decide (j = j')) as [->|Hne]; [done|].
            destruct Hv as [_ Hi]. exfalso.
            destruct (decide (j < j')).
            + by apply (Hone i j j').
            + apply (Hone i j' j); (done || lia). }
        unfold get_memvar in Hread. congruence.
      * unfold get_prevstore in Hval. rewrite Hst in Hval.
        rewrite get_prevstore_last_store in Hval.
        destruct (last_store 0 (mem (instr_at 0 i)) i); [|done].
        by injection Hval as ->.
    + injection Hf as <-. simpl in Hval.
      rewrite (is_prevstore_last_store 0 i i Hscan). simpl.
      assert (get_memvar s (mem (instr_at 0 i)) =
                Ok (default 0%Z (last_store 0 (mem (instr_at 0 i)) i)))
        as Hread.
      { apply (load_reads_last_store rule_tso); try done.
        - intros j Hj. unfold rule_tso, edge_tso. rewrite Hst.
          destruct (Nat.ltb_spec i j); [done|lia].
        - intros j Hj Hsj Hmj.
          pose proof (is_prevstore_last_store 0 i i Hscan) as Hnone.
          assert (∀ k, j < k → last_store 0 (mem (instr_at 0 i)) k ≠ None)
            as Hsome.
          { induction k as [|k IH]; [lia|]. intros Hk. simpl.
            destruct (decide (j = k)) as [->|Hne].
            - by rewrite Hsj, Hmj, String.eqb_refl.
            - destruct (store (instr_at 0 k) && String.eqb _ _); [done|].
              apply IH. lia. }
          by destruct (Hsome i Hj). }
      rewrite (is_prevstore_last_store 0 i i Hscan) in Hread. simpl in Hread.
      unfold get_memvar in Hread. congruence.
Qed.

Lemma forallb_false {A} (f : A → bool) (l : list A) :
  forallb f l = false → ∃ x, x ∈ l ∧ f x = false.
Proof.
  induction l as [|x l IH]; simpl; [done|].
  destruct (f x) eqn:Hx; simpl.
  - intros (y & Hy & Hfy)%IH. exists y. split; [by apply list_elem_of_further|done].
  - intros _. exists x. split; [apply list_elem_of_here|done].
Qed.

Lemma all_executed_spec s :
  all_executed s = true ↔ ∀ t i, valid t i → get_executed s t i = true.
Proof.
  unfold all_executed. rewrite forallb_forall. split.
  - intros Hall t i [Ht Hi]. specialize (Hall t). rewrite forallb_forall in Hall.
    apply Hall; apply in_seq; lia.
  - intros Hall t Ht%in_seq. apply forallb_forall. intros i Hi%in_seq.
    apply Hall. split; lia.
Qed.

Lemma num_instrs_valid t i : i < num_instrs t → valid t i.
Proof.
  intros Hi. split; [|done]. unfold num_instrs in Hi.
  destruct (program !! t) as [th|] eqn:Hth; simpl in Hi; [|lia].
  by eapply lookup_lt_Some.
Qed.

Lemma in_order_shape s0 :
  registered s0 → dims2 (loadvalues s0) →
  (∀ x, x ∈ (memory s0).*1 → get_memvar s0 x = Ok 0%Z) →
  ∃ F, in_order 0 s0 = Ok F ∧ (memory F).*1 = (memory s0).*1 ∧
    (∀ x, x ∈ (memory s0).*1 →
       get_memvar F x = Ok (default 0%Z (last_store 0 x (num_instrs 0)))) ∧
    (∀ i, i < num_instrs 0 → store (instr_at 0 i) = false →
       get_load F 0 i = default 0%Z (last_store 0 (mem (instr_at 0 i)) i)).
Proof.
  intros Hreg Hdl Hzero.
  pose (P := λ (k : nat) (x : State),
    (memory x).*1 = (memory s0).*1 ∧ dims2 (loadvalues x) ∧
    (∀ y, y ∈ (memory s0).*1 →
       get_memvar x y = Ok (default 0%Z (last_store 0 y k))) ∧
    (∀ i, i < k → store (instr_at 0 i) = false →
       get_load x 0 i = default 0%Z (last_store 0 (mem (instr_at 0 i)) i))).
  assert (wp False (in_order 0 s0) (P (0 + num_instrs 0))) as Hw.
  { unfold in_order. apply for_loop_wp.
    { split_and!; [done|done|by apply Hzero|]. intros i Hi. lia. }
    intros k x Hk (Hn & Hd & Hmem & Hld).
    assert (valid 0 k) as Hv by (apply num_instrs_valid; lia).
    destruct (valid_bounds 0 k Hbounded Hv) as [Ht0 Hk0].
    pose proof (Hreg 0 k Hv) as Hin. rewrite <- Hn in Hin.
    unfold in_order_step. destruct (store (instr_at 0 k)) eqn:Hst.
    - destruct (update_memvar_list_registered (memory x) _
                  (value (instr_at 0 k)) Hin)
        as (o & m' & Hu & Hnames & _ & Hg' & _).
      unfold update_memvar. rewrite Hu. simpl. split_and!.
      + simpl. congruence.
      + done.
      + intros y Hy. unfold get_memvar. simpl. rewrite Hst. simpl.
        destruct (String.eqb_spec (mem (instr_at 0 k)) y) as [<-|Hne]; [done|].
        rewrite (update_memvar_list_other _ _ _ _ _ y Hu) by done.
        by apply Hmem.
      + intros i Hi Hsi. destruct (decide (i = k)) as [->|Hne]; [congruence|].
        apply Hld; [lia|done].
    - destruct (get_memvar_list_registered (memory x) _ Hin) as [v Hg].
      unfold get_memvar. rewrite Hg. simpl. split_and!.
      + done.
      + by apply rect_set2.
      + intros y Hy. unfold get_memvar. simpl. rewrite Hst. simpl. by apply Hmem.
      + intros i Hi Hsi. unfold get_load. simpl.
        destruct (decide (i = k)) as [->|Hne].
        * rewrite (get2_set2_eq _ MAX_THREADS MAX_INSTRUCTIONS) by done.
          rewrite Hn in Hin. pose proof (Hmem _ Hin) as Hgx.
          unfold get_memvar in Hgx. congruence.
        * rewrite get2_set2_ne by congruence. apply Hld; [lia|done]. }
  apply wp_total in Hw as (F & HF & Hn & _ & Hmem & Hld). eauto.
Qed.

Lemma coherent_complete rule s F :
  num_threads = 1 → coherent rule s → all_executed s = true →
  (memory F).*1 = (memory (load_program zero_state)).*1 →
  (∀ x, x ∈ (memory (load_program zero_state)).*1 →
     get_memvar F x = Ok (default 0%Z (last_store 0 x (num_instrs 0)))) →
  (∀ i, i < num_instrs 0 → store (instr_at 0 i) = false →
     get_load F 0 i = default 0%Z (last_store 0 (mem (instr_at 0 i)) i)) →
  outcome s = outcome F.
Proof.
  intros Hone [Hn Hmem Hld Hcl] Hall HnF HmemF HldF.
  rewrite all_executed_spec in Hall.
  assert (memory s = memory F) as Hm.
  { apply memory_ext; [congruence| |].
    - rewrite Hn. apply load_program_memory.
    - intros x Hx. pose proof (Hmem x Hx) as Hg. unfold get_memvar in Hg.
      rewrite Hg. rewrite Hn in Hx. pose proof (HmemF x Hx) as HgF.
      unfold get_memvar in HgF. rewrite HgF. do 2 f_equal.
      apply last_executed_store_all. intros j Hj _ _.
      apply Hall. by apply num_instrs_valid. }
  unfold outcome, print_mem. rewrite Hm. f_equal.
  apply print_loads_ext. intros t i Hv Hst.
  assert (t = 0) as -> by (destruct Hv; lia).
  destruct Hv as [_ Hi]. rewrite Hld, HldF; try done.
  apply Hall. by apply num_instrs_valid.
Qed.

Lemma exists_ready rule s :
  (∀ t d i, rule t d i = true → i < d) →
  search_inv rule s → all_executed s = false →
  ∃ t i, valid t i ∧ get_executed s t i = false ∧
         has_po_dependencies s t i = false.
Proof.
  intros Hrule Hinv Hall.
  assert (∃ t i, valid t i ∧ get_executed s t i = false) as (t & i & Hv & Hex).
  { unfold all_executed in Hall.
    apply forallb_false in Hall as (t & Ht%elem_of_seq & Hall).
    apply forallb_false in Hall as (i & Hi%elem_of_seq & Hall).
    exists t, i. split; [split; lia|done]. }
  revert Hv Hex. induction (lt_wf i) as [i _ IH]. intros Hv Hex.
  destruct (forallb (λ j, get_executed s t j) (seq 0 i)) eqn:Hmin.
  - rewrite forallb_forall in Hmin.
    exists t, i. split; [done|]. split; [done|].
    apply (has_po_dependencies_false rule); [apply Hinv|done|].
    intros d Hd Hr. apply Hmin. apply in_seq. apply Hrule in Hr. lia.
  - apply forallb_false in Hmin as (j & Hj%elem_of_seq & Hexj).
    apply (IH j); [lia| |done]. destruct Hv. split; lia.
Qed.

Lemma ibm_single_body o rec s :
  num_threads = 1 →
  (∀ x, coherent rule_ibm x → all_executed x = true → outcome x = o) →
  (∀ x, search_inv rule_ibm x → coherent rule_ibm x → all_executed x = false →
        unexecuted x < unexecuted s → wp False (rec x) (single_post o x)) →
  search_inv rule_ibm s → coherent rule_ibm s → all_executed s = false →
  wp False (ibm_body rec s) (single_post o s).
Proof.
  intros Hone Hdone Hrec Hinv Hcoh Hall.
  destruct (exists_ready rule_ibm s rule_ibm_earlier Hinv Hall)
    as (t0 & i0 & Hv0 & Hex0 & Hdeps0).
  unfold ibm_body. rewrite nested_loops.
  pose (I := λ (pre : list (nat * nat)) (x : State),
    same_frame s x ∧
    (solutions_ibm x = solutions_ibm s ∨
     solutions_ibm x = {[ o ]} ∪ solutions_ibm s) ∧
    ((t0, i0) ∈ pre → solutions_ibm x = {[ o ]} ∪ solutions_ibm s)).
  eapply wp_mono; [apply (loop_list_wp False I)|].
  - split_and!; [done|by left|]. by intros ?%elem_of_nil.
  - intros pre [t i] suf x Hc (Hf & Hsol & Hpre). simpl.
    assert (valid t i) as Hv.
    { apply elem_of_candidates. rewrite Hc. set_solver. }
    assert (t = 0) as -> by (destruct Hv; lia).
    pose proof Hf as (Hp & He & Hm & Hl).
    assert (get_executed x 0 i = get_executed s 0 i) as Hexx.
    { unfold get_executed. by rewrite He. }
    assert (has_po_dependencies x 0 i = has_po_dependencies s 0 i) as Hdx.
    { unfold has_po_dependencies, get_po. by rewrite Hp. }
    assert ((t0, i0) ∈ pre ++ [(0, i)] → (t0, i0) ≠ (0, i) →
            solutions_ibm x = {[ o ]} ∪ solutions_ibm s) as Hskip.
    { intros [Hin|Hin%list_elem_of_singleton]%elem_of_app Hne; [auto|done]. }
    unfold ibm_step.
    destruct (get_executed x 0 i) eqn:Hex; simpl.
    { split_and!; [done..|]. intros Hin. apply Hskip; [done|].
      intros [= -> ->]. congruence. }
    destruct (has_po_dependencies x 0 i) eqn:Hdeps; simpl.
    { split_and!; [done..|]. intros Hin. apply Hskip; [done|].
      intros [= -> ->]. congruence. }
    assert (search_inv rule_ibm x) as Hinvx by (by eapply search_inv_frame).
    assert (coherent rule_ibm x) as Hcohx by (by eapply coherent_frame).
    destruct (ibm_execute_spec x 0 i Hinvx Hv Hex)
      as (old & s1 & Hexec & Hinv1 & Hlt & Hsi & _ & _ & _ & Hrev).
    pose proof (coherent_execute x i old s1 Hinvx Hcohx Hv Hex Hdeps Hexec)
      as Hcoh1.
    rewrite Hexec. simpl. apply wp_bind.
    assert (wp False (ibm_explore rec s1) (single_post o s1)) as Hexp.
    { unfold ibm_explore. destruct (all_executed s1) eqn:Hall1.
      - simpl. split; [done|]. simpl. by rewrite (Hdone s1).
      - apply Hrec; [done..|]. by rewrite <- (unexecuted_frame s x). }
    eapply wp_mono; [exact Hexp|]. intros s2 (Hf2 & Hs2).
    rewrite (Hrev s2 Hf2). simpl.
    assert (solutions_ibm s2 = {[ o ]} ∪ solutions_ibm s) as Hfin.
    { rewrite Hs2, Hsi. destruct Hsol as [->| ->]; [done|]. set_solver. }
    split_and!; [done|by right|done].
  - intros s' (Hf & _ & Hin). split; [done|]. apply Hin.
    by apply elem_of_candidates.
Qed.

Lemma ibm_single_search o fuel s :
  num_threads = 1 →
  (∀ x, coherent rule_ibm x → all_executed x = true → outcome x = o) →
  search_inv rule_ibm s → coherent rule_ibm s → all_executed s = false →
  unexecuted s ≤ fuel →
  wp False (get_possible_executions_ibm fuel s) (single_post o s).
Proof.
  intros Hone Hdone. revert s.
  induction fuel as [|fuel IH]; intros s Hinv Hcoh Hall Hfuel; simpl.
  - apply ibm_single_body; try done. intros x _ _ _ Hlt. lia.
  - apply ibm_single_body; try done. intros x Hx Hcx Hax Hlt.
    apply IH; [done..|lia].
Qed.

Lemma tso_single_body o rec s :
  num_threads = 1 → one_store_before_loads 0 →
  (∀ x, coherent rule_tso x → all_executed x = true → outcome x = o) →
  (∀ x, search_inv rule_tso x → coherent rule_tso x → all_executed x = false →
        unexecuted x < unexecuted s → wp False (rec x) (single_post_tso o x)) →
  search_inv rule_tso s → coherent rule_tso s → all_executed s = false →
  wp False (tso_body rec s) (single_post_tso o s).
Proof.
  intros Hone Hsingle Hdone Hrec Hinv Hcoh Hall.
  destruct (exists_ready rule_tso s rule_tso_earlier Hinv Hall)
    as (t0 & i0 & Hv0 & Hex0 & Hdeps0).
  unfold tso_body. rewrite nested_loops.
  pose (I := λ (pre : list (nat * nat)) (x : State),
    same_frame s x ∧
    (solutions_tso x = solutions_tso s ∨
     solutions_tso x = {[ o ]} ∪ solutions_tso s) ∧
    ((t0, i0) ∈ pre → solutions_tso x = {[ o ]} ∪ solutions_tso s)).
  eapply wp_mono; [apply (loop_list_wp False I)|].
  - split_and!; [done|by left|]. by intros ?%elem_of_nil.
  - intros pre [t i] suf x Hc (Hf & Hsol & Hpre). simpl.
    assert (valid t i) as Hv.
    { apply elem_of_candidates. rewrite Hc. set_solver. }
    assert (t = 0) as -> by (destruct Hv; lia).
    pose proof Hf as (Hp & He & Hm & Hl).
    assert (get_executed x 0 i = get_executed s 0 i) as Hexx.
    { unfold get_executed. by rewrite He. }
    assert (has_po_dependencies x 0 i = has_po_dependencies s 0 i) as Hdx.
    { unfold has_po_dependencies, get_po. by rewrite Hp. }
    assert ((t0, i0) ∈ pre ++ [(0, i)] → (t0, i0) ≠ (0, i) →
            solutions_tso x = {[ o ]} ∪ solutions_tso s) as Hskip.
    { intros [Hin|Hin%list_elem_of_singleton]%elem_of_app Hne; [auto|done]. }
    unfold tso_step.
    destruct (get_executed x 0 i) eqn:Hex; simpl.
    { split_and!; [done..|]. intros Hin. apply Hskip; [done|].
      intros [= -> ->]. congruence. }
    destruct (has_po_dependencies x 0 i) eqn:Hdeps; simpl.
    { split_and!; [done..|]. intros Hin. apply Hskip; [done|].
      intros [= -> ->]. congruence. }
    assert (search_inv rule_tso x) as Hinvx by (by eapply search_inv_frame).
    assert (coherent rule_tso x) as Hcohx by (by eapply coherent_frame).
    destruct (tso_execute_spec x 0 i Hinvx Hv Hex)
      as (old & s1 & f & Hexec & Hinv1 & Hlt & _ & Hst & _ & _ & Hsec & Hrev).
    pose proof (coherent_tso_execute x i old s1 Hsingle Hinvx Hcohx Hv Hex
                  Hdeps Hexec) as Hcoh1.
    rewrite Hexec. simpl.
    assert (∀ y, same_frame s1 y →
              wp False (tso_explore rec y) (single_post_tso o y)) as Hexp.
    { intros y Hy. pose proof Hy as (_ & Hey & _).
      assert (coherent rule_tso y) as Hcy by (by eapply coherent_frame).
      unfold tso_explore. destruct (all_executed y) eqn:Hally.
      - simpl. split; [done|]. simpl. by rewrite (Hdone y).
      - apply Hrec; [by eapply search_inv_frame|done..|].
        rewrite (unexecuted_frame s1 y) by done.
        by rewrite <- (unexecuted_frame s x). }
    apply wp_bind. eapply wp_mono; [by apply Hexp|]. intros s2 (Hf2 & Hs2).
    apply wp_bind. rewrite (Hsec rec s2 Hf2).
    assert (wp False (if f then tso_explore rec s2 else Ok s2)
              (λ s3, same_frame s1 s3 ∧
                     solutions_tso s3 = {[ o ]} ∪ solutions_tso s1)) as Hw.
    { destruct f; [|done].
      eapply wp_mono; [by apply Hexp|]. intros s3 (Hf3 & Hs3). split.
      - by eapply same_frame_trans.
      - rewrite Hs3, Hs2. set_solver. }
    eapply wp_mono; [exact Hw|]. intros s3 (Hf3 & Hs3).
    rewrite (Hrev s3 Hf3). simpl.
    assert (solutions_tso s3 = {[ o ]} ∪ solutions_tso s) as Hfin.
    { rewrite Hs3, Hst. destruct Hsol as [->| ->]; [done|]. set_solver. }
    split_and!; [done|by right|done].
  - intros s' (Hf & _ & Hin). split; [done|]. apply Hin.
    by apply elem_of_candidates.
Qed.

Lemma tso_single_search o fuel s :
  num_threads = 1 → one_store_before_loads 0 →
  (∀ x, coherent rule_tso x → all_executed x = true → outcome x = o) →
  search_inv rule_tso s → coherent rule_tso s → all_executed s = false →
  unexecuted s ≤ fuel →
  wp False (get_possible_executions_tso fuel s) (single_post_tso o s).
Proof.
  intros Hone Hsingle Hdone. revert s.
  induction fuel as [|fuel IH]; intros s Hinv Hcoh Hall Hfuel; simpl.
  - apply tso_single_body; try done. intros x _ _ _ Hlt. lia.
  - apply tso_single_body; try done. intros x Hx Hcx Hax Hlt.
    apply IH; [done..|lia].
Qed.

Lemma coherent_start rule s :
  (∀ t i, valid t i → get_executed s t i = false) →
  memory s = memory (load_program zero_state) →
  coherent rule s.
Proof.
  intros Hex Hm. destruct load_program_memory as [Hzero Hnodup]. split.
  - by rewrite Hm.
  - intros x Hx. unfold get_memvar. rewrite Hm in Hx |- *.
    rewrite last_executed_store_none.
    + by apply get_memvar_list_zero.
    + intros j Hj. apply Hex. by apply num_instrs_valid.
  - intros i Hi _ Hexi. rewrite Hex in Hexi by (by apply num_instrs_valid). done.
  - intros d i Hd _ Hexd. rewrite Hex in Hexd by (by apply num_instrs_valid).
    done.
Qed.

(** C1 (as the code has it).  For a program of exactly one thread with at
    least one instruction, the store-atomic search records exactly one
    outcome, the one obtained by executing the thread's instructions in
    program order (final memory holds the last store to each location, each
    load observes the most recent program-order store to its location, or 0
    if there is none), and the relaxed search records that outcome too; it
    records no other outcome when no load of the thread has two stores to its
    location before it. *)
Theorem single_thread_program_order th :
  program = [th] → th ≠ [] →
  ∃ F s, in_order 0 (load_program zero_state) = Ok F ∧ main = Ok s ∧
    solutions_ibm s = {[ outcome F ]} ∧ outcome F ∈ solutions_tso s ∧
    (one_store_before_loads 0 → solutions_tso s = {[ outcome F ]}) ∧
    (∀ x, x ∈ (memory (load_program zero_state)).*1 →
       get_memvar F x = Ok (default 0%Z (last_store 0 x (length th)))) ∧
    (∀ i, i < length th → store (instr_at 0 i) = false →
       get_load F 0 i = default 0%Z (last_store 0 (mem (instr_at 0 i)) i)).
Proof.
  intros Hprog Hth.
  assert (num_threads = 1) as Hone by (unfold num_threads; by rewrite Hprog).
  assert (num_instrs 0 = length th) as Hn0
    by (unfold num_instrs; by rewrite Hprog).
  assert (0 < num_instrs 0) as Hpos.
  { rewrite Hn0. destruct th; [done|simpl; lia]. }
  set (s0 := load_program zero_state).
  pose proof clean_load_program as Hclean. fold s0 in Hclean.
  pose proof Hclean as ((_ & _ & Hdl0) & Hreg0 & _).
  destruct load_program_memory as [Hzero Hnodup]. fold s0 in Hzero, Hnodup.
  destruct (in_order_shape s0 Hreg0 Hdl0) as (F & HF & HnF & HmemF & HldF).
  { intros x Hx. by apply get_memvar_list_zero. }
  destruct main_shape as (s1 & s2 & Hr1 & Hr2 & Hmain & Hp1 & Heq & Hsub & Hc1).
  fold s0 in Hr1, Hp1.
  destruct (ibm_start_inv s0 Hclean) as (Hinv & Hex & Hma & Hla & Hsa & _).
  destruct (tso_start_inv s1 Hc1) as (Hinvt & Hext & Hmt & Hlt & Hst & _).
  assert (∀ x, (∀ t i, valid t i → get_executed x t i = false) →
               all_executed x = false) as Hnot.
  { intros x Hx. apply not_true_iff_false. rewrite all_executed_spec.
    intros Hall. specialize (Hall 0 0 (num_instrs_valid 0 0 Hpos)).
    rewrite Hx in Hall by (by apply num_instrs_valid). done. }
  assert (∀ rule x, coherent rule x → all_executed x = true →
                    outcome x = outcome F) as Hdone.
  { intros rule x Hx Hax. by apply (coherent_complete rule). }
  pose proof (ibm_single_search (outcome F) total_instrs (ibm_start s0) Hone)
    as Hw.
  unfold run_ibm in Hr1. rewrite Hr1 in Hw.
  destruct Hw as (_ & Hs1); try done.
  { by apply Hdone. }
  { by apply coherent_start. }
  { by apply Hnot. }
  { apply unexecuted_le_total. }
  rewrite Hsa, (right_id_L ∅ (∪)) in Hs1.
  exists F, s2. rewrite <- Hn0. split_and!; try done.
  - by rewrite Heq.
  - apply Hsub. rewrite Hs1. set_solver.
  - intros Hsingle.
    pose proof (tso_single_search (outcome F) total_instrs (tso_start s1)
                  Hone Hsingle) as Hw.
    unfold run_tso in Hr2. rewrite Hr2 in Hw.
    destruct Hw as (_ & Hs2); try done.
    { by apply Hdone. }
    { apply coherent_start; [done|]. rewrite Hmt.
      destruct Hp1 as ((_ & _ & -> & _) & _). done. }
    { by apply Hnot. }
    { apply unexecuted_le_total. }
    by rewrite Hst, (right_id_L ∅ (∪)) in Hs2.
Qed.

(** ** The searches record the complete runs *)

Lemma ibm_execute_restore s x t i :
  ibm_execute (restore s x) t i =
    '(old, s1) ← ibm_execute s t i; Ok (old, restore s1 x).
Proof.
  unfold ibm_execute, update_memvar, get_memvar, update_load. simpl.
  destruct (store (instr_at t i)).
  - destruct (update_memvar_list (memory s) (mem (instr_at t i))
                (value (instr_at t i))) as [[old m]| |]; simpl; [|done..].
    by rewrite !remove_po_eq.
  - destruct (get_memvar_list (memory s) (mem (instr_at t i))) as [v| |];
      simpl; [|done..].
    by rewrite !remove_po_eq.
Qed.

Lemma tso_execute_restore s x t i :
  tso_execute (restore s x) t i =
    '(old, s1) ← tso_execute s t i; Ok (old, restore s1 x).
Proof.
  unfold tso_execute. rewrite !remove_po_eq.
  unfold update_memvar, get_memvar, update_load. simpl.
  destruct (get_memvar_list (memory s) (mem (instr_at t i))) as [old| |];
    simpl; [|done..].
  destruct (store (instr_at t i)) eqn:Hst.
  - destruct (update_memvar_list (memory s) (mem (instr_at t i))
                (value (instr_at t i))) as [[old' m]| |]; simpl; done.
  - unfold forwarding, is_prevstore, is_prevstore_executed. rewrite Hst. simpl.
    destruct (is_prevstore_scan t i i); simpl; [|done].
    rewrite (is_prevstore_executed_scan_ext (set_executed s t i true)) by done.
    rewrite (is_prevstore_executed_scan_ext (set_executed s t i true)
               (with_po (set_executed s t i true) _)) by done.
    destruct (is_prevstore_executed_scan _ t i i); simpl; [done|].
    destruct (get_prevstore t i); simpl; done.
Qed.

Lemma ibm_schedule_frame s x o :
  same_frame s x → ibm_schedule s o → ibm_schedule x o.
Proof.
  intros Hf Hs. revert x Hf.
  induction Hs as [s t i old s1 Hv Hex Hdeps Hexec Hall
                  |s t i old s1 o Hv Hex Hdeps Hexec Hall Hs IH];
    intros x Hf; apply same_frame_restore in Hf; rewrite Hf.
  - apply (ibm_schedule_last _ t i old (restore s1 x)); try done.
    by rewrite ibm_execute_restore, Hexec.
  - apply (ibm_schedule_next _ t i old (restore s1 x)); try done.
    + by rewrite ibm_execute_restore, Hexec.
    + by apply IH.
Qed.

Lemma tso_schedule_frame s x o :
  same_frame s x → tso_schedule s o → tso_schedule x o.
Proof.
  intros Hf Hs. revert x Hf.
  induction Hs as [s t i old s1 Hv Hex Hdeps Hexec Hall
                  |s t i old s1 o Hv Hex Hdeps Hexec Hall Hs IH];
    intros x Hf; apply same_frame_restore in Hf; rewrite Hf.
  - apply (tso_schedule_last _ t i old (restore s1 x)); try done.
    by rewrite tso_execute_restore, Hexec.
  - apply (tso_schedule_next _ t i old (restore s1 x)); try done.
    + by rewrite tso_execute_restore, Hexec.
    + by apply IH.
Qed.

Lemma same_frame_sym s x : same_frame s x → same_frame x s.
Proof. intros (? & ? & ? & ?). by split_and!. Qed.

Lemma ibm_rest_frame s x o : same_frame s x → ibm_rest s o ↔ ibm_rest x o.
Proof.
  intros Hf. pose proof (same_frame_sym _ _ Hf) as Hf'.
  apply same_frame_restore in Hf. rewrite Hf. unfold ibm_rest.
  change (all_executed (restore s x)) with (all_executed s).
  change (outcome (restore s x)) with (outcome s).
  destruct (all_executed s); [done|]. rewrite <- Hf.
  split; apply ibm_schedule_frame; [by apply same_frame_sym|done].
Qed.

Lemma tso_rest_frame s x o : same_frame s x → tso_rest s o ↔ tso_rest x o.
Proof.
  intros Hf. pose proof (same_frame_sym _ _ Hf) as Hf'.
  apply same_frame_restore in Hf. rewrite Hf. unfold tso_rest.
  change (all_executed (restore s x)) with (all_executed s).
  change (outcome (restore s x)) with (outcome s).
  destruct (all_executed s); [done|]. rewrite <- Hf.
  split; apply tso_schedule_frame; [by apply same_frame_sym|done].
Qed.

Lemma ibm_schedule_from_frame s x t i o :
  same_frame s x → ibm_schedule_from s t i o → ibm_schedule_from x t i o.
Proof.
  intros Hf (Hex & Hdeps & old & s1 & Hexec & Hrest).
  apply same_frame_restore in Hf. rewrite Hf.
  split; [done|]. split; [done|]. exists old, (restore s1 x).
  rewrite ibm_execute_restore, Hexec. split; [done|].
  by apply (ibm_rest_frame s1 (restore s1 x)).
Qed.

Lemma tso_schedule_from_frame s x t i o :
  same_frame s x → tso_schedule_from s t i o → tso_schedule_from x t i o.
Proof.
  intros Hf (Hex & Hdeps & old & s1 & Hexec & Hrest).
  apply same_frame_restore in Hf. rewrite Hf.
  split; [done|]. split; [done|]. exists old, (restore s1 x).
  rewrite tso_execute_restore, Hexec. split; [done|].
  by apply (tso_rest_frame s1 (restore s1 x)).
Qed.

Lemma ibm_schedule_iff s o :
  ibm_schedule s o ↔ ∃ t i, valid t i ∧ ibm_schedule_from s t i o.
Proof.
  split.
  - intros Hs. destruct Hs as [s t i old s1 Hv Hex Hdeps Hexec Hall
                              |s t i old s1 o Hv Hex Hdeps Hexec Hall Hs];
      exists t, i; (split; [done|]); split_and!; try done;
      exists old, s1; (split; [done|]); unfold ibm_rest; by rewrite Hall.
  - intros (t & i & Hv & Hex & Hdeps & old & s1 & Hexec & Hrest).
    unfold ibm_rest in Hrest. destruct (all_executed s1) eqn:Hall.
    + subst o. by eapply ibm_schedule_last.
    + by eapply ibm_schedule_next.
Qed.

Lemma tso_schedule_iff s o :
  tso_schedule s o ↔ ∃ t i, valid t i ∧ tso_schedule_from s t i o.
Proof.
  split.
  - intros Hs. destruct Hs as [s t i old s1 Hv Hex Hdeps Hexec Hall
                              |s t i old s1 o Hv Hex Hdeps Hexec Hall Hs];
      exists t, i; (split; [done|]); split_and!; try done;
      exists old, s1; (split; [done|]); unfold tso_rest; by rewrite Hall.
  - intros (t & i & Hv & Hex & Hdeps & old & s1 & Hexec & Hrest).
    unfold tso_rest in Hrest. destruct (all_executed s1) eqn:Hall.
    + subst o. by eapply tso_schedule_last.
    + by eapply tso_schedule_next.
Qed.

Lemma ibm_explore_exact E rec s s1 :
  (∀ x, search_inv rule_ibm x → unexecuted x < unexecuted s →
        wp E (rec x) (ibm_exact x)) →
  search_inv rule_ibm s1 → unexecuted s1 < unexecuted s →
  wp E (ibm_explore rec s1) (λ s2,
    ibm_post s1 s2 ∧
    ∀ o, o ∈ solutions_ibm s2 ↔ o ∈ solutions_ibm s1 ∨ ibm_rest s1 o).
Proof.
  intros Hrec Hinv Hlt. unfold ibm_explore, ibm_rest.
  destruct (all_executed s1); [|by apply Hrec].
  simpl. split.
  - split_and!; [done| |done]. simpl. set_solver.
  - intros o. simpl. set_solver.
Qed.

Lemma tso_explore_exact E rec s s1 s2 :
  (∀ x, search_inv rule_tso x → unexecuted x < unexecuted s →
        wp E (rec x) (tso_exact x)) →
  search_inv rule_tso s1 → unexecuted s1 < unexecuted s → same_frame s1 s2 →
  wp E (tso_explore rec s2) (λ s3,
    tso_post s2 s3 ∧
    ∀ o, o ∈ solutions_tso s3 ↔ o ∈ solutions_tso s2 ∨ tso_rest s1 o).
Proof.
  intros Hrec Hinv Hlt Hf.
  assert (∀ o, tso_rest s1 o ↔ tso_rest s2 o) as Hrest
    by (intros o; by apply tso_rest_frame).
  unfold tso_explore. destruct (all_executed s2) eqn:Hall.
  - simpl. split.
    + split_and!; [done| |done]. simpl. set_solver.
    + intros o. rewrite Hrest. unfold tso_rest. rewrite Hall. simpl. set_solver.
  - eapply wp_mono.
    + apply Hrec; [by eapply search_inv_frame|].
      destruct Hf as (_ & He & _). by rewrite (unexecuted_frame s1 s2).
    + intros s3 [Hp Hs]. split; [done|]. intros o.
      rewrite Hs, Hrest. unfold tso_rest. by rewrite Hall.
Qed.

Lemma ibm_exact_body E rec s :
  (∀ x, search_inv rule_ibm x → unexecuted x < unexecuted s →
        wp E (rec x) (ibm_exact x)) →
  search_inv rule_ibm s →
  wp E (ibm_body rec s) (ibm_exact s).
Proof.
  intros Hrec Hinv. unfold ibm_body. rewrite nested_loops.
  eapply wp_mono.
  { apply (loop_list_wp E (λ pre x, ibm_post s x ∧
      ∀ o, o ∈ solutions_ibm x ↔
           o ∈ solutions_ibm s ∨
           ∃ c, c ∈ pre ∧ ibm_schedule_from s c.1 c.2 o)).
    { split; [apply ibm_post_refl|]. intros o. split; [auto|].
      intros [?|(c & Hc%elem_of_nil & _)]; done. }
    intros pre [t i] suf x Hc (Hpost & Hsol). simpl.
    assert (valid t i) as Hv.
    { apply elem_of_candidates. rewrite Hc. set_solver. }
    pose proof Hpost as (Hf & Hsub & Htso).
    assert (search_inv rule_ibm x) as Hinvx by (by eapply search_inv_frame).
    assert (unexecuted x = unexecuted s) as Hun.
    { destruct Hf as (_ & He & _). by apply unexecuted_frame. }
    assert (∀ o, (o ∈ solutions_ibm s ∨
                  ∃ c, c ∈ pre ++ [(t, i)] ∧ ibm_schedule_from s c.1 c.2 o) ↔
                 (o ∈ solutions_ibm x ∨ ibm_schedule_from x t i o)) as Hsplit.
    { intros o. rewrite Hsol. split.
      - intros [?|(c & [Hc'|Hc'%list_elem_of_singleton]%elem_of_app & Hfr)].
        + by left; left.
        + left; right. by exists c.
        + subst c. right. by apply (ibm_schedule_from_frame s x).
      - intros [[?|(c & Hc' & Hfr)]|Hfr].
        + by left.
        + right. exists c. split; [set_solver|done].
        + right. exists (t, i). split; [set_solver|].
          apply (ibm_schedule_from_frame x s); [by apply same_frame_sym|done]. }
    unfold ibm_step.
    destruct (get_executed x t i) eqn:Hex; simpl.
    { split; [done|]. intros o. rewrite Hsplit. split; [by left|].
      intros [?|(Hex' & _)]; [done|congruence]. }
    destruct (has_po_dependencies x t i) eqn:Hdeps; simpl.
    { split; [done|]. intros o. rewrite Hsplit. split; [by left|].
      intros [?|(_ & Hd' & _)]; [done|congruence]. }
    destruct (ibm_execute_spec x t i Hinvx Hv Hex)
      as (old & s1 & Hexec & Hinv1 & Hlt & Hsi & Hst & _ & _ & Hrev).
    rewrite Hexec. simpl. apply wp_bind.
    eapply wp_mono.
    { apply (ibm_explore_exact E rec s s1); [done|done|lia]. }
    intros s2 ((Hf2 & Hs2 & Ht2) & Hsol2).
    rewrite (Hrev s2 Hf2). simpl. split.
    - split_and!; [done|simpl..].
      + rewrite <- Hsi in Hsub. by etrans.
      + by rewrite Ht2, Hst.
    - intros o. simpl. rewrite Hsplit, Hsol2, Hsi.
      unfold ibm_schedule_from. rewrite Hexec. split.
      + intros [?|Hr]; [by left|right]. split_and!; try done. by exists old, s1.
      + intros [?|(_ & _ & old' & s1' & [= <- <-] & Hr)]; [by left|by right]. }
  intros s' [Hpost Hsol]. split; [done|]. intros o.
  rewrite Hsol, ibm_schedule_iff. split; (intros [?|H]; [by left|right]).
  - destruct H as ([t i] & Hc%elem_of_candidates & Hfr). by exists t, i.
  - destruct H as (t & i & Hv & Hfr). exists (t, i).
    split; [by apply elem_of_candidates|done].
Qed.

Lemma tso_exact_body E rec s :
  (∀ x, search_inv rule_tso x → unexecuted x < unexecuted s →
        wp E (rec x) (tso_exact x)) →
  search_inv rule_tso s →
  wp E (tso_body rec s) (tso_exact s).
Proof.
  intros Hrec Hinv. unfold tso_body. rewrite nested_loops.
  eapply wp_mono.
  { apply (loop_list_wp E (λ pre x, tso_post s x ∧
      ∀ o, o ∈ solutions_tso x ↔
           o ∈ solutions_tso s ∨
           ∃ c, c ∈ pre ∧ tso_schedule_from s c.1 c.2 o)).
    { split; [apply tso_post_refl|]. intros o. split; [auto|].
      intros [?|(c & Hc%elem_of_nil & _)]; done. }
    intros pre [t i] suf x Hc (Hpost & Hsol). simpl.
    assert (valid t i) as Hv.
    { apply elem_of_candidates. rewrite Hc. set_solver. }
    pose proof Hpost as (Hf & Hsub & Hibm).
    assert (search_inv rule_tso x) as Hinvx by (by eapply search_inv_frame).
    assert (unexecuted x = unexecuted s) as Hun.
    { destruct Hf as (_ & He & _). by apply unexecuted_frame. }
    assert (∀ o, (o ∈ solutions_tso s ∨
                  ∃ c, c ∈ pre ++ [(t, i)] ∧ tso_schedule_from s c.1 c.2 o) ↔
                 (o ∈ solutions_tso x ∨ tso_schedule_from x t i o)) as Hsplit.
    { intros o. rewrite Hsol. split.
      - intros [?|(c & [Hc'|Hc'%list_elem_of_singleton]%elem_of_app & Hfr)].
        + by left; left.
        + left; right. by exists c.
        + subst c. right. by apply (tso_schedule_from_frame s x).
      - intros [[?|(c & Hc' & Hfr)]|Hfr].
        + by left.
        + right. exists c. split; [set_solver|done].
        + right. exists (t, i). split; [set_solver|].
          apply (tso_schedule_from_frame x s); [by apply same_frame_sym|done]. }
    unfold tso_step.
    destruct (get_executed x t i) eqn:Hex; simpl.
    { split; [done|]. intros o. rewrite Hsplit. split; [by left|].
      intros [?|(Hex' & _)]; [done|congruence]. }
    destruct (has_po_dependencies x t i) eqn:Hdeps; simpl.
    { split; [done|]. intros o. rewrite Hsplit. split; [by left|].
      intros [?|(_ & Hd' & _)]; [done|congruence]. }
    destruct (tso_execute_spec x t i Hinvx Hv Hex)
      as (old & s1 & f & Hexec & Hinv1 & Hlt & Hsi & Hst & _ & _ & Hsec & Hrev).
    rewrite Hexec. simpl. apply wp_bind.
    eapply wp_mono.
    { apply (tso_explore_exact E rec s s1 s1); [done|done|lia|done]. }
    intros s2 ((Hf2 & Hs2 & Ht2) & Hsol2).
    apply wp_bind. rewrite (Hsec rec s2 Hf2).
    assert (wp E (if f then tso_explore rec s2 else Ok s2) (λ s3,
              tso_post s2 s3 ∧
              ∀ o, o ∈ solutions_tso s3 ↔ o ∈ solutions_tso s2 ∨ tso_rest s1 o))
      as Hw.
    { destruct f.
      - apply (tso_explore_exact E rec s s1 s2); [done|done|lia|done].
      - simpl. split; [apply tso_post_refl|]. intros o. rewrite Hsol2. tauto. }
    eapply wp_mono; [exact Hw|].
    intros s3 ((Hf3 & Hs3 & Ht3) & Hsol3).
    rewrite (Hrev s3); [|by eapply same_frame_trans].
    simpl. split.
    - split_and!; [done|simpl..].
      + rewrite <- Hst in Hsub. etrans; [exact Hsub|]. by etrans.
      + by rewrite Ht3, Ht2, Hsi.
    - intros o. simpl. rewrite Hsplit, Hsol3, Hsol2, Hst.
      unfold tso_schedule_from. rewrite Hexec. split.
      + intros [[?|Hr]|Hr]; [by left|right..];
          (split_and!; try done; by exists old, s1).
      + intros [?|(_ & _ & old' & s1' & [= <- <-] & Hr)];
          [by left; left|by right]. }
  intros s' [Hpost Hsol]. split; [done|]. intros o.
  rewrite Hsol, tso_schedule_iff. split; (intros [?|H]; [by left|right]).
  - destruct H as ([t i] & Hc%elem_of_candidates & Hfr). by exists t, i.
  - destruct H as (t & i & Hv & Hfr). exists (t, i).
    split; [by apply elem_of_candidates|done].
Qed.

Lemma ibm_exact_total fuel s :
  search_inv rule_ibm s → unexecuted s ≤ fuel →
  wp False (get_possible_executions_ibm fuel s) (ibm_exact s).
Proof.
  revert s. induction fuel as [|fuel IH]; intros s Hinv Hle; simpl.
  - apply ibm_exact_body; [|done]. intros x _ Hlt. lia.
  - apply ibm_exact_body; [|done]. intros x Hx Hlt. apply IH; [done|lia].
Qed.

Lemma tso_exact_total fuel s :
  search_inv rule_tso s → unexecuted s ≤ fuel →
  wp False (get_possible_executions_tso fuel s) (tso_exact s).
Proof.
  revert s. induction fuel as [|fuel IH]; intros s Hinv Hle; simpl.
  - apply tso_exact_body; [|done]. intros x _ Hlt. lia.
  - apply tso_exact_body; [|done]. intros x Hx Hlt. apply IH; [done|lia].
Qed.

(** ** Readiness, and the column of an instruction *)

(** X6. In a state of a search, an instruction waits for nothing exactly
    when every earlier instruction of its thread that is not executed may be
    overtaken by it: in the store-atomic search, a store to another location
    overtaken by a load; in the relaxed search, any store overtaken by a
    load. *)
Theorem ready_iff_earlier_executed s t i :
  valid t i →
  (search_inv rule_ibm s →
     has_po_dependencies s t i = false ↔
     ∀ d, d < i → get_executed s t d = false →
       store (instr_at t d) = true ∧ store (instr_at t i) = false ∧
       mem (instr_at t d) ≠ mem (instr_at t i)) ∧
  (search_inv rule_tso s →
     has_po_dependencies s t i = false ↔
     ∀ d, d < i → get_executed s t d = false →
       store (instr_at t d) = true ∧ store (instr_at t i) = false).
Proof.
  intros Hv. pose proof Hv as [Ht Hi]. split; intros Hinv.
  - rewrite (has_po_dependencies_false rule_ibm) by (done || apply Hinv).
    unfold rule_ibm, edge_ibm. split.
    + intros Hall d Hd Hex. specialize (Hall d ltac:(lia)).
      destruct (Nat.ltb_spec d i); [|lia]. simpl in Hall.
      destruct (store (instr_at t d)); [|rewrite Hall in Hex; done].
      destruct (store (instr_at t i)); simpl in Hall;
        [rewrite Hall in Hex; done|].
      destruct (String.eqb_spec (mem (instr_at t d)) (mem (instr_at t i)));
        [rewrite Hall in Hex; done|done].
    + intros Hall d Hd Hr. apply andb_prop in Hr as [Hlt%Nat.ltb_lt Hedge].
      destruct (get_executed s t d) eqn:Hex; [done|].
      destruct (Hall d Hlt Hex) as (Hsd & Hsi & Hne).
      rewrite Hsd, Hsi in Hedge. simpl in Hedge.
      by apply String.eqb_eq in Hedge.
  - rewrite (has_po_dependencies_false rule_tso) by (done || apply Hinv).
    unfold rule_tso, edge_tso. split.
    + intros Hall d Hd Hex. specialize (Hall d ltac:(lia)).
      destruct (Nat.ltb_spec d i); [|lia]. simpl in Hall.
      destruct (store (instr_at t d)); [|rewrite Hall in Hex; done].
      destruct (store (instr_at t i)); [rewrite Hall in Hex; done|done].
    + intros Hall d Hd Hr. apply andb_prop in Hr as [Hlt%Nat.ltb_lt Hedge].
      destruct (get_executed s t d) eqn:Hex; [done|].
      destruct (Hall d Hlt Hex) as (Hsd & Hsi).
      rewrite Hsd, Hsi in Hedge. done.
Qed.

Lemma remove_po_add_back rule add s t i :
  writes_rule rule add → (∀ t d i, d ≤ i → rule t d i = false) →
  search_inv rule s → valid t i → get_executed s t i = false →
  (∀ d, d < num_instrs t → get_po (remove_po s t i) t d i = false) ∧
  add (remove_po s t i) t i = s.
Proof.
  intros Hadd Hrule Hinv Hv Hex. pose proof Hv as [Ht Hi].
  destruct Hinv as [(Hdp & Hde & Hdl) Hreg Hpo Hld]. split.
  - intros d Hd. rewrite remove_po_get by done.
    case_decide; [done|]. rewrite Hpo by done.
    destruct (decide (d ≤ i)); [by rewrite Hrule, andb_false_r|].
    exfalso. naive_solver lia.
  - destruct (Hadd (remove_po s t i) t i Hv) as (Heq & _ & _).
    { by apply remove_po_dims. }
    rewrite Heq.
    rewrite (po_restored rule add s (remove_po s t i) t i); try done.
    rewrite remove_po_eq. by destruct s.
Qed.

(** X7. In a state of a search, [remove_po] of an instruction that is not
    executed leaves no instruction of the thread waiting for it, and the
    column builder of the model puts the state back as it was. *)
Theorem remove_po_add_po_round_trip s t i :
  valid t i → get_executed s t i = false →
  (search_inv rule_ibm s →
     (∀ d, d < num_instrs t → get_po (remove_po s t i) t d i = false) ∧
     add_po_ibm (remove_po s t i) t i = s) ∧
  (search_inv rule_tso s →
     (∀ d, d < num_instrs t → get_po (remove_po s t i) t d i = false) ∧
     add_po_tso (remove_po s t i) t i = s).
Proof.
  intros Hv Hex. split; intros Hinv.
  - apply (remove_po_add_back rule_ibm); try done; [apply add_po_ibm_writes|].
    intros t' d' i' Hle. unfold rule_ibm.
    destruct (Nat.ltb_spec i' d'); [lia|done].
  - apply (remove_po_add_back rule_tso); try done; [apply add_po_tso_writes|].
    intros t' d' i' Hle. unfold rule_tso.
    destruct (Nat.ltb_spec i' d'); [lia|done].
Qed.

(** ** Executed markers *)

Lemma length_candidates : length candidates = total_instrs.
Proof.
  unfold candidates, total_instrs, num_threads, num_instrs.
  assert (∀ (pre prog : list (list Instr)),
    length (seq (length pre) (length prog) ≫= λ t,
              (λ i, (t, i)) <$> seq 0 (length (default [] ((pre ++ prog) !! t))))
    = length (concat prog)) as Hgen.
  { intros pre prog. revert pre. induction prog as [|th prog IH]; intros pre; [done|].
    simpl. rewrite length_app, length_app, length_fmap, length_seq.
    rewrite list_lookup_middle by done. simpl. f_equal.
    specialize (IH (pre ++ [th])). rewrite length_app in IH. simpl in IH.
    rewrite <- (assoc_L (++)) in IH. simpl in IH.
    rewrite Nat.add_1_r in IH. done. }
  by rewrite <- (Hgen [] program).
Qed.

Lemma valid_total t i : valid t i → 0 < total_instrs.
Proof.
  intros Hv%elem_of_candidates. rewrite <- length_candidates.
  destruct candidates; [by apply elem_of_nil in Hv|simpl; lia].
Qed.

Lemma total_valid : 0 < total_instrs → ∃ t i, valid t i.
Proof.
  rewrite <- length_candidates. destruct candidates as [|[t i] l] eqn:Hc;
    simpl; [lia|].
  intros _. exists t, i. apply elem_of_candidates. rewrite Hc. set_solver.
Qed.

Lemma unexecuted_all s :
  (∀ t i, valid t i → get_executed s t i = false) →
  unexecuted s = total_instrs.
Proof.
  intros Hall. unfold unexecuted. rewrite <- length_candidates. f_equal.
  assert (∀ c, c ∈ candidates → get_executed s c.1 c.2 = false) as Hin.
  { intros [t i] Hc%elem_of_candidates. by apply Hall. }
  induction candidates as [|c l IH]; [done|].
  rewrite filter_cons_True by apply Hin, list_elem_of_here.
  f_equal. apply IH. intros c' Hc'. by apply Hin, list_elem_of_further.
Qed.

Lemma reset_executed_get s t i :
  dims2 (executed s) →
  get_executed (reset_executed s) t i =
    if decide (valid t i) then false else get_executed s t i.
Proof.
  intros Hd. unfold reset_executed. revert t i.
  pose (P := λ (T : nat) (x : State),
    dims2 (executed x) ∧
    ∀ t i, get_executed x t i =
      if decide (t < T ∧ i < num_instrs t) then false else get_executed s t i).
  assert (P (0 + num_threads) (for_pure num_threads 0 (λ t s,
            for_pure (num_instrs t) 0 (λ i s, set_executed s t i false) s) s))
    as (Hds & Hget).
  { apply for_pure_ind.
    { split; [done|]. intros t i. case_decide; [lia|done]. }
    intros T x HT (Hdx & Hget).
    pose (Q := λ (I : nat) (y : State),
      dims2 (executed y) ∧
      ∀ t i, get_executed y t i =
        if decide (t < T ∧ i < num_instrs t ∨ t = T ∧ i < I) then false
        else get_executed s t i).
    assert (Q (0 + num_instrs T)
              (for_pure (num_instrs T) 0 (λ i s, set_executed s T i false) x))
      as (Hdy & Hgety).
    { apply for_pure_ind.
      - split; [done|]. intros t i. rewrite Hget.
        destruct (decide (t = T)) as [->|]; repeat case_decide; (done || lia).
      - intros I y HI (Hdy & Hgety). split.
        + by apply rect_set2.
        + intros t i. rewrite get_executed_set; [|done|split; lia].
          rewrite Hgety.
          destruct (decide ((T, I) = (t, i))) as [[= <- <-]|Hne].
          * case_decide; [done|lia].
          * assert (¬ (t = T ∧ i = I)) by (intros [-> ->]; done).
            destruct (decide (t = T)) as [->|];
              repeat case_decide; (done || lia). }
    split; [done|]. intros t i. rewrite Hgety.
    destruct (decide (t = T)) as [->|]; repeat case_decide; (done || lia). }
  intros t i. rewrite Hget. unfold valid.
  repeat case_decide; (done || lia).
Qed.

(** X8. [reset_executed] clears the marker of every instruction of the
    program and touches nothing else: the markers of the other cells and
    the other globals are kept.  Afterwards every instruction counts as not
    executed, and [all_executed] holds only for a program without
    instructions. *)
Theorem reset_executed_clears s :
  dims2 (executed s) →
  let s' := reset_executed s in
  (∀ t i, get_executed s' t i =
          if decide (valid t i) then false else get_executed s t i) ∧
  s' = with_executed s (executed s') ∧
  unexecuted s' = total_instrs ∧
  (all_executed s' = true ↔ total_instrs = 0).
Proof.
  intros Hd. simpl.
  destruct (reset_executed_shape s Hd) as (Heq & _ & Hclear).
  split_and!; try done.
  - intros t i. by apply reset_executed_get.
  - by apply unexecuted_all.
  - rewrite all_executed_spec. split.
    + intros Hall. destruct (decide (0 < total_instrs)) as [Hpos|]; [|lia].
      destruct (total_valid Hpos) as (t & i & Hv).
      specialize (Hall t i Hv). rewrite Hclear in Hall by done. done.
    + intros Hz t i Hv%valid_total. lia.
Qed.

(** ** Every state of a search can be completed *)

Lemma ibm_schedule_exists n s :
  unexecuted s ≤ n → search_inv rule_ibm s → all_executed s = false →
  ∃ o, ibm_schedule s o.
Proof.
  revert s. induction n as [|n IH]; intros s Hle Hinv Hall.
  - destruct (exists_ready rule_ibm s) as (t & i & Hv & Hex & _); try done.
    { intros t d i. unfold rule_ibm. intros [Hlt%Nat.ltb_lt _]%andb_prop. done. }
    destruct (ibm_execute_spec s t i Hinv Hv Hex) as (? & ? & _ & _ & Hlt & _).
    lia.
  - destruct (exists_ready rule_ibm s) as (t & i & Hv & Hex & Hdeps); try done.
    { intros t d i. unfold rule_ibm. intros [Hlt%Nat.ltb_lt _]%andb_prop. done. }
    destruct (ibm_execute_spec s t i Hinv Hv Hex)
      as (old & s1 & Hexec & Hinv1 & Hlt & _).
    destruct (all_executed s1) eqn:Hall1.
    + exists (outcome s1). by eapply ibm_schedule_last.
    + destruct (IH s1) as [o Ho]; [lia|done..|].
      exists o. by eapply ibm_schedule_next.
Qed.

Lemma tso_schedule_exists n s :
  unexecuted s ≤ n → search_inv rule_tso s → all_executed s = false →
  ∃ o, tso_schedule s o.
Proof.
  revert s. induction n as [|n IH]; intros s Hle Hinv Hall.
  - destruct (exists_ready rule_tso s) as (t & i & Hv & Hex & _); try done.
    { intros t d i. unfold rule_tso. intros [Hlt%Nat.ltb_lt _]%andb_prop. done. }
    destruct (tso_execute_spec s t i Hinv Hv Hex)
      as (? & ? & ? & _ & _ & Hlt & _).
    lia.
  - destruct (exists_ready rule_tso s) as (t & i & Hv & Hex & Hdeps); try done.
    { intros t d i. unfold rule_tso. intros [Hlt%Nat.ltb_lt _]%andb_prop. done. }
    destruct (tso_execute_spec s t i Hinv Hv Hex)
      as (old & s1 & f & Hexec & Hinv1 & Hlt & _).
    destruct (all_executed s1) eqn:Hall1.
    + exists (outcome s1). by eapply tso_schedule_last.
    + destruct (IH s1) as [o Ho]; [lia|done..|].
      exists o. by eapply tso_schedule_next.
Qed.

(** X9. No state of a search is a dead end: while some instruction is not
    executed, some instruction of the program is not executed and waits for
    nothing, and executing such instructions one after the other reaches a
    state in which every instruction is executed. *)
Theorem search_never_stuck s :
  all_executed s = false →
  (search_inv rule_ibm s →
     (∃ t i, valid t i ∧ get_executed s t i = false ∧
             has_po_dependencies s t i = false) ∧
     ∃ o, ibm_schedule s o) ∧
  (search_inv rule_tso s →
     (∃ t i, valid t i ∧ get_executed s t i = false ∧
             has_po_dependencies s t i = false) ∧
     ∃ o, tso_schedule s o).
Proof.
  intros Hall. split; intros Hinv; split.
  - apply (exists_ready rule_ibm); try done.
    intros t d i. unfold rule_ibm. intros [Hlt%Nat.ltb_lt _]%andb_prop. done.
  - by apply (ibm_schedule_exists (unexecuted s)).
  - apply (exists_ready rule_tso); try done.
    intros t d i. unfold rule_tso. intros [Hlt%Nat.ltb_lt _]%andb_prop. done.
  - by apply (tso_schedule_exists (unexecuted s)).
Qed.

(** X10. The store-atomic search records the complete runs.  Called in a
    state of the search with enough fuel, [get_possible_executions_ibm]
    returns, and [solutions_ibm] then holds what it held before and the
    outcome of every sequence of steps that executes, one at a time, an
    instruction that is not executed and waits for nothing, until every
    instruction is executed; it holds nothing else. *)
Theorem ibm_search_records_schedules fuel s :
  search_inv rule_ibm s → unexecuted s ≤ fuel →
  ∃ s', get_possible_executions_ibm fuel s = Ok s' ∧
    same_frame s s' ∧ solutions_tso s' = solutions_tso s ∧
    ∀ o, o ∈ solutions_ibm s' ↔ o ∈ solutions_ibm s ∨ ibm_schedule s o.
Proof.
  intros Hinv Hle.
  pose proof (ibm_exact_total fuel s Hinv Hle) as Hwp.
  apply wp_total in Hwp as (s' & Hrun & (Hf & _ & Ht) & Hsol).
  by exists s'.
Qed.

(** X11. The relaxed search records the complete runs: the same as for the
    store-atomic search, with the steps of [get_possible_executions_tso]
    (a load takes the value of the nearest earlier store of its thread to
    its location when the forwarding test holds).  The second recursion
    after a forwarded load adds no outcome of its own. *)
Theorem tso_search_records_schedules fuel s :
  search_inv rule_tso s → unexecuted s ≤ fuel →
  ∃ s', get_possible_executions_tso fuel s = Ok s' ∧
    same_frame s s' ∧ solutions_ibm s' = solutions_ibm s ∧
    ∀ o, o ∈ solutions_tso s' ↔ o ∈ solutions_tso s ∨ tso_schedule s o.
Proof.
  intros Hinv Hle.
  pose proof (tso_exact_total fuel s Hinv Hle) as Hwp.
  apply wp_total in Hwp as (s' & Hrun & (Hf & _ & Ht) & Hsol).
  by exists s'.
Qed.

(** ** What [main] leaves in the two sets *)

Lemma run_ibm_exact s :
  clean s →
  ∃ s', run_ibm s = Ok s' ∧ ibm_post (ibm_start s) s' ∧ clean s' ∧
    ∀ o, o ∈ solutions_ibm s' ↔ ibm_schedule (ibm_start s) o.
Proof.
  intros Hc. destruct (run_ibm_ok s Hc) as (s' & Hrun & Hpost & Hc').
  exists s'. split_and!; try done.
  destruct (ibm_start_inv s Hc) as (Hinv & _ & _ & _ & Hempty & _).
  pose proof (ibm_exact_total total_instrs (ibm_start s) Hinv
                (unexecuted_le_total _)) as Hwp.
  apply wp_total in Hwp as (s'' & Hrun' & _ & Hsol).
  unfold run_ibm in Hrun. rewrite Hrun' in Hrun. injection Hrun as ->.
  intros o. rewrite Hsol, Hempty. set_solver.
Qed.

Lemma run_tso_exact s :
  clean s →
  ∃ s', run_tso s = Ok s' ∧ tso_post (tso_start s) s' ∧ clean s' ∧
    ∀ o, o ∈ solutions_tso s' ↔ tso_schedule (tso_start s) o.
Proof.
  intros Hc. destruct (run_tso_ok s Hc) as (s' & Hrun & Hpost & Hc').
  exists s'. split_and!; try done.
  destruct (tso_start_inv s Hc) as (Hinv & _ & _ & _ & Hempty & _).
  pose proof (tso_exact_total total_instrs (tso_start s) Hinv
                (unexecuted_le_total _)) as Hwp.
  apply wp_total in Hwp as (s'' & Hrun' & _ & Hsol).
  unfold run_tso in Hrun. rewrite Hrun' in Hrun. injection Hrun as ->.
  intros o. rewrite Hsol, Hempty. set_solver.
Qed.

Lemma no_schedule_without_instructions :
  total_instrs = 0 →
  (∀ s o, ¬ ibm_schedule s o) ∧ (∀ s o, ¬ tso_schedule s o).
Proof.
  intros Hz. split; intros s o.
  - intros (t & i & Hv%valid_total & _)%ibm_schedule_iff. lia.
  - intros (t & i & Hv%valid_total & _)%tso_schedule_iff. lia.
Qed.

(** X12. [main] records an outcome in each of the two sets exactly when the
    program has an instruction: a program without instructions (no thread,
    or only empty threads) leaves both sets empty, every other program
    leaves both with at least one outcome. *)
Theorem outcomes_exist_iff_instruction :
  ∃ s, main = Ok s ∧
    (solutions_ibm s = ∅ ↔ total_instrs = 0) ∧
    (solutions_tso s = ∅ ↔ total_instrs = 0).
Proof.
  destruct main_shape as (s1 & s2 & Hr1 & Hr2 & Hmain & _ & Heq & _ & Hc1).
  destruct (run_ibm_exact _ clean_load_program) as (s1' & Hr1' & _ & _ & Hsol1).
  rewrite Hr1 in Hr1'. injection Hr1' as <-.
  destruct (run_tso_exact s1 Hc1) as (s2' & Hr2' & _ & _ & Hsol2).
  rewrite Hr2 in Hr2'. injection Hr2' as <-.
  destruct (ibm_start_inv _ clean_load_program) as (Hinvi & Hexi & _).
  destruct (tso_start_inv s1 Hc1) as (Hinvt & Hext & _).
  exists s2. split; [done|]. rewrite Heq. split; split.
  - intros Hempty. destruct (decide (0 < total_instrs)) as [Hpos|]; [|lia].
    destruct (total_valid Hpos) as (t & i & Hv).
    destruct (ibm_schedule_exists total_instrs
                (ibm_start (load_program zero_state))) as [o Ho];
      [apply unexecuted_le_total|done| |].
    + apply not_true_iff_false. rewrite all_executed_spec. intros Hall.
      specialize (Hall t i Hv). by rewrite Hexi in Hall.
    + apply Hsol1 in Ho. set_solver.
  - intros Hz. apply elem_of_equiv_empty_L. intros o Ho%Hsol1.
    by apply (proj1 (no_schedule_without_instructions Hz)) in Ho.
  - intros Hempty. destruct (decide (0 < total_instrs)) as [Hpos|]; [|lia].
    destruct (total_valid Hpos) as (t & i & Hv).
    destruct (tso_schedule_exists total_instrs (tso_start s1)) as [o Ho];
      [apply unexecuted_le_total|done| |].
    + apply not_true_iff_false. rewrite all_executed_spec. intros Hall.
      specialize (Hall t i Hv). by rewrite Hext in Hall.
    + apply Hsol2 in Ho. set_solver.
  - intros Hz. apply elem_of_equiv_empty_L. intros o Ho%Hsol2.
    by apply (proj2 (no_schedule_without_instructions Hz)) in Ho.
Qed.

(** ** Starting a search again *)

Lemma agree_outside_refl a : agree_outside a a.
Proof. by split_and!. Qed.

Lemma agree_outside_sym a b : agree_outside a b → agree_outside b a.
Proof.
  intros (Hm & Hl & He & Hp). split_and!; try done.
  - intros t i Hn. by rewrite He.
  - intros t d i Hn. by rewrite Hp.
Qed.

Lemma agree_outside_trans a b c :
  agree_outside a b → agree_outside b c → agree_outside a c.
Proof.
  intros (Hm & Hl & He & Hp) (Hm' & Hl' & He' & Hp'). split_and!.
  - congruence.
  - congruence.
  - intros t i Hn. by rewrite He, He'.
  - intros t d i Hn. by rewrite Hp, Hp'.
Qed.

Lemma same_frame_agree_outside a b : same_frame a b → agree_outside a b.
Proof.
  intros (Hp & He & Hm & Hl). split_and!; try done.
  - intros t i _. unfold get_executed. by rewrite He.
  - intros t d i _. unfold get_po. by rewrite Hp.
Qed.

Lemma start_cells rule add (clear : State → State) a :
  writes_rule rule add → dims a →
  (∀ s, same_frame s (clear s)) →
  let x := for_pure num_threads 0 (λ t s,
             for_pure (num_instrs t) 0 (λ i s, add s t i) s)
             (clear (reset_executed a)) in
  dims x ∧ memory x = memory a ∧ loadvalues x = loadvalues a ∧
  (∀ t i, get_executed x t i =
          if decide (valid t i) then false else get_executed a t i) ∧
  (∀ t d i, get_po x t d i =
            if decide (t < num_threads ∧ i < num_instrs t ∧ d < num_instrs t)
            then rule t d i else get_po a t d i).
Proof.
  intros Hadd (Hdp & Hde & Hdl) Hclear.
  destruct (reset_executed_shape a Hde) as (Heq & Hde' & _).
  destruct (Hclear (reset_executed a)) as (Hcp & Hce & Hcm & Hcl).
  destruct (build_po_graph_shape rule add (clear (reset_executed a)) Hadd)
    as (Hb & Hdb & Hget).
  { rewrite Hcp, Heq. done. }
  simpl in *. rewrite Hb. simpl. split_and!.
  - split_and!; simpl; [done|by rewrite Hce|by rewrite Hcl, Heq].
  - by rewrite Hcm, Heq.
  - by rewrite Hcl, Heq.
  - intros t i. unfold get_executed. simpl. rewrite Hce.
    by apply reset_executed_get.
  - intros t d i. specialize (Hget t d i). rewrite Hb in Hget.
    unfold get_po in *. simpl in *. rewrite Hget, Hcp, Heq. done.
Qed.

Lemma start_frames rule add (clear : State → State) a b :
  writes_rule rule add → dims a → dims b →
  (∀ s, same_frame s (clear s)) →
  agree_outside a b →
  let start := λ s, for_pure num_threads 0 (λ t s,
                 for_pure (num_instrs t) 0 (λ i s, add s t i) s)
                 (clear (reset_executed s)) in
  same_frame (start a) (start b) ∧ agree_outside a (start a).
Proof.
  intros Hadd Hda Hdb Hclear (Hm & Hl & He & Hp). simpl.
  destruct (start_cells rule add clear a Hadd Hda Hclear)
    as ((Hpa & Hea & Hla) & Hma & Hlva & Hexa & Hpoa).
  destruct (start_cells rule add clear b Hadd Hdb Hclear)
    as ((Hpb & Heb & Hlb) & Hmb & Hlvb & Hexb & Hpob).
  simpl in *. split.
  - split_and!.
    + apply (ext3 false); [done..|]. intros t d i _ _ _.
      fold (get_po (for_pure num_threads 0 (λ t s,
              for_pure (num_instrs t) 0 (λ i s, add s t i) s)
              (clear (reset_executed b))) t d i).
      rewrite Hpob.
      etrans; [|symmetry; apply Hpoa].
      case_decide; [done|]. symmetry. by apply Hp.
    + apply (ext2 false MAX_THREADS MAX_INSTRUCTIONS); [done..|].
      intros t i _ _.
      fold (get_executed (for_pure num_threads 0 (λ t s,
              for_pure (num_instrs t) 0 (λ i s, add s t i) s)
              (clear (reset_executed b))) t i).
      rewrite Hexb.
      etrans; [|symmetry; apply Hexa].
      case_decide; [done|]. symmetry. by apply He.
    + congruence.
    + congruence.
  - split_and!; try done.
    + intros t i Hn. rewrite Hexa. by case_decide.
    + intros t d i Hn. rewrite Hpoa. by case_decide.
Qed.

Lemma ibm_start_frames a b :
  clean a → clean b → agree_outside a b →
  same_frame (ibm_start a) (ibm_start b) ∧ agree_outside a (ibm_start a).
Proof.
  intros (Hda & _) (Hdb & _) Hag.
  apply (start_frames rule_ibm add_po_ibm (λ s, with_solutions_ibm s ∅));
    try done.
  apply add_po_ibm_writes.
Qed.

Lemma tso_start_frames a b :
  clean a → clean b → agree_outside a b →
  same_frame (tso_start a) (tso_start b) ∧ agree_outside a (tso_start a).
Proof.
  intros (Hda & _) (Hdb & _) Hag.
  apply (start_frames rule_tso add_po_tso (λ s, with_solutions_tso s ∅));
    try done.
  apply add_po_tso_writes.
Qed.

Lemma run_ibm_again a b :
  clean a → clean b → agree_outside a b →
  ∃ a' b', run_ibm a = Ok a' ∧ run_ibm b = Ok b' ∧
    solutions_ibm a' = solutions_ibm b' ∧
    clean a' ∧ clean b' ∧ agree_outside a' b' ∧
    solutions_tso a' = solutions_tso a ∧ solutions_tso b' = solutions_tso b.
Proof.
  intros Hca Hcb Hag.
  destruct (run_ibm_exact a Hca) as (a' & Hra & (Hfa & _ & Hta) & Hca' & Hsa).
  destruct (run_ibm_exact b Hcb) as (b' & Hrb & (Hfb & _ & Htb) & Hcb' & Hsb).
  destruct (ibm_start_frames a b Hca Hcb Hag) as (Hf & Hoa).
  destruct (ibm_start_frames b a Hcb Hca (agree_outside_sym _ _ Hag))
    as (Hf' & Hob).
  destruct (ibm_start_inv a Hca) as (_ & _ & _ & _ & _ & Hta0).
  destruct (ibm_start_inv b Hcb) as (_ & _ & _ & _ & _ & Htb0).
  exists a', b'. split_and!; try done.
  - apply set_eq. intros o. rewrite Hsa, Hsb.
    split; apply ibm_schedule_frame; done.
  - eapply agree_outside_trans; [|apply (same_frame_agree_outside _ _ Hfb)].
    eapply agree_outside_trans; [|apply (same_frame_agree_outside _ _ Hf)].
    apply agree_outside_sym, same_frame_agree_outside, Hfa.
  - by rewrite Hta.
  - by rewrite Htb.
Qed.

Lemma run_tso_again a b :
  clean a → clean b → agree_outside a b →
  ∃ a' b', run_tso a = Ok a' ∧ run_tso b = Ok b' ∧
    solutions_tso a' = solutions_tso b' ∧
    clean a' ∧ clean b' ∧ agree_outside a' b' ∧
    solutions_ibm a' = solutions_ibm a ∧ solutions_ibm b' = solutions_ibm b.
Proof.
  intros Hca Hcb Hag.
  destruct (run_tso_exact a Hca) as (a' & Hra & (Hfa & _ & Hta) & Hca' & Hsa).
  destruct (run_tso_exact b Hcb) as (b' & Hrb & (Hfb & _ & Htb) & Hcb' & Hsb).
  destruct (tso_start_frames a b Hca Hcb Hag) as (Hf & Hoa).
  destruct (tso_start_frames b a Hcb Hca (agree_outside_sym _ _ Hag))
    as (Hf' & Hob).
  destruct (tso_start_inv a Hca) as (_ & _ & _ & _ & _ & Hta0).
  destruct (tso_start_inv b Hcb) as (_ & _ & _ & _ & _ & Htb0).
  exists a', b'. split_and!; try done.
  - apply set_eq. intros o. rewrite Hsa, Hsb.
    split; apply tso_schedule_frame; done.
  - eapply agree_outside_trans; [|apply (same_frame_agree_outside _ _ Hfb)].
    eapply agree_outside_trans; [|apply (same_frame_agree_outside _ _ Hf)].
    apply agree_outside_sym, same_frame_agree_outside, Hfa.
  - by rewrite Hta.
  - by rewrite Htb.
Qed.

Lemma run_ibm_agree a :
  clean a → ∀ a', run_ibm a = Ok a' → agree_outside a a'.
Proof.
  intros Hca a' Hrun.
  destruct (run_ibm_exact a Hca) as (a2 & Hra & (Hfa & _) & _).
  rewrite Hrun in Hra. injection Hra as <-.
  destruct (ibm_start_frames a a Hca Hca (agree_outside_refl a)) as (_ & Hoa).
  eapply agree_outside_trans; [exact Hoa|by apply same_frame_agree_outside].
Qed.

Lemma run_tso_agree a :
  clean a → ∀ a', run_tso a = Ok a' → agree_outside a a'.
Proof.
  intros Hca a' Hrun.
  destruct (run_tso_exact a Hca) as (a2 & Hra & (Hfa & _) & _).
  rewrite Hrun in Hra. injection Hra as <-.
  destruct (tso_start_frames a a Hca Hca (agree_outside_refl a)) as (_ & Hoa).
  eapply agree_outside_trans; [exact Hoa|by apply same_frame_agree_outside].
Qed.

(** X13. The analysis can be repeated: [reset_executed], the clearing of
    the set and the graph builder put the globals back to where a search
    starts, so running the two phases of [main] once more on the state that
    [main] leaves behind returns and gives the same two sets. *)
Theorem analysis_is_repeatable :
  ∃ s s1 s2, main = Ok s ∧ run_ibm s = Ok s1 ∧ run_tso s1 = Ok s2 ∧
    solutions_ibm s2 = solutions_ibm s ∧ solutions_tso s2 = solutions_tso s.
Proof.
  destruct main_shape as (a1 & a2 & Hr1 & Hr2 & Hmain & _ & Heq & _ & Hc1).
  pose proof clean_load_program as Hc0.
  pose proof (run_ibm_agree _ Hc0 a1 Hr1) as Hag1.
  destruct (run_tso_exact a1 Hc1) as (a2' & Hr2' & _ & Hc2 & _).
  rewrite Hr2 in Hr2'. injection Hr2' as <-.
  pose proof (run_tso_agree _ Hc1 a2 Hr2) as Hag2.
  destruct (run_ibm_again (load_program zero_state) a2 Hc0 Hc2)
    as (a1' & s1 & Hr1' & Hrs1 & Hsol1 & _ & Hcs1 & Hag3 & _ & _).
  { by eapply agree_outside_trans. }
  rewrite Hr1 in Hr1'. injection Hr1' as <-.
  destruct (run_tso_again a1 s1 Hc1 Hcs1 Hag3)
    as (a2' & s2 & Hr2' & Hrs2 & Hsol2 & _ & _ & _ & _ & Hi2).
  rewrite Hr2 in Hr2'. injection Hr2' as <-.
  exists a2, s1, s2. split_and!; try done.
  by rewrite Hi2, <- Hsol1.
Qed.

(** ** Programs in which no store can be forwarded *)

Lemma rule_ibm_tso t d i :
  no_store_before_load → t < num_threads → d < num_instrs t →
  rule_ibm t d i = true → rule_tso t d i = true.
Proof.
  intros Hno Ht Hd. unfold rule_tso, rule_ibm, edge_tso, edge_ibm.
  destruct (Nat.ltb_spec i d) as [Hlt|]; simpl; [|done].
  destruct (store (instr_at t i)) eqn:Hsi; [|done].
  destruct (store (instr_at t d)) eqn:Hsd; simpl; [done|].
  intros Heq%String.eqb_eq. by destruct (Hno t d i (conj Ht Hd) Hlt Hsd Hsi).
Qed.

Lemma tso_schedule_ibm_schedule b o :
  no_store_before_load → tso_schedule b o →
  ∀ a, aligned a b → ibm_schedule a o.
Proof.
  intros Hno Hs.
  assert (∀ a s t i old s1,
    aligned a s → valid t i → get_executed s t i = false →
    has_po_dependencies s t i = false → tso_execute s t i = Ok (old, s1) →
    get_executed a t i = false ∧ has_po_dependencies a t i = false ∧
    ∃ old_a a1, ibm_execute a t i = Ok (old_a, a1) ∧ aligned a1 s1) as Hstep.
  { intros a s t i old s1 Hal Hv Hex Hdeps Hexec.
    pose proof Hal as (Hia & Hib & Hexe & Hm & Hl).
    assert (get_executed a t i = false) as Hexa by (by rewrite Hexe).
    assert (has_po_dependencies a t i = false) as Hda.
    { rewrite (has_po_dependencies_false rule_tso) in Hdeps
        by (done || apply Hib).
      rewrite (has_po_dependencies_false rule_ibm) by (done || apply Hia).
      intros d Hd Hr. destruct Hv as [Ht Hi].
      rewrite Hexe by (split; done). apply Hdeps; [done|].
      by apply rule_ibm_tso. }
    split; [done|]. split; [done|].
    destruct (ibm_execute_spec a t i Hia Hv Hexa) as (old_a & a1 & Hea & _).
    destruct (aligned_execute a s t i old_a a1 Hal Hv Hexa Hda Hea)
      as (old_b & b1 & Heb & Hal1 & _).
    rewrite Hexec in Heb. injection Heb as <- <-.
    by exists old_a, a1. }
  induction Hs as [s t i old s1 Hv Hex Hdeps Hexec Hall
                  |s t i old s1 o Hv Hex Hdeps Hexec Hall Hs IH];
    intros a Hal;
    destruct (Hstep a s t i old s1 Hal Hv Hex Hdeps Hexec)
      as (Hexa & Hda & old_a & a1 & Hea & Hal1);
    pose proof Hal1 as (_ & _ & Hexe1 & Hm1 & Hl1).
  - rewrite <- (outcome_ext a1 s1) by done.
    apply (ibm_schedule_last a t i old_a a1); try done.
    by rewrite (all_executed_ext a1 s1).
  - apply (ibm_schedule_next a t i old_a a1); try done.
    + by rewrite (all_executed_ext a1 s1).
    + by apply IH.
Qed.

(** X14. When no load of the program follows a store of its thread to its
    location, the two models give the same outcomes: [add_po_ibm] and
    [add_po_tso] then write the same edges and the forwarding test never
    holds, so no line of the second listing carries a star. *)
Theorem models_agree_without_store_before_load :
  no_store_before_load →
  ∃ s, main = Ok s ∧ solutions_tso s = solutions_ibm s ∧
    ∀ o, o ∈ solutions_tso s → report_line s o = o.
Proof.
  intros Hno.
  destruct main_shape as (s1 & s2 & Hr1 & Hr2 & Hmain & _ & Heq & Hsub & Hc1).
  destruct (run_ibm_exact _ clean_load_program)
    as (s1' & Hr1' & (_ & _ & _) & _ & Hsol1).
  rewrite Hr1 in Hr1'. injection Hr1' as <-.
  destruct (run_tso_exact s1 Hc1) as (s2' & Hr2' & _ & _ & Hsol2).
  rewrite Hr2 in Hr2'. injection Hr2' as <-.
  assert (aligned (ibm_start (load_program zero_state)) (tso_start s1)) as Hal.
  { destruct (ibm_start_inv _ clean_load_program)
      as (Hia & Hea & Hma & Hla & Hsa & _).
    destruct (tso_start_inv s1 Hc1) as (Hib & Heb & Hmb & Hlb & _).
    destruct (run_ibm_ok _ clean_load_program)
      as (s1' & Hr1' & ((_ & _ & Hm1 & Hl1) & _) & _).
    rewrite Hr1 in Hr1'. injection Hr1' as <-.
    split_and!; try done.
    - intros t i Hv. by rewrite Hea, Heb.
    - congruence.
    - congruence. }
  assert (solutions_tso s2 = solutions_ibm s2) as Hsame.
  { apply set_eq. intros o. rewrite Heq. split; [|apply Hsub].
    intros Ho%Hsol2. apply Hsol1.
    by apply (tso_schedule_ibm_schedule (tso_start s1)). }
  exists s2. split_and!; try done.
  intros o Ho. unfold report_line. rewrite <- Hsame.
  by rewrite bool_decide_eq_true_2.
Qed.

(** X15. The second listing has one line for each outcome of the relaxed
    search.  Every outcome of the store-atomic search is among these lines
    as it stands, and a line that is not an outcome of the store-atomic
    search is an outcome of the relaxed search alone, followed by a star. *)
Theorem second_listing_marks_relaxed_only :
  ∃ s, main = Ok s ∧
    length (report_tso s) = size (solutions_tso s) ∧
    (∀ o, o ∈ solutions_ibm s → report_line s o = o ∧ o ∈ report_tso s) ∧
    (∀ l, l ∈ report_tso s →
       l ∈ solutions_ibm s ∨
       ∃ o, o ∈ solutions_tso s ∧ (o ∉ solutions_ibm s) ∧ l = (o +:+ "*")).
Proof.
  destruct main_shape as (s1 & s2 & _ & _ & Hmain & _ & Heq & Hsub & _).
  exists s2. split; [done|]. unfold report_tso. split_and!.
  - by rewrite length_fmap.
  - intros o Ho.
    assert (report_line s2 o = o) as Hline.
    { unfold report_line. by rewrite bool_decide_eq_true_2. }
    split; [done|]. apply list_elem_of_fmap. exists o. split; [done|].
    apply elem_of_elements, Hsub. by rewrite <- Heq.
  - intros l (o & -> & Ho%elem_of_elements)%list_elem_of_fmap.
    unfold report_line. case_bool_decide; [by left|right]. by exists o.
Qed.

Lemma analysis_shape s :
  clean s →
  ∃ s1 s2, run_ibm s = Ok s1 ∧ run_tso s1 = Ok s2 ∧ clean s1 ∧
    solutions_ibm s2 = solutions_ibm s1 ∧
    solutions_ibm s1 ⊆ solutions_tso s2.
Proof.
  intros Hc.
  destruct (run_ibm_ok s Hc) as (s1 & Hr1 & Hp1 & Hc1).
  destruct (run_tso_ok s1 Hc1) as (s2 & Hr2 & Hp2 & Hc2).
  exists s1, s2. split_and!; try done.
  - destruct Hp2 as (_ & _ & ->).
    by destruct (tso_start_inv s1 Hc1) as (_ & _ & _ & _ & _ & ->).
  - destruct (ibm_start_inv s Hc) as (Hia & Hea & Hma & Hla & Hsa & _).
    destruct (tso_start_inv s1 Hc1) as (Hib & Heb & Hmb & Hlb & _).
    destruct Hp1 as ((_ & _ & Hm1 & Hl1) & _).
    assert (aligned (ibm_start s) (tso_start s1)) as Hal.
    { split_and!; try done.
      - intros t i Hv. by rewrite Hea, Heb.
      - congruence.
      - congruence. }
    intros o Ho.
    destruct (sim_search total_instrs total_instrs _ _ s1 s2 Hal Hr1 Hr2 o Ho)
      as [Hin|Hin]; [|done].
    rewrite Hsa in Hin. set_solver.
Qed.

(** ** The values of an outcome *)

Lemma values_ok_frame s x : same_frame s x → values_ok s → values_ok x.
Proof.
  intros (_ & _ & Hm & Hl) [Hmem Hload]. split.
  - intros y v. unfold get_memvar. rewrite Hm. apply Hmem.
  - intros t i. unfold get_load. rewrite Hl. apply Hload.
Qed.

Lemma values_ok_store s s1 t i old :
  valid t i → store (instr_at t i) = true →
  update_memvar_list (memory s) (mem (instr_at t i)) (value (instr_at t i))
    = Ok (old, memory s1) →
  loadvalues s1 = loadvalues s →
  values_ok s → values_ok s1.
Proof.
  intros Hv Hst Hup Hl [Hmem Hload]. split.
  - intros y w Hget. unfold get_memvar in Hget.
    destruct (decide (y = mem (instr_at t i))) as [->|Hne].
    + destruct (update_memvar_list_registered (memory s) (mem (instr_at t i))
                  (value (instr_at t i)))
        as (old' & m' & Hup' & _ & _ & Hnew & _).
      { by eapply update_memvar_list_ok. }
      rewrite Hup in Hup'. injection Hup' as <- <-.
      rewrite Hnew in Hget. injection Hget as <-.
      right. by exists t, i.
    + rewrite (update_memvar_list_other _ _ _ _ _ y Hup Hne) in Hget.
      by apply Hmem.
  - intros t' i'. unfold get_load. rewrite Hl. apply Hload.
Qed.

Lemma values_ok_load s s1 t i v :
  dims s → valid t i →
  memory s1 = memory s → loadvalues s1 = set2 (loadvalues s) t i v →
  (v = 0%Z ∨ stored_value (mem (instr_at t i)) v) →
  values_ok s → values_ok s1.
Proof.
  intros (_ & _ & Hdl) Hv Hm Hl Hval [Hmem Hload]. split.
  - intros y w. unfold get_memvar. rewrite Hm. apply Hmem.
  - intros t' i' Hv' Hst'. unfold get_load. rewrite Hl.
    destruct (decide ((t, i) = (t', i'))) as [[= <- <-]|Hne].
    + destruct (valid_bounds t i Hbounded Hv).
      by rewrite (get2_set2_eq 0%Z MAX_THREADS MAX_INSTRUCTIONS).
    + rewrite get2_set2_ne by done. by apply Hload.
Qed.

Lemma values_ok_ibm_execute s t i old s1 :
  search_inv rule_ibm s → valid t i → get_executed s t i = false →
  ibm_execute s t i = Ok (old, s1) →
  values_ok s → values_ok s1.
Proof.
  intros Hinv Hv Hex Hexec Hok.
  destruct (ibm_execute_spec s t i Hinv Hv Hex)
    as (old' & s1' & Hexec' & _ & _ & _ & _ & _ & Heff & _).
  rewrite Hexec in Hexec'. injection Hexec' as <- <-.
  destruct (store (instr_at t i)) eqn:Hst.
  - destruct Heff as [Hup Hl]. by eapply values_ok_store.
  - destruct Heff as (v & Hget & Hm & Hl).
    eapply values_ok_load; try done; [apply Hinv|].
    by apply (proj1 Hok).
Qed.

Lemma values_ok_tso_execute s t i old s1 :
  search_inv rule_tso s → valid t i → get_executed s t i = false →
  tso_execute s t i = Ok (old, s1) →
  values_ok s → values_ok s1.
Proof.
  intros Hinv Hv Hex Hexec Hok.
  destruct (tso_execute_spec s t i Hinv Hv Hex)
    as (old' & s1' & f & Hexec' & _ & _ & _ & _ & _ & Heff & _).
  rewrite Hexec in Hexec'. injection Hexec' as <- <-.
  destruct (store (instr_at t i)) eqn:Hst.
  - destruct Heff as (_ & Hup & Hl). by eapply values_ok_store.
  - destruct Heff as (Hf & Hm & v & Hget & Hl).
    eapply values_ok_load; try done; [apply Hinv|].
    destruct f; [|by apply (proj1 Hok)].
    right. unfold get_prevstore in Hget. rewrite Hst in Hget.
    destruct (get_prevstore_scan_nearest t i i)
      as [(j & Hj & Hsj & Hmj & _ & _ & Hg)|(_ & _ & Hg)];
      rewrite Hg in Hget; [|done].
    injection Hget as <-. exists t, j. split_and!; try done.
    destruct Hv as [Ht Hi]. split; [done|lia].
Qed.

Lemma execute_names s t i :
  (∀ old s1, search_inv rule_ibm s → valid t i → get_executed s t i = false →
     ibm_execute s t i = Ok (old, s1) → (memory s1).*1 = (memory s).*1) ∧
  (∀ old s1, search_inv rule_tso s → valid t i → get_executed s t i = false →
     tso_execute s t i = Ok (old, s1) → (memory s1).*1 = (memory s).*1).
Proof.
  split; intros old s1 Hinv Hv Hex Hexec.
  - destruct (ibm_execute_spec s t i Hinv Hv Hex)
      as (old' & s1' & Hexec' & _ & _ & _ & _ & _ & Heff & _).
    rewrite Hexec in Hexec'. injection Hexec' as <- <-.
    destruct (store (instr_at t i)).
    + destruct Heff as [Hup _].
      destruct (update_memvar_list_registered (memory s) (mem (instr_at t i))
                  (value (instr_at t i)))
        as (old' & m' & Hup' & Hn & _); [by eapply update_memvar_list_ok|].
      rewrite Hup in Hup'. by injection Hup' as <- <-.
    + destruct Heff as (v & _ & -> & _). done.
  - destruct (tso_execute_spec s t i Hinv Hv Hex)
      as (old' & s1' & f & Hexec' & _ & _ & _ & _ & _ & Heff & _).
    rewrite Hexec in Hexec'. injection Hexec' as <- <-.
    destruct (store (instr_at t i)).
    + destruct Heff as (_ & Hup & _).
      destruct (update_memvar_list_registered (memory s) (mem (instr_at t i))
                  (value (instr_at t i)))
        as (old' & m' & Hup' & Hn & _); [by eapply update_memvar_list_ok|].
      rewrite Hup in Hup'. by injection Hup' as <- <-.
    + destruct Heff as (_ & -> & _). done.
Qed.

Lemma ibm_schedule_values s o :
  ibm_schedule s o → search_inv rule_ibm s → values_ok s →
  ∃ f, o = outcome f ∧ (memory f).*1 = (memory s).*1 ∧ values_ok f.
Proof.
  induction 1 as [s t i old s1 Hv Hex Hdeps Hexec Hall
                 |s t i old s1 o Hv Hex Hdeps Hexec Hall Hs IH];
    intros Hinv Hok.
  - exists s1. split_and!;
      [done| |by apply (values_ok_ibm_execute s t i old s1)].
    by eapply (proj1 (execute_names s t i)).
  - destruct (ibm_execute_spec s t i Hinv Hv Hex)
      as (old' & s1' & Hexec' & Hinv1 & _).
    rewrite Hexec in Hexec'. injection Hexec' as <- <-.
    destruct IH as (f & Ho & Hn & Hf);
      [done|by apply (values_ok_ibm_execute s t i old s1)|].
    exists f. split_and!; [done| |done].
    rewrite Hn. by eapply (proj1 (execute_names s t i)).
Qed.

Lemma tso_schedule_values s o :
  tso_schedule s o → search_inv rule_tso s → values_ok s →
  ∃ f, o = outcome f ∧ (memory f).*1 = (memory s).*1 ∧ values_ok f.
Proof.
  induction 1 as [s t i old s1 Hv Hex Hdeps Hexec Hall
                 |s t i old s1 o Hv Hex Hdeps Hexec Hall Hs IH];
    intros Hinv Hok.
  - exists s1. split_and!;
      [done| |by apply (values_ok_tso_execute s t i old s1)].
    by eapply (proj2 (execute_names s t i)).
  - destruct (tso_execute_spec s t i Hinv Hv Hex)
      as (old' & s1' & f' & Hexec' & Hinv1 & _).
    rewrite Hexec in Hexec'. injection Hexec' as <- <-.
    destruct IH as (f & Ho & Hn & Hf);
      [done|by apply (values_ok_tso_execute s t i old s1)|].
    exists f. split_and!; [done| |done].
    rewrite Hn. by eapply (proj2 (execute_names s t i)).
Qed.

Lemma values_ok_zero s :
  Forall (λ p, p.2 = 0%Z) (memory s) →
  (∀ t i, valid t i → get_load s t i = 0%Z) → values_ok s.
Proof.
  intros Hz Hl. split.
  - intros x v Hget. left. unfold get_memvar in Hget.
    induction Hz as [|[y w] m Hw _ IH]; simpl in Hget; [done|].
    destruct (String.eqb y x); [|by apply IH].
    injection Hget as <-. done.
  - intros t i Hv _. left. by apply Hl.
Qed.

(** X21. No value comes out of thin air: every outcome that [main]
    records, in either set, is rendered from a state with the locations of
    the program in which each memory value is 0 or the value of a store of
    the program to that location, and each load result is 0 or the value of
    a store of the program to the location of the load. *)
Theorem no_value_out_of_thin_air :
  ∃ s, main = Ok s ∧
    ∀ o, o ∈ solutions_ibm s ∨ o ∈ solutions_tso s →
      ∃ f, o = outcome f ∧
           (memory f).*1 = (memory (load_program zero_state)).*1 ∧
           values_ok f.
Proof.
  destruct main_shape as (s1 & s2 & Hr1 & Hr2 & Hmain & Hp1 & Heq & _ & Hc1).
  pose proof clean_load_program as Hc0.
  destruct (run_ibm_exact _ Hc0) as (s1' & Hr1' & _ & _ & Hsol1).
  rewrite Hr1 in Hr1'. injection Hr1' as <-.
  destruct (run_tso_exact s1 Hc1) as (s2' & Hr2' & _ & _ & Hsol2).
  rewrite Hr2 in Hr2'. injection Hr2' as <-.
  destruct (ibm_start_inv _ Hc0) as (Hinvi & _ & Hmi & Hli & _).
  destruct (tso_start_inv s1 Hc1) as (Hinvt & _ & Hmt & Hlt & _).
  destruct Hp1 as ((_ & _ & Hm1 & Hl1) & _).
  destruct load_program_memory as [Hzero _].
  assert (values_ok (ibm_start (load_program zero_state))) as Hoki.
  { apply values_ok_zero; [by rewrite Hmi|].
    intros t i Hv. unfold get_load. rewrite Hli. by apply Hc0. }
  assert (values_ok (tso_start s1)) as Hokt.
  { apply values_ok_zero; [by rewrite Hmt, Hm1, Hmi|].
    intros t i Hv. unfold get_load. rewrite Hlt. by apply Hc1. }
  exists s2. split; [done|]. rewrite Heq. intros o [Ho|Ho].
  - apply Hsol1 in Ho.
    destruct (ibm_schedule_values _ o Ho Hinvi Hoki) as (f & -> & Hn & Hf).
    exists f. split_and!; [done| |done]. by rewrite Hn, Hmi.
  - apply Hsol2 in Ho.
    destruct (tso_schedule_values _ o Ho Hinvt Hokt) as (f & -> & Hn & Hf).
    exists f. split_and!; [done| |done]. by rewrite Hn, Hmt, Hm1, Hmi.
Qed.

(** ** Building a graph over another *)

Lemma build_fields rule add s :
  writes_rule rule add → dims3 (po s) →
  let s' := for_pure num_threads 0 (λ t s,
              for_pure (num_instrs t) 0 (λ i s, add s t i) s) s in
  executed s' = executed s ∧ memory s' = memory s ∧
  loadvalues s' = loadvalues s ∧ solutions_ibm s' = solutions_ibm s ∧
  solutions_tso s' = solutions_tso s.
Proof.
  intros Hadd Hd.
  destruct (build_po_graph_shape rule add s Hadd Hd) as (Hb & _).
  simpl in *. rewrite Hb. done.
Qed.

Lemma build_over rule add rule' add' s :
  writes_rule rule add → writes_rule rule' add' → dims3 (po s) →
  let build := λ (add : State → nat → nat → State) s,
    for_pure num_threads 0 (λ t s,
      for_pure (num_instrs t) 0 (λ i s, add s t i) s) s in
  build add (build add' s) = build add s.
Proof.
  intros Hadd Hadd' Hd build.
  destruct (build_po_graph_shape rule' add' s Hadd' Hd) as (_ & Hd' & Hget').
  destruct (build_fields rule' add' s Hadd' Hd) as (He' & Hm' & Hl' & Hi' & Ht').
  destruct (build_po_graph_shape rule add s Hadd Hd) as (_ & Hdb & Hget).
  destruct (build_fields rule add s Hadd Hd) as (He & Hm & Hl & Hi & Ht).
  fold (build add' s) in Hd', Hget', He', Hm', Hl', Hi', Ht'.
  fold (build add s) in Hdb, Hget, He, Hm, Hl, Hi, Ht.
  destruct (build_po_graph_shape rule add (build add' s) Hadd Hd')
    as (_ & Hd2 & Hget2).
  destruct (build_fields rule add (build add' s) Hadd Hd')
    as (He2 & Hm2 & Hl2 & Hi2 & Ht2).
  fold (build add (build add' s)) in Hd2, Hget2, He2, Hm2, Hl2, Hi2, Ht2.
  apply state_eq; try congruence.
  apply (ext3 false); [done..|]. intros t d i _ _ _.
  specialize (Hget2 t d i). specialize (Hget t d i). specialize (Hget' t d i).
  unfold get_po in *. rewrite Hget2, Hget.
  destruct (decide (t < num_threads ∧ i < num_instrs t ∧ d < num_instrs t))
    as [Hin|Hout]; [done|].
  exact Hget'.
Qed.

(** X22. A graph builder overwrites whatever the matrix held in the cells
    of the program: building the graph of one model over the graph of the
    other, or over its own, gives the same state as building it directly.
    So [main] need not clear [po] between its two phases. *)
Theorem graph_builders_overwrite s :
  dims3 (po s) →
  build_po_graph_tso (build_po_graph_ibm s) = build_po_graph_tso s ∧
  build_po_graph_ibm (build_po_graph_tso s) = build_po_graph_ibm s ∧
  build_po_graph_ibm (build_po_graph_ibm s) = build_po_graph_ibm s ∧
  build_po_graph_tso (build_po_graph_tso s) = build_po_graph_tso s.
Proof.
  intros Hd. split_and!.
  - apply (build_over rule_tso add_po_tso rule_ibm add_po_ibm);
      [apply add_po_tso_writes|apply add_po_ibm_writes|done].
  - apply (build_over rule_ibm add_po_ibm rule_tso add_po_tso);
      [apply add_po_ibm_writes|apply add_po_tso_writes|done].
  - apply (build_over rule_ibm add_po_ibm rule_ibm add_po_ibm);
      [apply add_po_ibm_writes|apply add_po_ibm_writes|done].
  - apply (build_over rule_tso add_po_tso rule_tso add_po_tso);
      [apply add_po_tso_writes|apply add_po_tso_writes|done].
Qed.

(** ** Stores reach memory in program order *)

Lemma ibm_schedule_inv (P : State → Prop) s o :
  (∀ s t i old s1, search_inv rule_ibm s → valid t i →
     get_executed s t i = false → has_po_dependencies s t i = false →
     ibm_execute s t i = Ok (old, s1) → P s → P s1) →
  ibm_schedule s o → search_inv rule_ibm s → P s →
  ∃ f, o = outcome f ∧ all_executed f = true ∧ P f.
Proof.
  intros Hstep.
  induction 1 as [s t i old s1 Hv Hex Hdeps Hexec Hall
                 |s t i old s1 o Hv Hex Hdeps Hexec Hall Hs IH];
    intros Hinv HP.
  - exists s1. split_and!; [done|done|].
    by apply (Hstep s t i old s1).
  - destruct (ibm_execute_spec s t i Hinv Hv Hex)
      as (old' & s1' & Hexec' & Hinv1 & _).
    rewrite Hexec in Hexec'. injection Hexec' as <- <-.
    apply IH; [done|]. by apply (Hstep s t i old s1).
Qed.

Lemma tso_schedule_inv (P : State → Prop) s o :
  (∀ s t i old s1, search_inv rule_tso s → valid t i →
     get_executed s t i = false → has_po_dependencies s t i = false →
     tso_execute s t i = Ok (old, s1) → P s → P s1) →
  tso_schedule s o → search_inv rule_tso s → P s →
  ∃ f, o = outcome f ∧ all_executed f = true ∧ P f.
Proof.
  intros Hstep.
  induction 1 as [s t i old s1 Hv Hex Hdeps Hexec Hall
                 |s t i old s1 o Hv Hex Hdeps Hexec Hall Hs IH];
    intros Hinv HP.
  - exists s1. split_and!; [done|done|].
    by apply (Hstep s t i old s1).
  - destruct (tso_execute_spec s t i Hinv Hv Hex)
      as (old' & s1' & f' & Hexec' & Hinv1 & _).
    rewrite Hexec in Hexec'. injection Hexec' as <- <-.
    apply IH; [done|]. by apply (Hstep s t i old s1).
Qed.

Lemma get_executed_after s s1 t i t' i' :
  dims s → valid t i → executed s1 = set2 (executed s) t i true →
  get_executed s1 t' i' =
    if decide ((t, i) = (t', i')) then true else get_executed s t' i'.
Proof.
  intros (_ & Hde & _) Hv He. unfold get_executed. rewrite He.
  destruct (decide ((t, i) = (t', i'))) as [[= <- <-]|Hne].
  - destruct (valid_bounds t i Hbounded Hv).
    by rewrite (get2_set2_eq false MAX_THREADS MAX_INSTRUCTIONS).
  - by rewrite get2_set2_ne.
Qed.

Lemma stores_in_order_step rule s s1 t i :
  (∀ t d i, i < d → store (instr_at t i) = true →
            store (instr_at t d) = true → rule t d i = true) →
  search_inv rule s → valid t i → get_executed s t i = false →
  has_po_dependencies s t i = false →
  executed s1 = set2 (executed s) t i true →
  (if store (instr_at t i)
   then ∃ old, update_memvar_list (memory s) (mem (instr_at t i))
                 (value (instr_at t i)) = Ok (old, memory s1)
   else memory s1 = memory s) →
  stores_in_order s → stores_in_order s1.
Proof.
  intros Hrule Hinv Hv Hex Hdeps He Heff [Hclosed Hmem].
  assert (∀ t' i', get_executed s1 t' i' =
            if decide ((t, i) = (t', i')) then true else get_executed s t' i')
    as Hget.
  { intros t' i'. apply get_executed_after; [apply Hinv|done..]. }
  rewrite (has_po_dependencies_false rule) in Hdeps by (done || apply Hinv).
  assert (∀ t' j, get_executed s t' j = true → get_executed s1 t' j = true)
    as Hmono.
  { intros t' j Hj. rewrite Hget. by case_decide. }
  assert (∀ t' j, store (instr_at t' j) ≠ store (instr_at t i) ∨
                  mem (instr_at t' j) ≠ mem (instr_at t i) →
                  get_executed s1 t' j = get_executed s t' j) as Hother.
  { intros t' j Hdiff. rewrite Hget.
    destruct (decide ((t, i) = (t', j))) as [[= <- <-]|]; [|done].
    by destruct Hdiff. }
  split.
  - intros t' d i' Hvd Hlt Hsd Hsi. rewrite !Hget.
    destruct (decide ((t, i) = (t', i'))) as [|Hne]; [done|].
    destruct (decide ((t, i) = (t', d))) as [[= <- <-]|Hned].
    + intros _. apply Hdeps; [destruct Hv; lia|]. by apply Hrule.
    + by apply Hclosed.
  - intros x v Hgetx. unfold get_memvar in Hgetx.
    destruct (store (instr_at t i)) eqn:Hst.
    + destruct Heff as [old Hup].
      destruct (decide (x = mem (instr_at t i))) as [->|Hne].
      * right. exists t, i.
        destruct (update_memvar_list_registered (memory s)
                    (mem (instr_at t i)) (value (instr_at t i)))
          as (old' & m' & Hup' & _ & _ & Hnew & _).
        { by eapply update_memvar_list_ok. }
        rewrite Hup in Hup'. injection Hup' as <- <-.
        rewrite Hnew in Hgetx. injection Hgetx as <-.
        split_and!; try done.
        -- rewrite Hget. by rewrite decide_True.
        -- intros j' Hlt Hj' Hsj' Hmj'. rewrite Hget.
           rewrite decide_False by (intros [= ->]; lia).
           destruct (get_executed s t j') eqn:Hexj; [|done].
           rewrite (Hclosed t j' i) in Hex; try done.
           destruct Hv. by split.
      * rewrite (update_memvar_list_other _ _ _ _ _ x Hup Hne) in Hgetx.
        destruct (Hmem x v Hgetx)
          as [[-> Hnone]|(t' & j & Hvj & Hsj & Hmj & Hexj & -> & Hlater)].
        -- left. split; [done|]. intros t' j Hvj Hsj Hmj.
           rewrite Hother by (right; congruence). by apply Hnone.
        -- right. exists t', j. split_and!; try done; [by apply Hmono|].
           intros j' Hlt Hj' Hsj' Hmj'.
           rewrite Hother by (right; congruence). by apply Hlater.
    + rewrite Heff in Hgetx.
      destruct (Hmem x v Hgetx)
        as [[-> Hnone]|(t' & j & Hvj & Hsj & Hmj & Hexj & -> & Hlater)].
      * left. split; [done|]. intros t' j Hvj Hsj Hmj.
        rewrite Hother by (left; congruence). by apply Hnone.
      * right. exists t', j. split_and!; try done; [by apply Hmono|].
        intros j' Hlt Hj' Hsj' Hmj'.
        rewrite Hother by (left; congruence). by apply Hlater.
Qed.

Lemma stores_in_order_ibm s t i old s1 :
  search_inv rule_ibm s → valid t i → get_executed s t i = false →
  has_po_dependencies s t i = false → ibm_execute s t i = Ok (old, s1) →
  stores_in_order s → stores_in_order s1.
Proof.
  intros Hinv Hv Hex Hdeps Hexec.
  destruct (ibm_execute_spec s t i Hinv Hv Hex)
    as (old' & s1' & Hexec' & _ & _ & _ & _ & He & Heff & _).
  rewrite Hexec in Hexec'. injection Hexec' as <- <-.
  apply (stores_in_order_step rule_ibm s s1 t i); try done.
  - intros t' d i' Hlt Hsi Hsd. unfold rule_ibm, edge_ibm.
    rewrite Hsi, Hsd. simpl. rewrite andb_true_r. by apply Nat.ltb_lt.
  - destruct (store (instr_at t i)).
    + destruct Heff as [Hup _]. by exists old.
    + by destruct Heff as (v & _ & Hm & _).
Qed.

Lemma stores_in_order_tso s t i old s1 :
  search_inv rule_tso s → valid t i → get_executed s t i = false →
  has_po_dependencies s t i = false → tso_execute s t i = Ok (old, s1) →
  stores_in_order s → stores_in_order s1.
Proof.
  intros Hinv Hv Hex Hdeps Hexec.
  destruct (tso_execute_spec s t i Hinv Hv Hex)
    as (old' & s1' & f & Hexec' & _ & _ & _ & _ & He & Heff & _).
  rewrite Hexec in Hexec'. injection Hexec' as <- <-.
  apply (stores_in_order_step rule_tso s s1 t i); try done.
  - intros t' d i' Hlt Hsi Hsd. unfold rule_tso, edge_tso.
    rewrite Hsi, Hsd. rewrite andb_true_r. by apply Nat.ltb_lt.
  - destruct (store (instr_at t i)).
    + destruct Heff as (_ & Hup & _). by exists old.
    + by destruct Heff as (_ & Hm & _).
Qed.

Lemma stores_in_order_start s :
  Forall (λ p, p.2 = 0%Z) (memory s) →
  (∀ t i, valid t i → get_executed s t i = false) →
  stores_in_order s.
Proof.
  intros Hz Hex. split.
  - intros t d i Hvd _ _ _ Hd. by rewrite Hex in Hd.
  - intros x v Hget. left. split; [|by intros t j Hv _ _; apply Hex].
    unfold get_memvar in Hget.
    induction Hz as [|[y w] m Hw _ IH]; simpl in Hget; [done|].
    destruct (String.eqb y x); [|by apply IH].
    injection Hget as <-. done.
Qed.

Lemma stores_in_order_final f x v :
  all_executed f = true → stores_in_order f → get_memvar f x = Ok v →
  (v = 0%Z ∧ ∀ t j, valid t j → store (instr_at t j) = true →
                     mem (instr_at t j) ≠ x) ∨
  ∃ t j, last_store_to x t j ∧ v = value (instr_at t j).
Proof.
  rewrite all_executed_spec. intros Hall [_ Hmem] Hget.
  destruct (Hmem x v Hget)
    as [[-> Hnone]|(t & j & Hvj & Hsj & Hmj & _ & -> & Hlater)].
  - left. split; [done|]. intros t j Hvj Hsj Hmj.
    specialize (Hnone t j Hvj Hsj Hmj). by rewrite Hall in Hnone.
  - right. exists t, j. split; [|done]. split_and!; try done.
    intros j' Hlt Hj' Hsj' Hmj'.
    specialize (Hlater j' Hlt Hj' Hsj' Hmj').
    rewrite Hall in Hlater; [done|]. destruct Hvj. by split.
Qed.

(** X23. Stores are not reordered.  Every outcome that [main] records, in
    either set, is rendered from a state in which each location holds the
    value of the last store to it of one of the threads; a location holds
    0 only when that is such a value or when the program has no store to
    it. *)
Theorem final_memory_is_a_last_store :
  ∃ s, main = Ok s ∧
    ∀ o, o ∈ solutions_ibm s ∨ o ∈ solutions_tso s →
      ∃ f, o = outcome f ∧
        ∀ x v, get_memvar f x = Ok v →
          (v = 0%Z ∧ ∀ t j, valid t j → store (instr_at t j) = true →
                             mem (instr_at t j) ≠ x) ∨
          ∃ t j, last_store_to x t j ∧ v = value (instr_at t j).
Proof.
  destruct main_shape as (s1 & s2 & Hr1 & Hr2 & Hmain & Hp1 & Heq & _ & Hc1).
  pose proof clean_load_program as Hc0.
  destruct (run_ibm_exact _ Hc0) as (s1' & Hr1' & _ & _ & Hsol1).
  rewrite Hr1 in Hr1'. injection Hr1' as <-.
  destruct (run_tso_exact s1 Hc1) as (s2' & Hr2' & _ & _ & Hsol2).
  rewrite Hr2 in Hr2'. injection Hr2' as <-.
  destruct (ibm_start_inv _ Hc0) as (Hinvi & Hexi & Hmi & _).
  destruct (tso_start_inv s1 Hc1) as (Hinvt & Hext & Hmt & _).
  destruct Hp1 as ((_ & _ & Hm1 & _) & _).
  destruct load_program_memory as [Hzero _].
  exists s2. split; [done|]. rewrite Heq. intros o [Ho|Ho].
  - apply Hsol1 in Ho.
    destruct (ibm_schedule_inv stores_in_order _ o stores_in_order_ibm Ho Hinvi)
      as (f & -> & Hall & Hf).
    { apply stores_in_order_start; [by rewrite Hmi|done]. }
    exists f. split; [done|]. intros x v. by apply stores_in_order_final.
  - apply Hsol2 in Ho.
    destruct (tso_schedule_inv stores_in_order _ o stores_in_order_tso Ho Hinvt)
      as (f & -> & Hall & Hf).
    { apply stores_in_order_start; [by rewrite Hmt, Hm1, Hmi|done]. }
    exists f. split; [done|]. intros x v. by apply stores_in_order_final.
Qed.

End Bounded.

End Checker.

(** * The example programs *)

Lemma sb_program_bounded : bounded_program sb_program.
Proof.
  split; [cbv; lia|].
  repeat (apply Forall_cons; split; [cbv; lia|]). apply Forall_nil_2.
Qed.

Lemma forward_program_bounded : bounded_program forward_program.
Proof.
  split; [cbv; lia|].
  repeat (apply Forall_cons; split; [cbv; lia|]). apply Forall_nil_2.
Qed.

(** C1, as stated, fails on the code: for the program whose one thread has
    no instruction, program order execution yields the empty outcome, but
    neither search records any outcome. *)
Lemma empty_thread_records_no_outcome :
  let p := empty_thread_program in
  ∃ F s, in_order p 0 (load_program p zero_state) = Ok F ∧ main p = Ok s ∧
    solutions_ibm s = ∅ ∧ solutions_tso s = ∅ ∧
    solutions_ibm s ≠ {[ outcome p F ]}.
Proof.
  intros p.
  assert (∃ s, main p = Ok s ∧
            solutions_ibm s = ∅ ∧ solutions_tso s = ∅ ∧
            solutions_ibm s ≠ {[ outcome p (load_program p zero_state) ]})
    as (s & Hmain & Hrest).
  { apply (ok_check _ _ (λ s,
      bool_decide (solutions_ibm s = ∅) && bool_decide (solutions_tso s = ∅)
      && bool_decide (solutions_ibm s ≠
                        {[ outcome p (load_program p zero_state) ]}))).
    - intros s H. apply andb_prop in H as [[H1 H2]%andb_prop H3].
      by apply bool_decide_eq_true in H1, H2, H3.
    - vm_compute. reflexivity. }
  exists (load_program p zero_state), s. split; [reflexivity|]. by split.
Qed.

(** C2, as stated, fails on the code: in the store-buffering program the
    outcome in which both loads observe 0 is recorded by the store-atomic
    search, so it is neither absent from [solutions_ibm] nor starred. *)
Lemma sb_both_zero_not_relaxed_only :
  ∃ s, main sb_program = Ok s ∧
    ¬ ((both_loads_zero ∉ solutions_ibm s) ∧
       both_loads_zero ∈ solutions_tso s ∧
       report_line s both_loads_zero = (both_loads_zero +:+ "*")).
Proof.
  apply (ok_check _ _ (λ s, bool_decide (both_loads_zero ∈ solutions_ibm s))).
  - intros s Hin%bool_decide_eq_true. tauto.
  - vm_compute. reflexivity.
Qed.

(** C2 (as the code has it).  For thread 1 = [st x 1, ld y] and
    thread 2 = [st y 1, ld x] both searches record the same four outcomes;
    the one in which both loads observe 0 is in [solutions_ibm] and in
    [solutions_tso], and its line of the report carries no star. *)
Theorem sb_both_zero_in_both_models :
  ∃ s, main sb_program = Ok s ∧
    both_loads_zero ∈ solutions_ibm s ∧
    both_loads_zero ∈ solutions_tso s ∧
    report_line s both_loads_zero = both_loads_zero ∧
    solutions_ibm s =
      {[ "[x]==1; [y]==1; y==1; x==1; "; "[x]==1; [y]==1; y==1; x==0; ";
         "[x]==1; [y]==1; y==0; x==1; "; both_loads_zero ]} ∧
    solutions_tso s = solutions_ibm s.
Proof.
  apply (ok_check _ _ (λ s,
    bool_decide (both_loads_zero ∈ solutions_ibm s)
    && bool_decide (both_loads_zero ∈ solutions_tso s)
    && bool_decide (report_line s both_loads_zero = both_loads_zero)
    && bool_decide (solutions_ibm s =
         {[ "[x]==1; [y]==1; y==1; x==1; "; "[x]==1; [y]==1; y==1; x==0; ";
            "[x]==1; [y]==1; y==0; x==1; "; both_loads_zero ]})
    && bool_decide (solutions_tso s = solutions_ibm s))).
  - intros s H. repeat (apply andb_prop in H as [H ?]).
    repeat match goal with
           | H : bool_decide _ = true |- _ => apply bool_decide_eq_true in H
           end.
    done.
  - vm_compute. reflexivity.
Qed.

(** C4, as stated, fails on the code: for [st x 1; ld x] with the load
    executing first, memory holds 0 for [x], yet the value written for the
    load before the second recursion is the forwarded 1; and the relaxed
    search never records the outcome in which this load observes 0. *)
Lemma second_recursion_records_forwarded_value :
  let p := forward_program in
  let s := tso_start p (load_program p zero_state) in
  ∃ old s1 s2,
    forwarding p s 0 1 = Ok true ∧
    tso_execute p s 0 1 = Ok (old, s1) ∧
    get_memvar s1 "x" = Ok 0%Z ∧
    tso_second_load p s1 0 1 = Ok s2 ∧
    get_load s2 0 1 = 1%Z ∧
    ∃ s', main p = Ok s' ∧ solutions_tso s' = {[ "[x]==1; x==1; " ]} ∧
          "[x]==1; x==0; " ∉ solutions_tso s'.
Proof.
  intros p s. eexists _, _, _. split_and!; try (vm_compute; reflexivity).
  apply (ok_check _ _ (λ s',
    bool_decide (solutions_tso s' = {[ "[x]==1; x==1; " ]})
    && bool_decide ("[x]==1; x==0; " ∉ solutions_tso s'))).
  - intros s' [H1 H2]%andb_prop.
    by apply bool_decide_eq_true in H1, H2.
  - vm_compute. reflexivity.
Qed.

(** C5 on the code: in [st x 1; st x 2; ld x], once [st x 1] has executed
    the load is eligible while its nearest preceding store [st x 2] is not
    executed; the forwarding test is false all the same, and the load records
    the memory value 1 instead of the value 2 of that store.  The relaxed
    search so records the outcome [x]==2; x==1, which the store-atomic search
    does not. *)
Theorem load_behind_two_stores_reads_memory :
  let p := two_stores_program in
  let s := tso_start p (load_program p zero_state) in
  ∃ old0 s1 old s2,
    tso_execute p s 0 0 = Ok (old0, s1) ∧
    get_executed s1 0 1 = false ∧
    get_executed s1 0 2 = false ∧
    has_po_dependencies p s1 0 2 = false ∧
    get_prevstore p 0 2 = Ok 2%Z ∧
    forwarding p s1 0 2 = Ok false ∧
    get_memvar s1 "x" = Ok 1%Z ∧
    tso_execute p s1 0 2 = Ok (old, s2) ∧
    get_load s2 0 2 = 1%Z ∧
    ∃ s', main p = Ok s' ∧
      solutions_ibm s' = {[ "[x]==2; x==2; " ]} ∧
      solutions_tso s' = {[ "[x]==2; x==2; "; "[x]==2; x==1; " ]}.
Proof.
  intros p s. eexists _, _, _, _. split_and!; try (vm_compute; reflexivity).
  apply (ok_check _ _ (λ s',
    bool_decide (solutions_ibm s' = {[ "[x]==2; x==2; " ]})
    && bool_decide (solutions_tso s' =
                      {[ "[x]==2; x==2; "; "[x]==2; x==1; " ]}))).
  - intros s' [H1 H2]%andb_prop.
    by apply bool_decide_eq_true in H1, H2.
  - vm_compute. reflexivity.
Qed.

(** * The theorems at concrete inputs *)

(** The inclusion on the store-buffering program. *)
Lemma relaxed_outcomes_include_store_atomic_witness :
  bounded_program sb_program ∧
  ∃ s, main sb_program = Ok s ∧ solutions_ibm s ⊆ solutions_tso s.
Proof.
  split; [exact sb_program_bounded|].
  exact (relaxed_outcomes_include_store_atomic sb_program sb_program_bounded).
Defined.

(** The edge from [ld x] back to [st x 1]: set in the store-atomic graph,
    clear in the relaxed one. *)
Lemma dependency_graph_edges_witness :
  bounded_program forward_program ∧ dims3 (po zero_state) ∧
  0 < num_threads forward_program ∧ 1 < num_instrs forward_program 0 ∧
  get_po (build_po_graph_ibm forward_program zero_state) 0 1 0 = true ∧
  get_po (build_po_graph_tso forward_program zero_state) 0 1 0 = false.
Proof.
  assert (dims3 (po zero_state)) as Hd by apply zero_state_dims.
  assert (0 < num_threads forward_program) as Ht by (cbv; lia).
  assert (1 < num_instrs forward_program 0) as H1 by (cbv; lia).
  assert (0 < num_instrs forward_program 0) as H0 by (cbv; lia).
  destruct (dependency_graph_edges forward_program forward_program_bounded
              zero_state 0 1 0 Hd Ht H1 H0) as [Hlt _].
  destruct (Hlt ltac:(lia)) as (Hibm & _ & Htso).
  split_and!; [exact forward_program_bounded|exact Hd|exact Ht|exact H1|..].
  - apply Hibm. left. split; [reflexivity|]. right. reflexivity.
  - rewrite Htso. reflexivity.
Defined.

(** Both searches of the store-buffering program, from the states in which
    [main] calls them. *)
Lemma search_restores_state_witness :
  let p := sb_program in
  let a := ibm_start p (load_program p zero_state) in
  let b := tso_start p (load_program p zero_state) in
  bounded_program p ∧ unexecuted p a ≤ 4 ∧ unexecuted p b ≤ 4 ∧
  search_inv p (rule_ibm p) a ∧ search_inv p (rule_tso p) b ∧
  (∃ a', get_possible_executions_ibm p 4 a = Ok a' ∧
         memory a' = memory a ∧ loadvalues a' = loadvalues a ∧
         executed a' = executed a ∧ po a' = po a) ∧
  (∃ b', get_possible_executions_tso p 4 b = Ok b' ∧
         memory b' = memory b ∧ loadvalues b' = loadvalues b ∧
         executed b' = executed b ∧ po b' = po b).
Proof.
  intros p a b.
  assert (bounded_program p) as Hb by exact sb_program_bounded.
  assert (unexecuted p a ≤ 4) as Ha by (vm_compute; lia).
  assert (unexecuted p b ≤ 4) as Hbb by (vm_compute; lia).
  assert (search_inv p (rule_ibm p) a) as Hia.
  { apply ibm_start_inv; [done|]. by apply clean_load_program. }
  assert (search_inv p (rule_tso p) b) as Hib.
  { apply tso_start_inv; [done|]. by apply clean_load_program. }
  split_and!; [exact Hb|exact Ha|exact Hbb|exact Hia|exact Hib|..].
  - exact (proj1 (search_restores_state p Hb 4 a Ha) Hia).
  - exact (proj1 (proj2 (search_restores_state p Hb 4 b Hbb)) Hib).
Defined.

(** The store-buffering program after the reading loop. *)
Lemma registered_lookups_never_fail_witness :
  let p := sb_program in
  let s := load_program p zero_state in
  registered p s ∧
  get_possible_executions_ibm p 4 s ≠ AssertFail ∧
  get_possible_executions_tso p 4 s ≠ AssertFail.
Proof.
  intros p s.
  assert (registered p s) as Hr by exact (load_program_registered p zero_state).
  split; [done|]. exact (registered_lookups_never_fail p s 4 Hr).
Defined.

(** The store-atomic search of the store-buffering program. *)
Lemma searches_terminate_witness :
  let p := sb_program in
  let a := ibm_start p (load_program p zero_state) in
  bounded_program p ∧ search_inv p (rule_ibm p) a ∧ unexecuted p a ≤ 4 ∧
  (∃ a', get_possible_executions_ibm p 4 a = Ok a') ∧
  (∃ a', ibm_body p (get_possible_executions_ibm p 3) a = Ok a') ∧
  ∃ s, main p = Ok s.
Proof.
  intros p a.
  assert (bounded_program p) as Hb by exact sb_program_bounded.
  assert (unexecuted p a ≤ 4) as Ha by (vm_compute; lia).
  assert (search_inv p (rule_ibm p) a) as Hia.
  { apply ibm_start_inv; [done|]. by apply clean_load_program. }
  destruct (searches_terminate p Hb)
    as (Hbody & _ & Hrun & _ & _ & _ & _ & Hmain).
  split_and!; [exact Hb|exact Hia|exact Ha|..|exact Hmain].
  - by apply Hrun.
  - apply Hbody; [done|]. intros x Hx Hlt.
    apply wp_total. apply ibm_search_total; [done..|]. lia.
Defined.

(** The relaxed search of [st x 1; ld x] and the undo of its load. *)
Lemma load_results_zero_unless_executed_witness :
  let p := forward_program in
  let b := tso_start p (load_program p zero_state) in
  bounded_program p ∧
  dims b ∧ registered p b ∧ po_inv p (rule_tso p) b ∧ load_inv p b ∧
  unexecuted p b ≤ 2 ∧
  (∃ b', get_possible_executions_tso p 2 b = Ok b' ∧ load_inv p b') ∧
  valid p 0 1 ∧ get_executed b 0 1 = false ∧
  (update_load (update_load b 0 1 1).2 0 1 0).2 = b.
Proof.
  intros p b.
  assert (bounded_program p) as Hb by exact forward_program_bounded.
  assert (unexecuted p b ≤ 2) as Hu by (vm_compute; lia).
  assert (search_inv p (rule_tso p) b) as [Hd Hr Hpo Hl].
  { apply tso_start_inv; [done|]. by apply clean_load_program. }
  assert (valid p 0 1) as Hv by (split; cbv; lia).
  assert (get_executed b 0 1 = false) as Hex by (vm_compute; reflexivity).
  destruct (load_results_zero_unless_executed p Hb)
    as (_ & _ & _ & Hrun & _ & Hundo).
  split_and!;
    [exact Hb|exact Hd|exact Hr|exact Hpo|exact Hl|exact Hu| |exact Hv|exact Hex|].
  - by apply Hrun.
  - by apply Hundo.
Defined.

(** The load of [st x 1; ld x] executing first in the relaxed search. *)
Lemma forwarded_load_recursions_witness :
  let p := forward_program in
  let s := tso_start p (load_program p zero_state) in
  let rec := get_possible_executions_tso p 2 in
  bounded_program p ∧ search_inv p (rule_tso p) s ∧ valid p 0 1 ∧
  get_executed s 0 1 = false ∧ has_po_dependencies p s 0 1 = false ∧
  store (instr_at p 0 1) = false ∧ forwarding p s 0 1 = Ok true ∧
  ∃ v old s1 s2 s3,
    get_prevstore p 0 1 = Ok v ∧
    tso_execute p s 0 1 = Ok (old, s1) ∧ get_load s1 0 1 = v ∧
    tso_explore p rec s1 = Ok s2 ∧
    tso_second_load p s2 0 1 = Ok s2 ∧ get_load s2 0 1 = v ∧
    tso_explore p rec s2 = Ok s3 ∧
    tso_step p rec 0 1 s = Ok (restore s s3).
Proof.
  intros p s rec.
  assert (bounded_program p) as Hb by exact forward_program_bounded.
  assert (search_inv p (rule_tso p) s) as Hinv.
  { apply tso_start_inv; [done|]. by apply clean_load_program. }
  assert (valid p 0 1) as Hv by (split; cbv; lia).
  assert (get_executed s 0 1 = false) as Hex by (vm_compute; reflexivity).
  assert (has_po_dependencies p s 0 1 = false) as Hdeps
    by (vm_compute; reflexivity).
  assert (store (instr_at p 0 1) = false) as Hst by reflexivity.
  assert (forwarding p s 0 1 = Ok true) as Hfw by (vm_compute; reflexivity).
  split_and!; [exact Hb|exact Hinv|exact Hv|exact Hex|exact Hdeps|exact Hst|exact Hfw|].
  apply (forwarded_load_recursions p Hb rec s 0 1 Hinv Hv Hex Hdeps Hst Hfw).
  intros x Hx Hlt. apply wp_total. apply tso_search_total; [done..|].
  assert (unexecuted p s ≤ 2) by (vm_compute; lia). lia.
Defined.

(** The one thread [st x 1; ld x]. *)
Lemma single_thread_program_order_witness :
  let p := forward_program in
  let th := [st "x" 1; ld "x"] in
  bounded_program p ∧ p = [th] ∧ th ≠ [] ∧ one_store_before_loads p 0 ∧
  ∃ F s, in_order p 0 (load_program p zero_state) = Ok F ∧ main p = Ok s ∧
    solutions_ibm s = {[ outcome p F ]} ∧ outcome p F ∈ solutions_tso s ∧
    (one_store_before_loads p 0 → solutions_tso s = {[ outcome p F ]}) ∧
    (∀ x, x ∈ (memory (load_program p zero_state)).*1 →
       get_memvar F x = Ok (default 0%Z (last_store p 0 x (length th)))) ∧
    (∀ i, i < length th → store (instr_at p 0 i) = false →
       get_load F 0 i = default 0%Z (last_store p 0 (mem (instr_at p 0 i)) i)).
Proof.
  intros p th.
  assert (p = [th]) as Hp by reflexivity.
  assert (th ≠ []) as Hth by discriminate.
  assert (one_store_before_loads p 0) as Hsingle.
  { intros i j1 j2 Hi _ H12 H2i. change (num_instrs p 0) with 2 in Hi. lia. }
  split_and!; [exact forward_program_bounded|exact Hp|exact Hth|exact Hsingle|].
  exact (single_thread_program_order p forward_program_bounded th Hp Hth).
Defined.

(** ** The reading loop *)

Lemma register_all_names l s y :
  y ∈ (memory (register_all l s)).*1 ↔
  y ∈ (memory s).*1 ∨ ∃ ins, ins ∈ l ∧ y = mem ins.
Proof. apply load_thread_names. Qed.

Lemma register_all_frame l s :
  po (register_all l s) = po s ∧ executed (register_all l s) = executed s ∧
  loadvalues (register_all l s) = loadvalues s ∧
  solutions_ibm (register_all l s) = solutions_ibm s ∧
  solutions_tso (register_all l s) = solutions_tso s.
Proof.
  revert s. induction l as [|ins l IH]; intros s; [done|].
  unfold register_all in *. simpl. destruct (IH (insert_memvar s (mem ins)))
    as (-> & -> & -> & -> & ->). done.
Qed.

Lemma register_all_app l1 l2 s :
  register_all (l1 ++ l2) s = register_all l2 (register_all l1 s).
Proof. apply foldl_app. Qed.

Lemma load_program_register_all p s :
  load_program p s = register_all (concat p) s.
Proof.
  revert s. induction p as [|th p IH]; intros s; [done|].
  simpl. rewrite register_all_app, <- IH. done.
Qed.

Lemma reader_start_ok : reader_ok (mkReader [] [] zero_state).
Proof.
  split_and!; simpl.
  - unfold MAX_THREADS. lia.
  - constructor.
  - split; simpl; [unfold MAX_INSTRUCTIONS; lia|]. intros i ins Hi. done.
  - done.
Qed.

Lemma fits_thread_snoc th ins :
  fits_thread th → length th < MAX_INSTRUCTIONS →
  (store ins = false → S (length th) < MAX_INSTRUCTIONS) →
  fits_thread (th ++ [ins]).
Proof.
  intros [Hlen Hloads] Hlt Hins. split.
  - rewrite length_app. simpl. lia.
  - intros i ins' Hi Hst. apply lookup_app_Some in Hi as [Hi|[Hge Hi]].
    + by eapply Hloads.
    + apply list_lookup_singleton_Some in Hi as [Hz <-].
      assert (i = length th) as -> by lia. by apply Hins.
Qed.

Lemma read_line_ok r l r' :
  reader_ok r → read_line r l = Loaded r' →
  reader_ok r' ∧ (∀ op, l ≠ OtherLine op) ∧
  if decide (l = Separator)
  then closed r' = closed r ++ [current r] ∧ current r' = []
  else closed r' = closed r ∧ current r' = current r ++ line_instrs l.
Proof.
  intros (Hth & Hcl & Hcur & Hgl) Hread.
  destruct l as [|x v|x| |op]; simpl in Hread.
  - case_decide as Hlen; [|done]. injection Hread as <-.
    rewrite decide_True by done. split; [|by split].
    unfold reader_ok. simpl. split; [exact Hlen|]. split; [|split].
    + apply Forall_app. split; [done|]. by constructor.
    + split; simpl; [unfold MAX_INSTRUCTIONS; lia|]. done.
    + rewrite Hgl, concat_app. simpl. by rewrite !app_nil_r.
  - case_decide as Hlen; [|done]. injection Hread as <-.
    rewrite decide_False by done. split; [|by split].
    unfold reader_ok. simpl. split; [exact Hth|]. split; [exact Hcl|]. split.
    + by apply fits_thread_snoc.
    + by rewrite app_assoc, register_all_app, <- Hgl.
  - case_decide as Hlen; [|done]. case_decide as Hlen'; [|done].
    injection Hread as <-.
    rewrite decide_False by done. split; [|by split].
    unfold reader_ok. simpl. split; [exact Hth|]. split; [exact Hcl|]. split.
    + apply fits_thread_snoc; [done..|]. intros _.
      rewrite length_app in Hlen'. simpl in Hlen'. lia.
    + rewrite app_assoc, register_all_app, <- Hgl.
      change (register_all [ld x] (globals r)) with (insert_memvar (globals r) x).
      set (s := insert_memvar (globals r) x).
      assert (loadvalues s = loadvalues zero_state) as Hl.
      { subst s. simpl. rewrite Hgl.
        by destruct (register_all_frame (concat (closed r) ++ current r)
                       zero_state) as (_ & _ & -> & _). }
      change (loadvalues (globals r)) with (loadvalues s). rewrite Hl.
      pose proof (set2_get2 0%Z (loadvalues zero_state) (length (closed r))
                    (length (current r ++ [ld x]))) as Hset.
      change (get2 0%Z (loadvalues zero_state) (length (closed r))
                (length (current r ++ [ld x])))
        with (get_load zero_state (length (closed r))
                (length (current r ++ [ld x]))) in Hset.
      rewrite zero_state_loads in Hset. rewrite Hset, <- Hl. by destruct s.
  - injection Hread as <-. rewrite decide_False by done. simpl.
    rewrite app_nil_r. by split_and!.
  - done.
Qed.

Lemma read_lines_app r l1 l2 :
  read_lines r (l1 ++ l2) =
    match read_lines r l1 with
    | Loaded r1 => read_lines r1 l2
    | Rejected => Rejected
    | OutOfArray => OutOfArray
    end.
Proof.
  revert r. induction l1 as [|l l1 IH]; intros r; simpl; [done|].
  destruct (read_line r l); [apply IH|done..].
Qed.

Lemma read_lines_ok r ls r' :
  reader_ok r → read_lines r ls = Loaded r' →
  reader_ok r' ∧ length (closed r') = length (closed r) + separators ls ∧
  (∀ op, OtherLine op ∉ ls).
Proof.
  revert r. induction ls as [|l ls IH]; intros r Hok Hread; simpl in Hread.
  - injection Hread as <-. split_and!; [done|unfold separators; simpl; lia|].
    intros op Hin. by apply elem_of_nil in Hin.
  - destruct (read_line r l) as [r1| |] eqn:Hline; [|done..].
    destruct (read_line_ok r l r1 Hok Hline) as (Hok1 & Hother & Hshape).
    destruct (IH r1 Hok1 Hread) as (Hok' & Hlen & Hnone).
    split_and!; [done| |].
    + rewrite Hlen. unfold separators. destruct (decide (l = Separator)) as [->|Hne].
      * destruct Hshape as [-> _]. rewrite filter_cons_True by done.
        rewrite length_app. simpl. lia.
      * destruct Hshape as [-> _]. rewrite filter_cons_False by done. lia.
    + intros op [Heq|Hin]%elem_of_cons; [by apply (Hother op)|by eapply Hnone].
Qed.

Lemma read_lines_tail r tail r' :
  reader_ok r → Forall (λ l, l ≠ Separator) tail →
  read_lines r tail = Loaded r' →
  closed r' = closed r ∧ current r' = current r ++ (tail ≫= line_instrs).
Proof.
  revert r. induction tail as [|l tail IH]; intros r Hok Hns Hread;
    simpl in Hread.
  - injection Hread as <-. by rewrite app_nil_r.
  - destruct (read_line r l) as [r1| |] eqn:Hline; [|done..].
    apply Forall_cons in Hns as [Hl Hns].
    destruct (read_line_ok r l r1 Hok Hline) as (Hok1 & _ & Hshape).
    rewrite decide_False in Hshape by done. destruct Hshape as [Hc1 Hcur1].
    destruct (IH r1 Hok1 Hns Hread) as (-> & ->).
    split; [done|]. rewrite Hcur1.
    change ((l :: tail) ≫= line_instrs)
      with (line_instrs l ++ (tail ≫= line_instrs)).
    by rewrite app_assoc.
Qed.

Lemma read_program_reader ls p s :
  read_program ls = Loaded (p, s) →
  ∃ r, read_lines (mkReader [] [] zero_state) ls = Loaded r ∧
       closed r = p ∧ globals r = s ∧ reader_ok r.
Proof.
  unfold read_program. intros Hread.
  destruct (read_lines (mkReader [] [] zero_state) ls) as [r| |] eqn:Hr;
    [|done..].
  injection Hread as <- <-. exists r. split_and!; try done.
  by destruct (read_lines_ok _ ls r reader_start_ok Hr).
Qed.

Lemma reader_ok_bounded r : reader_ok r → bounded_program (closed r).
Proof.
  intros (Hth & Hcl & _). split.
  - unfold num_threads. lia.
  - eapply Forall_impl; [exact Hcl|]. by intros th [? _].
Qed.

Lemma reader_ok_clean r : reader_ok r → clean (closed r) (globals r).
Proof.
  intros (Hth & Hcl & Hcur & Hgl).
  destruct (register_all_frame (concat (closed r) ++ current r) zero_state)
    as (Hp & He & Hl & _).
  rewrite <- Hgl in Hp, He, Hl. split_and!.
  - unfold dims. rewrite Hp, He, Hl. apply zero_state_dims.
  - intros t i Hv. rewrite Hgl, register_all_app.
    apply register_all_names. left.
    rewrite <- load_program_register_all.
    by apply load_program_registered.
  - intros t i Hv. unfold get_load. rewrite Hl. apply zero_state_loads.
Qed.


(** X18. Whatever text the reading loop reads to the end, the two searches
    then return without a failed assertion: every location of the program
    is registered and every load result is 0 when they start, and every
    outcome of the store-atomic search is an outcome of the relaxed
    search. *)
Theorem loaded_text_is_analysed ls p s :
  read_program ls = Loaded (p, s) →
  clean p s ∧
  ∃ s1 s2, run_ibm p s = Ok s1 ∧ run_tso p s1 = Ok s2 ∧
    solutions_ibm s2 = solutions_ibm s1 ∧
    solutions_ibm s1 ⊆ solutions_tso s2.
Proof.
  intros (r & Hr & <- & <- & Hok)%read_program_reader.
  pose proof (reader_ok_clean r Hok) as Hc. split; [done|].
  destruct (analysis_shape (closed r) (reader_ok_bounded r Hok) (globals r) Hc)
    as (s1 & s2 & Hr1 & Hr2 & _ & Heq & Hsub).
  by exists s1, s2.
Qed.

(** X19. When the last line of the text that is not blank is a separator,
    the reading loop leaves the globals of [load_program]: the two phases
    that follow are [main] on the program that was read. *)
Theorem terminated_text_runs_main ls blanks p s :
  Forall (λ l, l = BlankLine) blanks →
  read_program (ls ++ Separator :: blanks) = Loaded (p, s) →
  s = load_program p zero_state ∧
  (run_ibm p s ≫= run_tso p) = main p.
Proof.
  intros Hblanks (r & Hr & <- & <- & Hok)%read_program_reader.
  rewrite read_lines_app in Hr.
  destruct (read_lines (mkReader [] [] zero_state) ls) as [r1| |] eqn:Hr1;
    [|done..].
  destruct (read_lines_ok _ ls r1 reader_start_ok Hr1) as (Hok1 & _).
  cbn [read_lines] in Hr.
  destruct (read_line r1 Separator) as [r2| |] eqn:Hsep; [|done..].
  destruct (read_line_ok r1 Separator r2 Hok1 Hsep) as (Hok2 & _ & Hshape).
  rewrite decide_True in Hshape by done. destruct Hshape as [Hc2 Hcur2].
  destruct (read_lines_tail r2 blanks r Hok2) as (Hc & Hcur); [|done|].
  { eapply Forall_impl; [exact Hblanks|]. by intros l ->. }
  assert (blanks ≫= line_instrs = []) as Hnil.
  { clear -Hblanks. induction Hblanks as [|l blanks -> _ IH]; [done|].
    change ((BlankLine :: blanks) ≫= line_instrs)
      with (line_instrs BlankLine ++ (blanks ≫= line_instrs)).
    by rewrite IH. }
  rewrite Hnil, Hcur2 in Hcur. simpl in Hcur.
  assert (globals r = load_program (closed r) zero_state) as Hgl.
  { destruct Hok as (_ & _ & _ & ->).
    by rewrite Hcur, app_nil_r, load_program_register_all. }
  split; [done|]. unfold main. by rewrite <- Hgl.
Qed.

(** X20. Instructions after the last separator do not reach the program:
    lines without a separator appended to a text leave the program that is
    read as it was.  Their locations are registered all the same, beside
    the locations registered before. *)
Theorem unterminated_thread_is_dropped ls tail p s p' s' :
  Forall (λ l, l ≠ Separator) tail →
  read_program ls = Loaded (p, s) →
  read_program (ls ++ tail) = Loaded (p', s') →
  p' = p ∧
  (∀ x, x ∈ (memory s).*1 → x ∈ (memory s').*1) ∧
  (∀ l ins, l ∈ tail → ins ∈ line_instrs l → mem ins ∈ (memory s').*1).
Proof.
  intros Hns (r & Hr & <- & <- & Hok)%read_program_reader
         (r' & Hr' & <- & <- & Hok')%read_program_reader.
  rewrite read_lines_app, Hr in Hr'.
  destruct (read_lines_tail r tail r' Hok Hns Hr') as (Hc & Hcur).
  split; [done|].
  destruct Hok as (_ & _ & _ & Hgl), Hok' as (_ & _ & _ & Hgl').
  rewrite Hgl', Hc, Hcur, app_assoc, register_all_app, <- Hgl.
  split.
  - intros x Hx. apply register_all_names. by left.
  - intros l ins Hl Hins. apply register_all_names. right.
    exists ins. split; [|done]. apply list_elem_of_bind. by exists l.
Qed.

(** ** The properties above on the example programs *)

(** X3 on the memory of the store-buffering test. *)
Lemma update_memvar_round_trip_witness :
  let s := load_program sb_program zero_state in
  let s' := with_memory s [("x", 1%Z); ("y", 0%Z)] in
  update_memvar s "x" 1 = Ok (0%Z, s') ∧
  get_memvar s' "x" = Ok 1%Z ∧ get_memvar s' "y" = get_memvar s "y" ∧
  update_memvar s' "x" 0 = Ok (1%Z, s).
Proof.
  intros s s'.
  assert (update_memvar s "x" 1 = Ok (0%Z, s')) as Hup by reflexivity.
  destruct (update_memvar_round_trip s "x" 1 0 s' Hup)
    as (_ & Hnew & Hother & _ & _ & Hback).
  split_and!; [exact Hup|exact Hnew| |exact Hback].
  apply Hother. discriminate.
Defined.

(** X5 on the load of [forward_program], before its store is executed. *)
Lemma forwarding_condition_witness :
  store (instr_at forward_program 0 1) = false ∧
  forwarding forward_program zero_state 0 1 = Ok true.
Proof.
  assert (store (instr_at forward_program 0 1) = false) as Hst by reflexivity.
  split; [exact Hst|].
  destruct (forwarding_condition forward_program zero_state 0 1 Hst)
    as (f & Hf & Hiff).
  rewrite Hf. f_equal. apply Hiff. split.
  - exists 0. split; [lia|]. split; reflexivity.
  - intros j Hj _ _. assert (j = 0) as -> by lia. reflexivity.
Defined.

Lemma sb_start_inv :
  search_inv sb_program (rule_ibm sb_program)
    (ibm_start sb_program (load_program sb_program zero_state)) ∧
  search_inv sb_program (rule_tso sb_program)
    (tso_start sb_program (load_program sb_program zero_state)).
Proof.
  pose proof (clean_load_program sb_program) as Hc.
  split.
  - exact (proj1 (ibm_start_inv sb_program sb_program_bounded _ Hc)).
  - exact (proj1 (tso_start_inv sb_program sb_program_bounded _ Hc)).
Qed.

(** X6 on the load of the first thread of the store-buffering test: it
    waits for nothing although the store before it is not executed. *)
Lemma ready_iff_earlier_executed_witness :
  let p := sb_program in
  let s := ibm_start p (load_program p zero_state) in
  valid p 0 1 ∧ search_inv p (rule_ibm p) s ∧
  has_po_dependencies p s 0 1 = false.
Proof.
  intros p s.
  assert (valid p 0 1) as Hv by (split; cbv; lia).
  assert (search_inv p (rule_ibm p) s) as Hinv by exact (proj1 sb_start_inv).
  split_and!; [exact Hv|exact Hinv|].
  apply (proj1 (ready_iff_earlier_executed p s 0 1 Hv) Hinv).
  intros d Hd _. assert (d = 0) as -> by lia.
  split_and!; [reflexivity|reflexivity|discriminate].
Defined.

(** X7 on the first store of the store-buffering test. *)
Lemma remove_po_add_po_round_trip_witness :
  let p := sb_program in
  let s := ibm_start p (load_program p zero_state) in
  bounded_program p ∧ valid p 0 0 ∧ get_executed s 0 0 = false ∧
  search_inv p (rule_ibm p) s ∧
  add_po_ibm p (remove_po p s 0 0) 0 0 = s.
Proof.
  intros p s.
  assert (valid p 0 0) as Hv by (split; cbv; lia).
  assert (get_executed s 0 0 = false) as Hex by (vm_compute; reflexivity).
  assert (search_inv p (rule_ibm p) s) as Hinv by exact (proj1 sb_start_inv).
  split_and!; [exact sb_program_bounded|exact Hv|exact Hex|exact Hinv|].
  exact (proj2 (proj1 (remove_po_add_po_round_trip p sb_program_bounded
                         s 0 0 Hv Hex) Hinv)).
Defined.

(** X8 on the store-buffering test. *)
Lemma reset_executed_clears_witness :
  bounded_program sb_program ∧ dims2 (executed zero_state) ∧
  unexecuted sb_program (reset_executed sb_program zero_state) = 4.
Proof.
  assert (dims2 (executed zero_state)) as Hd by apply zero_state_dims.
  split_and!; [exact sb_program_bounded|exact Hd|].
  exact (proj1 (proj2 (proj2 (reset_executed_clears sb_program
                                sb_program_bounded zero_state Hd)))).
Defined.

(** X9 on the state in which the store-atomic search of the
    store-buffering test starts. *)
Lemma search_never_stuck_witness :
  let p := sb_program in
  let s := ibm_start p (load_program p zero_state) in
  bounded_program p ∧ all_executed p s = false ∧
  search_inv p (rule_ibm p) s ∧ ∃ o, ibm_schedule p s o.
Proof.
  intros p s.
  assert (all_executed p s = false) as Hall by (vm_compute; reflexivity).
  assert (search_inv p (rule_ibm p) s) as Hinv by exact (proj1 sb_start_inv).
  split_and!; [exact sb_program_bounded|exact Hall|exact Hinv|].
  exact (proj2 (proj1 (search_never_stuck p sb_program_bounded s Hall) Hinv)).
Defined.

(** X10 on the store-buffering test. *)
Lemma ibm_search_records_schedules_witness :
  let p := sb_program in
  let s := ibm_start p (load_program p zero_state) in
  bounded_program p ∧ search_inv p (rule_ibm p) s ∧ unexecuted p s ≤ 4 ∧
  ∃ s', get_possible_executions_ibm p 4 s = Ok s' ∧
    ∀ o, o ∈ solutions_ibm s' ↔
         o ∈ solutions_ibm s ∨ ibm_schedule p s o.
Proof.
  intros p s.
  assert (search_inv p (rule_ibm p) s) as Hinv by exact (proj1 sb_start_inv).
  assert (unexecuted p s ≤ 4) as Hle by (vm_compute; lia).
  split_and!; [exact sb_program_bounded|exact Hinv|exact Hle|].
  destruct (ibm_search_records_schedules p sb_program_bounded 4 s Hinv Hle)
    as (s' & Hrun & _ & _ & Hsol).
  exists s'. split; [exact Hrun|exact Hsol].
Defined.

(** X11 on the store-buffering test. *)
Lemma tso_search_records_schedules_witness :
  let p := sb_program in
  let s := tso_start p (load_program p zero_state) in
  bounded_program p ∧ search_inv p (rule_tso p) s ∧ unexecuted p s ≤ 4 ∧
  ∃ s', get_possible_executions_tso p 4 s = Ok s' ∧
    ∀ o, o ∈ solutions_tso s' ↔
         o ∈ solutions_tso s ∨ tso_schedule p s o.
Proof.
  intros p s.
  assert (search_inv p (rule_tso p) s) as Hinv by exact (proj2 sb_start_inv).
  assert (unexecuted p s ≤ 4) as Hle by (vm_compute; lia).
  split_and!; [exact sb_program_bounded|exact Hinv|exact Hle|].
  destruct (tso_search_records_schedules p sb_program_bounded 4 s Hinv Hle)
    as (s' & Hrun & _ & _ & Hsol).
  exists s'. split; [exact Hrun|exact Hsol].
Defined.

(** X12 on the store-buffering test: both sets hold an outcome. *)
Lemma outcomes_exist_iff_instruction_witness :
  bounded_program sb_program ∧
  ∃ s, main sb_program = Ok s ∧ solutions_ibm s ≠ ∅ ∧ solutions_tso s ≠ ∅.
Proof.
  split; [exact sb_program_bounded|].
  destruct (outcomes_exist_iff_instruction sb_program sb_program_bounded)
    as (s & Hmain & Hibm & Htso).
  exists s. split; [exact Hmain|]. split.
  - intros Hempty. apply Hibm in Hempty. discriminate.
  - intros Hempty. apply Htso in Hempty. discriminate.
Defined.

(** X13 on the store-buffering test. *)
Lemma analysis_is_repeatable_witness :
  bounded_program sb_program ∧
  ∃ s s1 s2, main sb_program = Ok s ∧
    run_ibm sb_program s = Ok s1 ∧ run_tso sb_program s1 = Ok s2 ∧
    solutions_ibm s2 = solutions_ibm s ∧ solutions_tso s2 = solutions_tso s.
Proof.
  split; [exact sb_program_bounded|].
  exact (analysis_is_repeatable sb_program sb_program_bounded).
Defined.

Lemma sb_no_store_before_load : no_store_before_load sb_program.
Proof.
  intros t i j [Ht Hi] Hj Hld Hst.
  destruct t as [|[|t]]; [| |cbv in Ht; lia];
    (destruct i as [|[|i]]; [lia| |cbv in Hi; lia]);
    assert (j = 0) as -> by lia; discriminate.
Qed.

(** X14 on the store-buffering test, where no load follows a store to its
    own location. *)
Lemma models_agree_without_store_before_load_witness :
  bounded_program sb_program ∧ no_store_before_load sb_program ∧
  ∃ s, main sb_program = Ok s ∧ solutions_tso s = solutions_ibm s.
Proof.
  split; [exact sb_program_bounded|]. split; [exact sb_no_store_before_load|].
  destruct (models_agree_without_store_before_load sb_program
              sb_program_bounded sb_no_store_before_load)
    as (s & Hmain & Hsame & _).
  exists s. split; [exact Hmain|exact Hsame].
Defined.

(** X15 on [forward_program]. *)
Lemma second_listing_marks_relaxed_only_witness :
  bounded_program forward_program ∧
  ∃ s, main forward_program = Ok s ∧
    length (report_tso s) = size (solutions_tso s) ∧
    ∀ o, o ∈ solutions_ibm s → o ∈ report_tso s.
Proof.
  split; [exact forward_program_bounded|].
  destruct (second_listing_marks_relaxed_only forward_program
              forward_program_bounded) as (s & Hmain & Hlen & Hibm & _).
  exists s. split; [exact Hmain|]. split; [exact Hlen|].
  intros o Ho. exact (proj2 (Hibm o Ho)).
Defined.

(** X16 on two states of the store-buffering test that differ in the
    result of one load. *)
Lemma outcome_identifies_values_witness :
  let p := sb_program in
  let a := load_program p zero_state in
  let b := with_loadvalues a (set2 (loadvalues a) 0 1 1%Z) in
  (memory a).*1 = (memory b).*1 ∧ outcome p a ≠ outcome p b.
Proof.
  intros p a b.
  assert ((memory a).*1 = (memory b).*1) as Hn by reflexivity.
  split; [exact Hn|]. intros Heq.
  apply (outcome_identifies_values p a b Hn) in Heq as [_ Hl].
  assert (valid p 0 1) as Hv by (split; cbv; lia).
  specialize (Hl 0 1 Hv eq_refl). vm_compute in Hl. discriminate.
Defined.

Lemma sb_text_loaded :
  read_program sb_text = Loaded (sb_program, load_program sb_program zero_state).
Proof. vm_compute. reflexivity. Qed.


(** X18 on the text of the store-buffering test. *)
Lemma loaded_text_is_analysed_witness :
  let p := sb_program in
  let s := load_program p zero_state in
  read_program sb_text = Loaded (p, s) ∧
  ∃ s1 s2, run_ibm p s = Ok s1 ∧ run_tso p s1 = Ok s2 ∧
    solutions_ibm s1 ⊆ solutions_tso s2.
Proof.
  intros p s. split; [exact sb_text_loaded|].
  destruct (loaded_text_is_analysed sb_text p s sb_text_loaded)
    as (_ & s1 & s2 & Hr1 & Hr2 & _ & Hsub).
  exists s1, s2. split_and!; [exact Hr1|exact Hr2|exact Hsub].
Defined.

(** X19 on the text of the store-buffering test, which ends with a
    separator and a blank line. *)
Lemma terminated_text_runs_main_witness :
  let p := sb_program in
  let s := load_program p zero_state in
  let ls := [StoreLine "x" 1; LoadLine "y"; Separator;
             StoreLine "y" 1; LoadLine "x"] in
  Forall (λ l, l = BlankLine) [BlankLine] ∧
  read_program (ls ++ Separator :: [BlankLine]) = Loaded (p, s) ∧
  (run_ibm p s ≫= run_tso p) = main p.
Proof.
  intros p s ls.
  assert (Forall (λ l, l = BlankLine) [BlankLine]) as Hb
    by (apply Forall_cons; split; [reflexivity|apply Forall_nil_2]).
  assert (read_program (ls ++ Separator :: [BlankLine]) = Loaded (p, s))
    as Hread by exact sb_text_loaded.
  split_and!; [exact Hb|exact Hread|].
  exact (proj2 (terminated_text_runs_main ls [BlankLine] p s Hb Hread)).
Defined.

(** X20 on the text of the store-buffering test followed by a store that
    no separator closes. *)
Lemma unterminated_thread_is_dropped_witness :
  let p := sb_program in
  let s := load_program p zero_state in
  let tail := [StoreLine "z" 5] in
  let s' := insert_memvar s "z" in
  Forall (λ l, l ≠ Separator) tail ∧
  read_program sb_text = Loaded (p, s) ∧
  read_program (sb_text ++ tail) = Loaded (p, s') ∧
  "z" ∈ (memory s').*1.
Proof.
  intros p s tail s'.
  assert (Forall (λ l, l ≠ Separator) tail) as Hns
    by (apply Forall_cons; split; [discriminate|apply Forall_nil_2]).
  assert (read_program (sb_text ++ tail) = Loaded (p, s')) as Hread
    by (vm_compute; reflexivity).
  split_and!; [exact Hns|exact sb_text_loaded|exact Hread|].
  destruct (unterminated_thread_is_dropped sb_text tail p s p s' Hns
              sb_text_loaded Hread) as (_ & _ & Hreg).
  apply (Hreg (StoreLine "z" 5) (st "z" 5)).
  - apply list_elem_of_here.
  - apply list_elem_of_here.
Defined.

(** X21 on the store-buffering test. *)
Lemma no_value_out_of_thin_air_witness :
  bounded_program sb_program ∧
  ∃ s, main sb_program = Ok s ∧
    ∀ o, o ∈ solutions_tso s →
      ∃ f, o = outcome sb_program f ∧ values_ok sb_program f.
Proof.
  split; [exact sb_program_bounded|].
  destruct (no_value_out_of_thin_air sb_program sb_program_bounded)
    as (s & Hmain & Hvalues).
  exists s. split; [exact Hmain|]. intros o Ho.
  destruct (Hvalues o (or_intror Ho)) as (f & Hf & _ & Hok).
  exists f. split; [exact Hf|exact Hok].
Defined.

(** X22 on the store-buffering test and the zero-initialised globals. *)
Lemma graph_builders_overwrite_witness :
  bounded_program sb_program ∧ dims3 (po zero_state) ∧
  build_po_graph_tso sb_program (build_po_graph_ibm sb_program zero_state)
    = build_po_graph_tso sb_program zero_state.
Proof.
  assert (dims3 (po zero_state)) as Hd by apply zero_state_dims.
  split; [exact sb_program_bounded|]. split; [exact Hd|].
  exact (proj1 (graph_builders_overwrite sb_program sb_program_bounded
                  zero_state Hd)).
Defined.

(** X23 on the store-buffering test: both locations end with the value of
    the only store to them. *)
Lemma final_memory_is_a_last_store_witness :
  bounded_program sb_program ∧
  ∃ s, main sb_program = Ok s ∧
    ∀ o, o ∈ solutions_tso s →
      ∃ f, o = outcome sb_program f ∧
        ∀ v, get_memvar f "x" = Ok v → v = 1%Z.
Proof.
  split; [exact sb_program_bounded|].
  destruct (final_memory_is_a_last_store sb_program sb_program_bounded)
    as (s & Hmain & Hlast).
  exists s. split; [exact Hmain|]. intros o Ho.
  destruct (Hlast o (or_intror Ho)) as (f & Hf & Hmem).
  exists f. split; [exact Hf|]. intros v Hv.
  destruct (Hmem "x" v Hv) as [[_ Hnone]|(t & j & (Hvj & Hsj & Hmj & _) & ->)].
  - exfalso. apply (Hnone 0 0); [split; cbv; lia|reflexivity|reflexivity].
  - destruct Hvj as [Ht Hj].
    destruct t as [|[|t]]; [| |cbv in Ht; lia];
      (destruct j as [|[|j]]; [| |cbv in Hj; lia]).
    + reflexivity.
    + discriminate Hsj.
    + discriminate Hmj.
    + discriminate Hsj.
Defined.
